(** * GDPRag engine: chunking, embedding, ingestion and retrieval

    A shallow embedding of [rag_engine.py] (class [RAGEngine]) and the
    properties of its ingestion-and-retrieval pipeline.

    Python values are modelled as follows.
    - [str]: a list of Unicode code points ([pystr := list N]);
    - [int]: [Z]; list lengths go through [len];
    - [float]: an abstract type with the operations the engine uses;
    - the dicts with fixed keys (documents, chunk metadata, statistics,
      citations): records;
    - the ChromaDB directory: a finite map from collection names to
      collections, a collection being a finite map from record ids to
      records;
    - exceptions and the mutable world (collections, remote call logs):
      a state-and-error monad [M];
    - the [while] loop of the chunker: a fuelled loop, one unit of fuel per
      iteration. *)

From Stdlib Require Import ZArith NArith Lia.
From stdpp Require Import base tactics option list strings gmap sorting.

Local Open Scope Z_scope.

(** ** Python strings *)

Module PyStr.

Abbreviation pystr := (list N).

(** [len(x)] as a Python integer. *)
Definition len {A} (l : list A) : Z := Z.of_nat (length l).

(** A string literal of the source, as code points. *)
Definition str (s : string) : pystr :=
  (fun a => Ascii.N_of_ascii a) <$> String.list_ascii_of_string s.

(** Index normalisation of a slice bound ([PySlice_AdjustIndices], step 1):
    negative bounds count from the end, everything is clipped to [0, n]. *)
Definition clamp_index (n i : Z) : Z :=
  if i <? 0 then Z.max 0 (i + n) else Z.min i n.

(** [l[a:b]] *)
Definition slice {A} (l : list A) (a b : Z) : list A :=
  let n := len l in
  let a' := clamp_index n a in
  let b' := clamp_index n b in
  take (Z.to_nat (b' - a')) (drop (Z.to_nat a') l).

(** Bounds of [str.find]/[str.rfind] ([ADJUST_INDICES] in CPython): the end
    is clipped to the length, negative bounds count from the end, the start
    is not clipped from above. *)
Definition adjust_end (n e : Z) : Z :=
  if n <? e then n else if e <? 0 then Z.max 0 (e + n) else e.

Definition adjust_start (n s : Z) : Z :=
  if s <? 0 then Z.max 0 (s + n) else s.

Definition match_at (text sub : pystr) (i : nat) : bool :=
  bool_decide (take (length sub) (drop i text) = sub).

(** Candidates [lo + k - 1], ..., [lo], highest first. *)
Fixpoint rfind_down (text sub : pystr) (lo k : nat) : Z :=
  match k with
  | O => -1
  | S k' =>
      if match_at text sub (lo + k')
      then Z.of_nat (lo + k')
      else rfind_down text sub lo k'
  end.

(** [text.rfind(sub, s, e)]: the highest index [i] with
    [s' <= i <= e' - len(sub)] and [text[i:i+len(sub)] == sub], or [-1]. *)
Definition rfind (text sub : pystr) (s e : Z) : Z :=
  let n := len text in
  let s' := adjust_start n s in
  let e' := adjust_end n e in
  rfind_down text sub (Z.to_nat s') (Z.to_nat (e' - len sub - s' + 1)).

(** [str.isspace] on one code point ([_PyUnicode_IsWhitespace]). *)
Definition isspace (c : N) : bool :=
  (((9 <=? c) && (c <=? 13)) || ((28 <=? c) && (c <=? 32))
   || (c =? 133) || (c =? 160) || (c =? 5760)
   || ((8192 <=? c) && (c <=? 8202))
   || (c =? 8232) || (c =? 8233) || (c =? 8239) || (c =? 8287)
   || (c =? 12288))%N.

Fixpoint lstrip (s : pystr) : pystr :=
  match s with
  | [] => []
  | c :: r => if isspace c then lstrip r else s
  end.

Definition rstrip (s : pystr) : pystr := reverse (lstrip (reverse s)).

(** [s.strip()] *)
Definition strip (s : pystr) : pystr := rstrip (lstrip s).

(** [s.startswith(p)] *)
Definition startswith (s p : pystr) : bool :=
  bool_decide (take (length p) s = p).

(** Line boundaries of [str.splitlines]. *)
Definition is_linebreak (c : N) : bool :=
  (((10 <=? c) && (c <=? 13)) || ((28 <=? c) && (c <=? 30))
   || (c =? 133) || (c =? 8232) || (c =? 8233))%N.

(** [s.splitlines()]: split at line boundaries, ["\r\n"] counting as one;
    no empty last line. [cur] is the current line, reversed. *)
Fixpoint splitlines_go (cur s : pystr) : list pystr :=
  match s with
  | [] => match cur with [] => [] | _ => [reverse cur] end
  | c :: rest =>
      if (c =? 13)%N then
        match rest with
        | c' :: rest' =>
            if (c' =? 10)%N
            then reverse cur :: splitlines_go [] rest'
            else reverse cur :: splitlines_go [] rest
        | [] => reverse cur :: splitlines_go [] rest
        end
      else if is_linebreak c then reverse cur :: splitlines_go [] rest
      else splitlines_go (c :: cur) rest
  end.

Definition splitlines (s : pystr) : list pystr := splitlines_go [] s.

(** Decimal digits of a natural number, most significant first
    ([fuel] bounds the number of digits). *)
Fixpoint digits_go (fuel : nat) (n : N) (acc : pystr) : pystr :=
  match fuel with
  | O => acc
  | S fuel' =>
      let acc' := (48 + n mod 10)%N :: acc in
      if (n <? 10)%N then acc' else digits_go fuel' (n / 10)%N acc'
  end.

Definition digits (n : N) : pystr := digits_go (S (N.to_nat (N.log2 n))) n [].

(** The number that a string of decimal digits denotes, read left to
    right from the value [acc] of the digits before it. *)
Definition digits_value (acc : N) (s : pystr) : N :=
  foldl (fun a c => (a * 10 + (c - 48))%N) acc s.

(** [str(z)] for an integer. *)
Definition str_of_int (z : Z) : pystr :=
  if z <? 0 then 45%N :: digits (Z.to_N (- z)) else digits (Z.to_N z).

(** [sep.join(parts)] *)
Fixpoint join (sep : pystr) (parts : list pystr) : pystr :=
  match parts with
  | [] => []
  | [p] => p
  | p :: rest => p ++ sep ++ join sep rest
  end.

(** [f"{n:06d}"] for [n >= 0]: decimal, left-padded with zeros to width 6. *)
Definition format_06d (n : N) : pystr :=
  let d := digits n in
  replicate (6 - length d)%nat 48%N ++ d.

End PyStr.
Export PyStr.

(** ** Configuration *)

Record RAGConfig := {
  api_key : pystr;
  embed_model : pystr;
  chat_model : pystr;
  chroma_path : pystr;
  collection_name : pystr;
  chunk_size : Z;
  chunk_overlap : Z;
  top_k : Z;
  system_prompt : pystr
}.

(** The defaults of the [RAGConfig] dataclass. *)
Definition default_config : RAGConfig :=
  {| api_key := [];
     embed_model := str "mistral-embed";
     chat_model := str "mistral-small-latest";
     chroma_path := str "./chroma_db";
     collection_name := str "gdprag_docs";
     chunk_size := 1000;
     chunk_overlap := 200;
     top_k := 5;
     system_prompt :=
       str "Sei GDPRag, un assistente AI aziendale GDPR-compliant." ++ [10%N]
       ++ str "Rispondi alle domande basandoti ESCLUSIVAMENTE sul contesto fornito dai documenti aziendali."
       ++ [10; 10]%N ++ str "Regole:" ++ [10%N]
       ++ str "- Rispondi in italiano" ++ [10%N]
       ++ str "- Se l'informazione non " ++ [232%N] ++ str " nel contesto, dillo chiaramente" ++ [10%N]
       ++ str "- Cita la fonte (nome file) quando possibile" ++ [10%N]
       ++ str "- Sii preciso e conciso" ++ [10; 10]%N
       ++ [9888; 65039]%N ++ str " Risposta generata da sistema AI " ++ [8212%N]
       ++ str " verificare le informazioni critiche." |}.

(** [RAGConfig(chunk_size=size, chunk_overlap=overlap)] *)
Definition config_with (size overlap : Z) : RAGConfig :=
  {| api_key := api_key default_config;
     embed_model := embed_model default_config;
     chat_model := chat_model default_config;
     chroma_path := chroma_path default_config;
     collection_name := collection_name default_config;
     chunk_size := size;
     chunk_overlap := overlap;
     top_k := top_k default_config;
     system_prompt := system_prompt default_config |}.

(** ** Chunker *)

Module Chunker.

(** ["\n\n", "\n", ". ", "! ", "? ", "; "] *)
Definition separators : list pystr :=
  [ [10; 10]; [10]; [46; 32]; [33; 32]; [63; 32]; [59; 32] ]%N.

(** The [for sep in ...] loop of [chunk_text]: the first separator that
    occurs in [text[lo:hi]] moves the cut just after its last occurrence;
    [hi] is kept when none occurs. *)
Fixpoint find_cut (text : pystr) (seps : list pystr) (lo hi : Z) : Z :=
  match seps with
  | [] => hi
  | sep :: rest =>
      let last_sep := rfind text sep lo hi in
      if last_sep =? -1 then find_cut text rest lo hi
      else last_sep + len sep
  end.

(** The value of [end] when the chunk is cut. *)
Definition cut_end (text : pystr) (size start : Z) : Z :=
  let e := start + size in
  if e <? len text then find_cut text separators (start + size / 2) e else e.

(** [if chunk and len(chunk) > 50: chunks.append(chunk)] *)
Definition keep (chunk : pystr) : bool :=
  negb (bool_decide (chunk = [])) && (50 <? len chunk).

Definition append_if_kept (chunks : list pystr) (chunk : pystr) : list pystr :=
  if keep chunk then chunks ++ [chunk] else chunks.

(** The [while start < len(text)] loop of [chunk_text]. One unit of [fuel]
    pays for one run of the loop body; [None] means the fuel ran out while
    the loop condition still held. *)
Fixpoint chunk_loop (fuel : nat) (text : pystr) (size overlap start : Z)
    (chunks : list pystr) : option (list pystr) :=
  if start <? len text then
    match fuel with
    | O => None
    | S fuel' =>
        let e := cut_end text size start in
        let chunk := strip (slice text start e) in
        let chunks' := append_if_kept chunks chunk in
        let start' := e - overlap in
        if len text <=? start' then Some chunks'
        else chunk_loop fuel' text size overlap start' chunks'
    end
  else Some chunks.

Definition chunk_text (fuel : nat) (cfg : RAGConfig) (text : pystr)
    : option (list pystr) :=
  chunk_loop fuel text (chunk_size cfg) (chunk_overlap cfg) 0 [].

(** The same loop, recording the raw window [text[start:end]] of every
    iteration instead of the stripped and filtered chunk. *)
Fixpoint window_loop (fuel : nat) (text : pystr) (size overlap start : Z)
    (windows : list pystr) : option (list pystr) :=
  if start <? len text then
    match fuel with
    | O => None
    | S fuel' =>
        let e := cut_end text size start in
        let windows' := windows ++ [slice text start e] in
        let start' := e - overlap in
        if len text <=? start' then Some windows'
        else window_loop fuel' text size overlap start' windows'
    end
  else Some windows.

Definition chunk_windows (fuel : nat) (cfg : RAGConfig) (text : pystr)
    : option (list pystr) :=
  window_loop fuel text (chunk_size cfg) (chunk_overlap cfg) 0 [].

(** Removing the overlapping span: every window after the first starts with
    the last [overlap] characters cut before it. *)
Definition strip_overlaps (overlap : Z) (windows : list pystr) : list pystr :=
  match windows with
  | [] => []
  | w :: ws => w :: (drop (Z.to_nat overlap) <$> ws)
  end.

(** The chunks that a list of windows gives: each window stripped, kept
    when it passes the length floor. *)
Definition emit (windows : list pystr) : list pystr :=
  filter (fun c => keep c) (strip <$> windows).

(** The configurations on which every iteration moves [start] forward:
    a cut after a separator may shorten the window to [size // 2 + 1]
    characters, so the overlap must not exceed [size // 2]. *)
Definition progressing (size overlap : Z) : Prop :=
  0 <= overlap /\ overlap <= size / 2 /\ 1 <= size.

End Chunker.
Export Chunker.


(** ** Data model *)

(** A document record, the dict built by [load_sources]. *)
Record Document := {
  doc_filename : pystr;
  doc_filepath : pystr;
  doc_source_dir : pystr;
  doc_text : pystr;
  doc_hash : pystr;
  doc_size : Z;
  doc_modified : pystr
}.

(** The metadata dict that [chunk_documents] attaches to every chunk. *)
Record ChunkMeta := {
  meta_filename : pystr;
  meta_source_dir : pystr;
  meta_chunk_index : Z;
  meta_total_chunks : Z;
  meta_content_hash : pystr;
  meta_doc_modified : pystr
}.

Definition mk_meta (doc : Document) (i total : Z) : ChunkMeta :=
  {| meta_filename := doc_filename doc;
     meta_source_dir := doc_source_dir doc;
     meta_chunk_index := i;
     meta_total_chunks := total;
     meta_content_hash := doc_hash doc;
     meta_doc_modified := doc_modified doc |}.

(** The metadata records of the chunks of one document, as the inner
    [for i, chunk in enumerate(chunks)] builds them. *)
Definition doc_metadata (doc : Document) (chunks : list pystr) : list ChunkMeta :=
  imap (fun i _ => mk_meta doc (Z.of_nat i) (len chunks)) chunks.

(** [chunk_documents]: the outer loop over [docs]; the inner loop appends
    the chunks of one document and one metadata record per chunk. *)
Fixpoint chunk_documents_loop (fuel : nat) (cfg : RAGConfig)
    (docs : list Document) (all_chunks : list pystr)
    (all_metadata : list ChunkMeta) : option (list pystr * list ChunkMeta) :=
  match docs with
  | [] => Some (all_chunks, all_metadata)
  | doc :: rest =>
      match chunk_text fuel cfg (doc_text doc) with
      | None => None
      | Some chunks =>
          chunk_documents_loop fuel cfg rest
            (all_chunks ++ chunks)
            (all_metadata ++ doc_metadata doc chunks)
      end
  end.

Definition chunk_documents (fuel : nat) (cfg : RAGConfig)
    (docs : list Document) : option (list pystr * list ChunkMeta) :=
  chunk_documents_loop fuel cfg docs [] [].

(** ** The platform: file system, remote services, vector index

    Everything the engine reaches through a library call is a field of this
    interface: [pathlib] and the text extractors, the Mistral client, the
    nearest-neighbour ranking of ChromaDB, and Python's [float]. *)

Inductive exn :=
| ValueError (msg : pystr)
| FileNotFoundError (msg : pystr)
| IndexError
| CollectionNotFound (name : pystr)
| StoreRejected (msg : pystr)
| EmbeddingCallFailed (detail : pystr)
| GenerationCallFailed (detail : pystr).

Record ChatResponse := {
  resp_content : pystr;
  resp_prompt_tokens : Z;
  resp_completion_tokens : Z;
  resp_total_tokens : Z
}.

Class Platform := {
  vec : Type;
  float : Type;
  (* float arithmetic used by the engine *)
  float_zero : float;                       (* [0.0] *)
  float_temperature : float;                (* [0.1] *)
  one_minus : float -> float;               (* [1 - dist] *)
  round4 : float -> float;                  (* [round(x, 4)] *)
  cost_of_tokens : Z -> float;              (* [n * 0.10 / 1_000_000] *)
  (* environment *)
  env_api_key : pystr;                      (* [os.environ.get("MISTRAL_API_KEY", "")] *)
  (* pathlib *)
  path_resolve : pystr -> pystr;            (* [Path(p).expanduser().resolve()] *)
  path_exists : pystr -> bool;
  path_is_file : pystr -> bool;
  path_is_dir : pystr -> bool;
  path_rglob_sorted : pystr -> list pystr;  (* [sorted(path.rglob("*"))] *)
  path_name : pystr -> pystr;
  path_suffix_lower : pystr -> pystr;       (* [file.suffix.lower()] *)
  path_parent : pystr -> pystr;
  path_mtime_iso : pystr -> pystr;
  path_read_text : pystr -> pystr;
  (* collaborators *)
  extract_text : pystr -> pystr;
  md5_hex12 : pystr -> pystr;               (* [hashlib.md5(t.encode()).hexdigest()[:12]] *)
  (* remote services: the result or the detail of the failure *)
  embeddings_create : pystr -> list pystr -> pystr + list vec;
  chat_complete : pystr -> pystr -> pystr -> float -> Z -> pystr + ChatResponse;
  (* the ranking of the vector index: ids and distances, nearest first *)
  knn : forall (ids : list pystr) (stored : pystr -> option vec),
          vec -> Z -> list (pystr * float)
}.

Module Engine.
Section WithPlatform.
Context `{P : Platform}.

Record VectorRecord := {
  rec_document : pystr;
  rec_embedding : vec;
  rec_metadata : ChunkMeta
}.

Record ChatRequest := {
  req_model : pystr;
  req_system : pystr;
  req_user : pystr;
  req_temperature : float;
  req_max_tokens : Z
}.

(** The mutable world of one engine: the lazily created client, the
    collections of the ChromaDB directory by name, and the log of the remote
    calls made so far. *)
Record World := {
  client_ready : bool;
  collections : gmap (list N) (gmap (list N) VectorRecord);
  embed_calls : list (list pystr);
  chat_calls : list ChatRequest
}.

Definition set_client_ready (w : World) : World :=
  {| client_ready := true; collections := collections w;
     embed_calls := embed_calls w; chat_calls := chat_calls w |}.

Definition set_collections (cs : gmap (list N) (gmap (list N) VectorRecord))
    (w : World) : World :=
  {| client_ready := client_ready w; collections := cs;
     embed_calls := embed_calls w; chat_calls := chat_calls w |}.

Definition log_embed_call (batch : list pystr) (w : World) : World :=
  {| client_ready := client_ready w; collections := collections w;
     embed_calls := embed_calls w ++ [batch]; chat_calls := chat_calls w |}.

Definition log_chat_call (r : ChatRequest) (w : World) : World :=
  {| client_ready := client_ready w; collections := collections w;
     embed_calls := embed_calls w; chat_calls := chat_calls w ++ [r] |}.

(** Two worlds that differ at most in their collections. *)
Definition same_logs (w w' : World) : Prop :=
  client_ready w' = client_ready w
  /\ embed_calls w' = embed_calls w
  /\ chat_calls w' = chat_calls w.

(** *** The monad of engine operations *)

Inductive outcome (A : Type) :=
| Ok (a : A)
| Raise (e : exn)
| OutOfFuel.
Arguments Ok {A} a.
Arguments Raise {A} e.
Arguments OutOfFuel {A}.

Definition M (A : Type) : Type := World -> outcome A * World.

Definition ret {A} (a : A) : M A := fun w => (Ok a, w).

Definition bind {A B} (m : M A) (k : A -> M B) : M B :=
  fun w =>
    match m w with
    | (Ok a, w') => k a w'
    | (Raise e, w') => (Raise e, w')
    | (OutOfFuel, w') => (OutOfFuel, w')
    end.

Definition raise {A} (e : exn) : M A := fun w => (Raise e, w).

Definition out_of_fuel {A} : M A := fun w => (OutOfFuel, w).

Definition get_world : M World := fun w => (Ok w, w).

Definition modify_world (f : World -> World) : M unit := fun w => (Ok tt, f w).

(** [try: m  except Exception: pass] *)
Definition try_pass (m : M unit) : M unit :=
  fun w =>
    match m w with
    | (Raise _, w') => (Ok tt, w')
    | r => r
    end.

Notation "'let*' x ':=' m 'in' k" := (bind m (fun x => k))
  (at level 10, x name, m at level 100, k at level 200, only parsing).
Notation "'run' m 'in' k" := (bind m (fun _ => k))
  (at level 10, m at level 100, k at level 200, only parsing).

(** [for x in l: body x], collecting the results. *)
Fixpoint for_each {A B} (l : list A) (body : A -> M B) : M (list B) :=
  match l with
  | [] => ret []
  | x :: rest =>
      let* y := body x in
      let* ys := for_each rest body in
      ret (y :: ys)
  end.

(** [range(0, stop, step)] for [step > 0]. *)
Definition range_step (stop step : Z) : list Z :=
  (fun k => Z.of_nat k * step) <$> seq 0 (Z.to_nat ((stop + step - 1) / step)).

(** [range(0, stop, step)]: a zero step is an error, a negative step
    gives the empty range. *)
Definition py_range (stop step : Z) : M (list Z) :=
  if step =? 0 then raise (ValueError (str "range() arg 3 must not be zero"))
  else if step <? 0 then ret []
  else ret (range_step stop step).

(** *** Client and collection *)

Definition _get_client (cfg : RAGConfig) : M unit :=
  let* w := get_world in
  if client_ready w then ret tt
  else
    let key := match api_key cfg with [] => env_api_key | k => k end in
    match key with
    | [] => raise (ValueError (str "API key mancante. Imposta MISTRAL_API_KEY o passa api_key nella config."))
    | _ => modify_world set_client_ready
    end.

(** A client can be had: it exists already, or a key is configured. *)
Definition key_available (cfg : RAGConfig) (w : World) : Prop :=
  client_ready w = true \/ api_key cfg <> [] \/ env_api_key <> [].

Definition with_client (w : World) : World :=
  if client_ready w then w else set_client_ready w.

(** [chroma.get_or_create_collection] / [chroma.get_collection]; the handle
    of a collection is its name. *)
Definition _get_collection (cfg : RAGConfig) (create : bool) : M pystr :=
  let* w := get_world in
  let name := collection_name cfg in
  match collections w !! name with
  | Some _ => ret name
  | None =>
      if create
      then run modify_world (set_collections (<[name := ∅]> (collections w))) in
           ret name
      else raise (CollectionNotFound name)
  end.

Definition delete_collection (name : pystr) : M unit :=
  let* w := get_world in
  match collections w !! name with
  | Some _ => modify_world (set_collections (delete name (collections w)))
  | None => raise (CollectionNotFound name)
  end.

Definition with_collection {A} (name : pystr)
    (k : gmap (list N) VectorRecord -> M A) : M A :=
  let* w := get_world in
  match collections w !! name with
  | Some c => k c
  | None => raise (CollectionNotFound name)
  end.

Definition collection_count (name : pystr) : M Z :=
  with_collection name (fun c => ret (Z.of_nat (size c))).

(** One record of [collection.add]: an id that is already stored is left
    as it is. *)
Definition add_record (c : gmap (list N) VectorRecord)
    (r : pystr * VectorRecord) : gmap (list N) VectorRecord :=
  match c !! r.1 with
  | Some _ => c
  | None => <[r.1 := r.2]> c
  end.

Fixpoint zip_records (ids docs : list pystr) (embs : list vec)
    (metas : list ChunkMeta) : list (pystr * VectorRecord) :=
  match ids, docs, embs, metas with
  | i :: ids', d :: docs', e :: embs', m :: metas' =>
      (i, {| rec_document := d; rec_embedding := e; rec_metadata := m |})
        :: zip_records ids' docs' embs' metas'
  | _, _, _, _ => []
  end.

(** [collection.add(ids=..., documents=..., embeddings=..., metadatas=...)]:
    the four lists must have one length. *)
Definition collection_add (name : pystr) (ids docs : list pystr)
    (embs : list vec) (metas : list ChunkMeta) : M unit :=
  with_collection name (fun c =>
    if bool_decide (length docs = length ids
                    /\ length embs = length ids
                    /\ length metas = length ids)
    then
      let* w := get_world in
      modify_world (set_collections
        (<[name := foldl add_record c (zip_records ids docs embs metas)]>
           (collections w)))
    else raise (StoreRejected (str "Unequal lengths"))).

(** [collection.query(query_embeddings=[q], n_results=k, include=...)]:
    the index ranks the stored ids, the store returns their records. *)
Definition search_hits (c : gmap (list N) VectorRecord) (q : vec) (k : Z)
    : list (VectorRecord * float) :=
  let ranked := knn (map_to_list c).*1 (fun i => rec_embedding <$> c !! i) q k in
  omap (fun '(i, d) => (fun r => (r, d)) <$> c !! i) ranked.


Definition collection_query (name : pystr) (q : vec) (k : Z)
    : M (list pystr * list ChunkMeta * list float) :=
  with_collection name (fun c =>
    let hits := search_hits c q k in
    ret (rec_document ∘ fst <$> hits, rec_metadata ∘ fst <$> hits, snd <$> hits)).

(** *** Loader

    The log lines of the loader are not part of the model. *)

Definition SUPPORTED_EXTENSIONS : list pystr :=
  str <$> [ ".txt"; ".md"; ".csv"; ".json"; ".log"; ".yml"; ".yaml"; ".xml";
            ".pdf"; ".docx"; ".doc"; ".xlsx"; ".xls"; ".pptx";
            ".html"; ".htm"; ".odt"; ".rtf" ]%string.

(** The body of [for file in files]. *)
Definition load_file (file : pystr) : list Document :=
  if path_is_dir file then []
  else if negb (bool_decide (path_suffix_lower file ∈ SUPPORTED_EXTENSIONS)) then []
  else if startswith (path_name file) (str ".")
          || startswith (path_name file) (str "~") then []
  else
    let text := extract_text file in
    match strip text with
    | [] => []
    | stripped =>
        [ {| doc_filename := path_name file;
             doc_filepath := file;
             doc_source_dir := path_parent file;
             doc_text := stripped;
             doc_hash := md5_hex12 text;
             doc_size := len text;
             doc_modified := path_mtime_iso file |} ]
    end.

(** The body of [for path_str in paths]: a path that does not exist is
    logged and skipped. *)
Definition load_path (path_str : pystr) : list Document :=
  let path := path_resolve path_str in
  if negb (path_exists path) then []
  else
    let files := if path_is_file path then [path] else path_rglob_sorted path in
    files ≫= load_file.

Definition load_sources (paths : list pystr) : list Document :=
  paths ≫= load_path.

(** The lines of the manifest that are kept. *)
Definition manifest_paths (content : pystr) : list pystr :=
  filter (fun line => line <> [] /\ startswith line (str "#") = false)
         (strip <$> splitlines content).

Definition load_sources_file (sources_file : pystr) : M (list Document) :=
  if negb (path_exists sources_file)
  then raise (FileNotFoundError (str "File sorgenti non trovato: " ++ sources_file))
  else
    let paths := manifest_paths (path_read_text sources_file) in
    match paths with
    | [] => raise (ValueError (str "Nessun percorso trovato in " ++ sources_file))
    | _ => ret (load_sources paths)
    end.

(** *** Embedder *)

Definition call_embeddings (cfg : RAGConfig) (batch : list pystr) : M (list vec) :=
  run modify_world (log_embed_call batch) in
  match embeddings_create (embed_model cfg) batch with
  | inl detail => raise (EmbeddingCallFailed detail)
  | inr data => ret data
  end.

Definition embed_texts (cfg : RAGConfig) (texts : list pystr) (batch_size : Z)
    : M (list vec) :=
  run _get_client cfg in
  let* starts := py_range (len texts) batch_size in
  let* per_batch := for_each starts (fun i =>
    call_embeddings cfg (slice texts i (i + batch_size))) in
  ret (concat per_batch).

(** *** Ingestion *)

Record Stats := {
  documents : Z;
  chunks : Z;
  tokens_est : Z;
  cost_est : float;
  errors : list pystr
}.

Definition chunk_id (n : Z) : pystr := str "chunk_" ++ format_06d (Z.to_N n).

(** [[f"chunk_{existing_count + i:06d}" for i in range(n)]] *)
Definition issued_ids (existing_count : Z) (n : nat) : list pystr :=
  (fun i => chunk_id (existing_count + Z.of_nat i)) <$> seq 0 n.

(** [sum(len(c) for c in chunks)] *)
Definition total_chars (chunks : list pystr) : Z :=
  foldr (fun c acc => len c + acc) 0 chunks.

Definition truthy_str (o : option pystr) : option pystr :=
  match o with Some (c :: s) => Some (c :: s) | _ => None end.

Definition truthy_list (o : option (list pystr)) : option (list pystr) :=
  match o with Some (x :: l) => Some (x :: l) | _ => None end.

(** [ingest] is modelled step by step, as the source numbers its steps; the
    log lines and the progress callback are not part of the model. *)

(** Step 1 of [ingest]: the manifest when one is given, else the paths. *)
Definition ingest_load (paths : option (list pystr))
    (sources_file : option pystr) : M (list Document) :=
  match truthy_str sources_file with
  | Some sf => load_sources_file sf
  | None =>
      match truthy_list paths with
      | Some ps => ret (load_sources ps)
      | None => raise (ValueError (str "Specifica paths o sources_file"))
      end
  end.

(** The result of [ingest] when no document was loaded. *)
Definition no_documents_stats : Stats :=
  {| documents := 0; chunks := 0; tokens_est := 0; cost_est := float_zero;
     errors := [str "Nessun documento trovato"] |}.

(** The writes of step 4, [batch_limit] records per [collection.add]. *)
Definition add_in_batches (collection : pystr) (ids chunks : list pystr)
    (embeddings : list vec) (metadata : list ChunkMeta) : M (list unit) :=
  let batch_limit := 5000 in
  let* starts := py_range (len chunks) batch_limit in
  for_each starts (fun i =>
    let e := Z.min (i + batch_limit) (len chunks) in
    collection_add collection (slice ids i e) (slice chunks i e)
      (slice embeddings i e) (slice metadata i e)).

(** Steps 2 to 4 of [ingest], for a non-empty list of documents. *)
Definition ingest_docs (fuel : nat) (cfg : RAGConfig) (docs : list Document)
    (append : bool) : M Stats :=
  match chunk_documents fuel cfg docs with
  | None => out_of_fuel
  | Some (chunks, metadata) =>
      let* embeddings := embed_texts cfg chunks 50 in
      run (if append then ret tt
           else try_pass (delete_collection (collection_name cfg))) in
      let* collection := _get_collection cfg true in
      let* existing_count := (if append then collection_count collection
                              else ret 0) in
      let ids := issued_ids existing_count (length chunks) in
      run add_in_batches collection ids chunks embeddings metadata in
      let tokens := total_chars chunks / 4 in
      run collection_count collection in
      ret {| documents := len docs; chunks := len chunks;
             tokens_est := tokens; cost_est := cost_of_tokens tokens;
             errors := [] |}
  end.

Definition ingest (fuel : nat) (cfg : RAGConfig)
    (paths : option (list pystr)) (sources_file : option pystr)
    (append : bool) : M Stats :=
  let* docs := ingest_load paths sources_file in
  match docs with
  | [] => ret no_documents_stats
  | _ => ingest_docs fuel cfg docs append
  end.

(** *** Retrieval *)

Record Citation := {
  cit_filename : pystr;
  cit_chunk_index : Z;
  cit_similarity : float;
  cit_preview : pystr
}.

Record Usage := {
  prompt_tokens : Z;
  completion_tokens : Z;
  total_tokens : Z
}.

Record QueryResult := {
  answer : pystr;
  sources : list Citation;
  usage : Usage
}.

(** [doc[:200] + "..." if len(doc) > 200 else doc] *)
Definition preview (doc : pystr) : pystr :=
  if 200 <? len doc then slice doc 0 200 ++ str "..." else doc.

Definition source_info (doc : pystr) (meta : ChunkMeta) (dist : float) : Citation :=
  let similarity := one_minus dist in
  {| cit_filename := meta_filename meta;
     cit_chunk_index := meta_chunk_index meta;
     cit_similarity := round4 similarity;
     cit_preview := preview doc |}.

(** [f"[Fonte: {meta['filename']}, sezione {meta['chunk_index']}]\n{doc}"] *)
Definition context_part (doc : pystr) (meta : ChunkMeta) : pystr :=
  str "[Fonte: " ++ meta_filename meta ++ str ", sezione "
    ++ str_of_int (meta_chunk_index meta) ++ str "]" ++ [10%N] ++ doc.

(** [zip(a, b, c)]: as long as the shortest list. *)
Fixpoint zip3 {A B C} (a : list A) (b : list B) (c : list C) : list (A * B * C) :=
  match a, b, c with
  | x :: a', y :: b', z :: c' => (x, y, z) :: zip3 a' b' c'
  | _, _, _ => []
  end.

Definition user_prompt_of (context question : pystr) : pystr :=
  str "Contesto dai documenti aziendali:" ++ [10%N]
    ++ str "---------------------" ++ [10%N]
    ++ context ++ [10%N]
    ++ str "---------------------" ++ [10%N; 10%N]
    ++ str "Domanda: " ++ question ++ [10%N; 10%N]
    ++ str "Rispondi basandoti solo sul contesto fornito sopra.".

Definition call_chat (r : ChatRequest) : M ChatResponse :=
  run modify_world (log_chat_call r) in
  match chat_complete (req_model r) (req_system r) (req_user r)
          (req_temperature r) (req_max_tokens r) with
  | inl detail => raise (GenerationCallFailed detail)
  | inr response => ret response
  end.

(** The separator of the context parts, ["\n\n---\n\n"]. *)
Definition context_separator : pystr := [10; 10]%N ++ str "---" ++ [10; 10]%N.

(** The chat request of [query]: the system prompt of the configuration and
    a user turn with the context assembled from the hits and the question,
    [temperature=0.1], [max_tokens=1024]. *)
Definition chat_request (cfg : RAGConfig) (question : pystr)
    (hits : list (pystr * ChunkMeta * float)) : ChatRequest :=
  let context_parts := (fun h => context_part h.1.1 h.1.2) <$> hits in
  let context := join context_separator context_parts in
  {| req_model := chat_model cfg;
     req_system := system_prompt cfg;
     req_user := user_prompt_of context question;
     req_temperature := float_temperature;
     req_max_tokens := 1024 |}.

Definition query (cfg : RAGConfig) (question : pystr) (top_k_arg : option Z)
    : M QueryResult :=
  let k := match top_k_arg with None => top_k cfg | Some k => k end in
  run _get_client cfg in
  let* collection := _get_collection cfg false in
  let* q_data := call_embeddings cfg [question] in
  match q_data with
  | [] => raise IndexError
  | q_embedding :: _ =>
      let* results := collection_query collection q_embedding k in
      let hits := zip3 results.1.1 results.1.2 results.2 in
      let sources := (fun h => source_info h.1.1 h.1.2 h.2) <$> hits in
      let* response := call_chat (chat_request cfg question hits) in
      ret {| answer := resp_content response;
             sources := sources;
             usage := {| prompt_tokens := resp_prompt_tokens response;
                         completion_tokens := resp_completion_tokens response;
                         total_tokens := resp_total_tokens response |} |}
  end.

End WithPlatform.

Arguments Ok {A} a.
Arguments Raise {A} e.
Arguments OutOfFuel {A}.

End Engine.
Export Engine.

(** ** A small concrete platform, for running the model

    Vectors are the embedded text itself, floats are counted in units of
    [1e-4], the file system has the files listed in [stub_files]; the
    embedding service returns one vector per input, the index ranks the
    stored ids in id order. *)

Module Stub.

Definition stub_files : list (pystr * pystr) :=
  [ (str "a.txt", replicate 120 97%N);
    (str "b.txt", replicate 60 98%N ++ replicate 30 32%N ++ replicate 60 99%N);
    (str "short.txt", replicate 20 100%N);
    (str "blank.txt", replicate 10 32%N) ].

Definition stub_manifests : list (pystr * pystr) :=
  [ (str "sources.txt", str "# documenti" ++ [10%N] ++ str "a.txt" ++ [10%N]);
    (str "only_blank.txt", str "blank.txt" ++ [10%N]);
    (str "empty.txt", str "# nessun percorso" ++ [10; 10]%N ++ str "   " ++ [10%N]) ].

Definition assoc (k : pystr) (l : list (pystr * pystr)) : option pystr :=
  snd <$> list_find (fun kv => kv.1 = k) l ≫= (fun r => Some r.2).

Definition stub_emb (t : pystr) : list N := [N.of_nat (length t)].

#[export] Instance stub_platform : Platform := {|
  vec := list N;
  float := Z;
  float_zero := 0;
  float_temperature := 1000;
  one_minus := fun d => 10000 - d;
  round4 := fun x => x;
  cost_of_tokens := fun n => n;
  env_api_key := str "key";
  path_resolve := fun p => p;
  path_exists := fun p => bool_decide (is_Some (assoc p (stub_files ++ stub_manifests)));
  path_is_file := fun p => bool_decide (is_Some (assoc p (stub_files ++ stub_manifests)));
  path_is_dir := fun _ => false;
  path_rglob_sorted := fun _ => [];
  path_name := fun p => p;
  path_suffix_lower := fun p => slice p (len p - 4) (len p);
  path_parent := fun _ => str ".";
  path_mtime_iso := fun _ => str "2024-01-01T00:00:00";
  path_read_text := fun p => default [] (assoc p stub_manifests);
  extract_text := fun p => default [] (assoc p stub_files);
  md5_hex12 := fun t => take 12 t;
  embeddings_create := fun _ batch => inr (stub_emb <$> batch);
  chat_complete := fun _ _ _ _ _ =>
    inr {| resp_content := str "ok"; resp_prompt_tokens := 0;
           resp_completion_tokens := 1; resp_total_tokens := 1 |};
  knn := fun ids _ _ k => (fun i => (i, 2500)) <$> take (Z.to_nat k) ids
|}.

Definition world0 : World :=
  {| client_ready := false; collections := ∅; embed_calls := []; chat_calls := [] |}.

(** A world whose collection holds the one chunk of [a.txt]. *)
Definition world_with_a : World :=
  (ingest 200 default_config (Some [str "a.txt"]) None false world0).2.


(** What a caller sees of a run: the statistics, the exception, the answer
    with the number of its sources, the number of stored records. *)
Definition seen_stats (r : outcome Stats) : option (Z * Z * list pystr) :=
  match r with
  | Ok s => Some (documents s, chunks s, errors s)
  | _ => None
  end.

Definition seen_exception {A} (r : outcome A) : option exn :=
  match r with
  | Raise e => Some e
  | _ => None
  end.


Definition stored_count (cfg : RAGConfig) (w : World) : option nat :=
  size <$> (collections w !! collection_name cfg).

End Stub.

(** ** The windows of the chunker as index pairs

    The pairs [(start, end)] that the loop of [chunk_text] goes through from
    a given [start]: each [end] is the cut of its window, the next [start]
    is [end - overlap], and the last pair is the first whose next [start]
    reaches the end of the text. *)

Module Spans.

Fixpoint spans_from (text : pystr) (size overlap start : Z)
    (spans : list (Z * Z)) : Prop :=
  match spans with
  | [] => len text <= start
  | (s, e) :: rest =>
      s = start /\ start < len text /\ e = cut_end text size start
      /\ spans_from text size overlap (e - overlap) rest
  end.

Definition windows_of (text : pystr) (spans : list (Z * Z)) : list pystr :=
  (fun p => slice text p.1 p.2) <$> spans.

(** A contiguous part of a string. *)
Definition substring (part text : pystr) : Prop :=
  exists before after, text = before ++ part ++ after.

End Spans.
Export Spans.

(** ** Maintenance: clearing and inspecting the index *)

(** What the inspection of a collection needs beyond [Platform]: the order
    in which [collection.get] and [collection.peek] enumerate the stored
    records (every record once), the size of the database directory, and
    the text of an exception. *)
Class StoreView `{P : Platform} := {
  scan : gmap (list N) (@Engine.VectorRecord P)
         -> list (pystr * @Engine.VectorRecord P);
  scan_perm : forall c, scan c ≡ₚ map_to_list c;
  dir_size_mb : pystr -> float;    (* [sum(f.stat().st_size ...) / 1024 / 1024] *)
  round1 : float -> float;         (* [round(x, 1)] *)
  exn_text : exn -> pystr          (* [str(e)] *)
}.

Module Maintenance.

(** The order of Python on [str]: code point by code point, a proper
    prefix first. *)
Fixpoint str_leb (a b : pystr) : bool :=
  match a, b with
  | [], _ => true
  | _ :: _, [] => false
  | x :: a', y :: b' =>
      if (x <? y)%N then true
      else if (x =? y)%N then str_leb a' b'
      else false
  end.

Definition str_le (a b : pystr) : Prop := Is_true (str_leb a b).

(** [sorted(s)] for a set of [str]. *)
Definition sorted (s : gset (list N)) : list pystr :=
  merge_sort str_le (elements s).

Section WithPlatform.
Context `{V : StoreView}.

Notation "'let*' x ':=' m 'in' k" := (bind m (fun x => k))
  (at level 10, x name, m at level 100, k at level 200, only parsing).

(** [clear]: the collection is deleted; an error of the store is
    swallowed. *)
Definition clear (cfg : RAGConfig) : M unit :=
  try_pass (delete_collection (collection_name cfg)).

(** [try: m  except Exception as e: return handler(e)] *)
Definition try_return {A} (m : M A) (handler : exn -> A) : M A :=
  fun w =>
    match m w with
    | (Raise e, w') => (Ok (handler e), w')
    | r => r
    end.

(** [for x in l: s = body s x] *)
Fixpoint fold_each {A S} (l : list A) (body : S -> A -> M S) (s : S) : M S :=
  match l with
  | [] => ret s
  | x :: rest => let* s' := body s x in fold_each rest body s'
  end.

(** [collection.get(limit=limit, offset=offset, include=["metadatas"])] *)
Definition collection_get (name : pystr) (limit offset : Z)
    : M (list ChunkMeta) :=
  with_collection name (fun c =>
    ret ((fun r => rec_metadata r.2)
           <$> slice (scan c) offset (offset + limit))).

(** [collection.peek(limit=limit)] *)
Definition collection_peek (name : pystr) (limit : Z) : M (list ChunkMeta) :=
  collection_get name limit 0.

(** [for meta in metadatas: filenames.add(meta.get("filename", "?"))];
    every stored record carries a file name. *)
Definition add_filenames (filenames : gset (list N)) (metas : list ChunkMeta)
    : gset (list N) :=
  foldl (fun s meta => s ∪ {[ meta_filename meta ]}) filenames metas.

Definition list_indexed_files (cfg : RAGConfig) : M (list pystr) :=
  try_return
    (let* collection := _get_collection cfg false in
     let* count := collection_count collection in
     if count =? 0 then ret []
     else
       let batch_size := 1000 in
       let* offsets := py_range count batch_size in
       let* filenames := fold_each offsets (fun filenames offset =>
         let* result := collection_get collection batch_size offset in
         ret (add_filenames filenames result)) ∅ in
       ret (sorted filenames))
    (fun _ => []).

Record IndexStats := {
  total_chunks : Z;
  db_size_mb : float;
  sample_files : list pystr;
  stats_collection_name : pystr
}.

(** [get_stats]: the statistics, or the text of the exception. *)
Definition get_stats (cfg : RAGConfig) : M (pystr + IndexStats) :=
  try_return
    (let* collection := _get_collection cfg false in
     let* count := collection_count collection in
     let db_size :=
       if path_exists (chroma_path cfg) then dir_size_mb (chroma_path cfg)
       else float_zero in
     let* sample := collection_peek collection (Z.min count 100) in
     let filenames := add_filenames ∅ sample in
     ret (inr {| total_chunks := count;
                 db_size_mb := round1 db_size;
                 sample_files := sorted filenames;
                 stats_collection_name := collection_name cfg |}))
    (fun e => inl (exn_text e)).

(** The file names of the records of a collection. *)
Definition stored_filenames (c : gmap (list N) VectorRecord) : gset (list N) :=
  list_to_set ((fun r => meta_filename (rec_metadata r.2)) <$> map_to_list c).

(** The ids of a collection are [chunk_000000] up to its size. *)
Definition dense (c : gmap (list N) VectorRecord) : Prop :=
  dom c = list_to_set (issued_ids 0 (size c)).

End WithPlatform.
End Maintenance.
Export Maintenance.

(** ** Configuration manager ([config_manager.py]) and the helpers of the
    web UI ([web_ui.py])

    The environment variables beyond the API key. *)
Class Environ := {
  env_chat_model : option pystr;    (* [os.environ.get("CHAT_MODEL")] *)
  env_chroma_path : option pystr    (* [os.environ.get("CHROMA_PATH")] *)
}.

Module ConfigManager.

(** A JSON object with string values, as stored under ["folders"]. *)
Abbreviation dict := (gmap (list N) (list N)).

Record FolderConfig := {
  path : pystr;
  label : pystr
}.

(** The [_config] dict after [_load]: the three keys of [_default_config]
    are always there. *)
Record Config := {
  saved_api_key : pystr;
  saved_chat_model : pystr;
  folders : list dict
}.

Inductive disk_state :=
| NoFile
| Unreadable
| Stored (c : Config).

Inductive cm_exn :=
| KeyError (key : pystr)
| SaveError (detail : pystr).

(** A [ConfigManager]: the dict in memory, the file [config.json], and
    whether writing to the configuration directory fails. *)
Record Manager := {
  _config : Config;
  on_disk : disk_state;
  write_fault : option pystr
}.

Definition set_config (c : Config) (m : Manager) : Manager :=
  {| _config := c; on_disk := on_disk m; write_fault := write_fault m |}.

Definition set_folders (fs : list dict) (c : Config) : Config :=
  {| saved_api_key := saved_api_key c; saved_chat_model := saved_chat_model c;
     folders := fs |}.

Definition CM (A : Type) : Type := Manager -> (cm_exn + A) * Manager.

Definition cm_ret {A} (a : A) : CM A := fun m => (inr a, m).

Definition cm_bind {A B} (x : CM A) (k : A -> CM B) : CM B :=
  fun m =>
    match x m with
    | (inr a, m') => k a m'
    | (inl e, m') => (inl e, m')
    end.

Definition cm_raise {A} (e : cm_exn) : CM A := fun m => (inl e, m).

(** A pure computation that may raise, run in the manager. *)
Definition cm_lift {A} (r : cm_exn + A) : CM A := fun m => (r, m).

Section WithPlatform.
Context `{P : Platform} `{E : Environ}.

Definition _default_config : Config :=
  {| saved_api_key := [];
     saved_chat_model := str "mistral-small-latest";
     folders := [] |}.

(** [_load]: the defaults when the file is missing or cannot be read. *)
Definition _load (m : Manager) : Config :=
  match on_disk m with
  | Stored c => c
  | NoFile | Unreadable => _default_config
  end.

(** [_save]: the file is replaced as a whole, or the error is raised
    again. *)
Definition _save : CM unit :=
  fun m =>
    match write_fault m with
    | Some detail => (inl (SaveError detail), m)
    | None =>
        (inr tt, {| _config := _config m; on_disk := Stored (_config m);
                    write_fault := None |})
    end.

Definition reload : CM unit := fun m => (inr tt, set_config (_load m) m).

Definition get_api_key (m : Manager) : pystr :=
  match saved_api_key (_config m) with
  | [] => env_api_key
  | saved => saved
  end.

Definition set_api_key (key : pystr) : CM unit :=
  cm_bind
    (fun m => (inr tt,
               set_config {| saved_api_key := strip key;
                             saved_chat_model := saved_chat_model (_config m);
                             folders := folders (_config m) |} m))
    (fun _ => _save).

Definition has_api_key (m : Manager) : bool :=
  negb (bool_decide (get_api_key m = [])).

Definition get_chat_model (m : Manager) : pystr :=
  match saved_chat_model (_config m) with
  | [] => default (str "mistral-small-latest") env_chat_model
  | saved => saved
  end.

Definition set_chat_model (model : pystr) : CM unit :=
  cm_bind
    (fun m => (inr tt,
               set_config {| saved_api_key := saved_api_key (_config m);
                             saved_chat_model := model;
                             folders := folders (_config m) |} m))
    (fun _ => _save).

(** [FolderConfig.to_dict] *)
Definition to_dict (fc : FolderConfig) : dict :=
  <[str "label" := match label fc with
                   | [] => path_name (path fc)
                   | l => l
                   end]> (<[str "path" := path fc]> ∅).

(** [FolderConfig.from_dict] *)
Definition from_dict (d : dict) : cm_exn + FolderConfig :=
  match d !! str "path" with
  | None => inl (KeyError (str "path"))
  | Some p => inr {| path := p; label := default [] (d !! str "label") |}
  end.

(** [[g(f) for f in l]], stopping at the first exception. *)
Fixpoint map_raising {A B} (g : A -> cm_exn + B) (l : list A)
    : cm_exn + list B :=
  match l with
  | [] => inr []
  | x :: rest =>
      match g x with
      | inl e => inl e
      | inr y =>
          match map_raising g rest with
          | inl e => inl e
          | inr ys => inr (y :: ys)
          end
      end
  end.

Definition get_folders : CM (list FolderConfig) :=
  fun m => (map_raising from_dict (folders (_config m)), m).

Definition get_all_folder_paths : CM (list pystr) :=
  cm_bind get_folders (fun fs => cm_ret (path <$> fs)).

(** [for f in folders: if f["path"] == path: return ...] *)
Fixpoint already_configured (fs : list dict) (p : pystr) : cm_exn + bool :=
  match fs with
  | [] => inr false
  | f :: rest =>
      match f !! str "path" with
      | None => inl (KeyError (str "path"))
      | Some q => if bool_decide (q = p) then inr true
                  else already_configured rest p
      end
  end.

Definition add_folder (path_arg label_arg : pystr) : CM pystr :=
  let p := strip path_arg in
  match p with
  | [] => cm_ret (str "Percorso vuoto")
  | _ =>
      if negb (path_exists p) then cm_ret (str "Percorso non trovato: " ++ p)
      else if negb (path_is_dir p) then cm_ret (str "Non e' una cartella: " ++ p)
      else
        cm_bind (fun m => (already_configured (folders (_config m)) p, m))
          (fun dup =>
             if (dup : bool) then cm_ret (str "Cartella gia' configurata: " ++ p)
             else
               let folder := {| path := p;
                                label := match label_arg with
                                         | [] => path_name p
                                         | l => l
                                         end |} in
               cm_bind
                 (fun m => (inr tt,
                            set_config
                              (set_folders
                                 (folders (_config m) ++ [to_dict folder])
                                 (_config m)) m))
                 (fun _ =>
                    cm_bind _save
                      (fun _ => cm_ret (str "Cartella aggiunta: " ++ p))))
  end.

(** [[f for f in folders if f["path"] != path]] *)
Fixpoint without_path (fs : list dict) (p : pystr) : cm_exn + list dict :=
  match fs with
  | [] => inr []
  | f :: rest =>
      match f !! str "path" with
      | None => inl (KeyError (str "path"))
      | Some q =>
          match without_path rest p with
          | inl e => inl e
          | inr kept => inr (if bool_decide (q = p) then kept else f :: kept)
          end
      end
  end.

Definition remove_folder (path_arg : pystr) : CM pystr :=
  cm_bind (fun m => (without_path (folders (_config m)) path_arg, m))
    (fun kept =>
       cm_bind
         (fun m => (inr tt, set_config (set_folders kept (_config m)) m))
         (fun _ =>
            cm_bind _save
              (fun _ => cm_ret (str "Cartella rimossa: " ++ path_arg)))).

(** [count_files_in_path] *)
Definition count_files_in_path (p : pystr) : Z :=
  if negb (path_exists p) then 0
  else
    len (filter (fun f =>
                   path_is_file f = true
                   /\ path_suffix_lower f ∈ SUPPORTED_EXTENSIONS
                   /\ startswith (path_name f) (str ".") = false)
           (path_rglob_sorted p)).

(** *** Web UI *)

(** The configuration that [_build_engine] passes to [RAGEngine]. *)
Definition _build_engine (m : Manager) : RAGConfig :=
  {| api_key := get_api_key m;
     embed_model := embed_model default_config;
     chat_model := get_chat_model m;
     chroma_path := default (str "./chroma_db") env_chroma_path;
     collection_name := collection_name default_config;
     chunk_size := chunk_size default_config;
     chunk_overlap := chunk_overlap default_config;
     top_k := top_k default_config;
     system_prompt := system_prompt default_config |}.

(** The bullet of the masked key, U+2022. *)
Definition bullet : N := 8226%N.

(** [masked] in [get_api_key_status]:
    [key[:4] + "•" * (len(key) - 8) + key[-4:] if len(key) > 8
     else "•" * len(key)] *)
Definition masked (key : pystr) : pystr :=
  if 8 <? len key
  then slice key 0 4 ++ replicate (Z.to_nat (len key - 8)) bullet
         ++ slice key (-4) (len key)
  else replicate (Z.to_nat (len key)) bullet.

(** The paths that [ingest_from_paths] reads from the text box:
    [[p.strip() for p in paths_text.strip().splitlines()
      if p.strip() and not p.startswith("#")]] *)
Definition ui_paths (paths_text : pystr) : list pystr :=
  strip <$> filter (fun p => strip p <> [] /\ startswith p (str "#") = false)
              (splitlines (strip paths_text)).

End WithPlatform.
End ConfigManager.
Export ConfigManager.

(** ** The configured folders of a manager *)

Module ConfigInvariants.

(** The ["path"] values of the configured folders, in order. *)
Definition configured_paths (m : Manager) : list pystr :=
  omap (fun d : dict => d !! str "path") (folders (_config m)).

(** Every configured folder has a ["path"]. *)
Definition well_formed (m : Manager) : Prop :=
  Forall (fun d : dict => is_Some (d !! str "path")) (folders (_config m)).

(** The number of characters of a masked key that are not bullets. *)
Definition revealed (s : pystr) : nat :=
  length (filter (fun c => c <> bullet) s).

End ConfigInvariants.
Export ConfigInvariants.

(** ** Variants of the concrete platform *)

Module StubVariants.
Import Stub.

(** The concrete platform with another key in the environment and another
    embedding service. *)
Definition stub_with (key : pystr)
    (embeddings : pystr -> list pystr -> pystr + list (list N)) : Platform :=
  {| vec := list N;
     float := Z;
     float_zero := @float_zero stub_platform;
     float_temperature := @float_temperature stub_platform;
     one_minus := @one_minus stub_platform;
     round4 := @round4 stub_platform;
     cost_of_tokens := @cost_of_tokens stub_platform;
     env_api_key := key;
     path_resolve := @path_resolve stub_platform;
     path_exists := @path_exists stub_platform;
     path_is_file := @path_is_file stub_platform;
     path_is_dir := @path_is_dir stub_platform;
     path_rglob_sorted := @path_rglob_sorted stub_platform;
     path_name := @path_name stub_platform;
     path_suffix_lower := @path_suffix_lower stub_platform;
     path_parent := @path_parent stub_platform;
     path_mtime_iso := @path_mtime_iso stub_platform;
     path_read_text := @path_read_text stub_platform;
     extract_text := @extract_text stub_platform;
     md5_hex12 := @md5_hex12 stub_platform;
     embeddings_create := embeddings;
     chat_complete := @chat_complete stub_platform;
     knn := @knn stub_platform |}.

(** No key in the environment. *)
Definition keyless_platform : Platform :=
  stub_with [] (@embeddings_create stub_platform).

(** The embedding service answers every call with an error. *)
Definition embedding_down_platform : Platform :=
  stub_with (str "key") (fun _ _ => inl (str "503")).

Definition keyless_world : @World keyless_platform :=
  {| client_ready := false; collections := ∅;
     embed_calls := []; chat_calls := [] |}.

Definition embedding_down_world : @World embedding_down_platform :=
  {| client_ready := false; collections := ∅;
     embed_calls := []; chat_calls := [] |}.

(** The store of the concrete platform enumerates its records in the order
    of the map. *)
#[export] Instance stub_view : @StoreView stub_platform := {|
  scan := map_to_list;
  scan_perm := fun c => reflexivity (map_to_list c);
  dir_size_mb := fun _ => 0;
  round1 := fun x => x;
  exn_text := fun e =>
    match e with
    | ValueError msg => msg
    | FileNotFoundError msg => msg
    | IndexError => str "list index out of range"
    | CollectionNotFound name => str "Collection " ++ name ++ str " does not exist."
    | StoreRejected msg => msg
    | EmbeddingCallFailed detail => detail
    | GenerationCallFailed detail => detail
    end
|}.

(** A platform with a directory tree: [/data/docs] holds a hidden file, a
    text file, a blank file and a temporary file of an office suite. *)
Definition tree_dirs : list pystr := [str "/data"; str "/data/docs"].

Definition tree_files : list (pystr * pystr) :=
  [ (str "/data/docs/.hidden.txt", replicate 100 104%N);
    (str "/data/docs/a.txt", replicate 120 97%N);
    (str "/data/docs/empty.txt", replicate 10 32%N);
    (str "/data/docs/~tmp.txt", replicate 100 98%N) ].

Definition base_name (p : pystr) : pystr :=
  slice p (rfind p (str "/") 0 (len p) + 1) (len p).

Definition tree_platform : Platform :=
  {| vec := list N;
     float := Z;
     float_zero := @float_zero stub_platform;
     float_temperature := @float_temperature stub_platform;
     one_minus := @one_minus stub_platform;
     round4 := @round4 stub_platform;
     cost_of_tokens := @cost_of_tokens stub_platform;
     env_api_key := [];
     path_resolve := fun p => p;
     path_exists := fun p => bool_decide (p ∈ tree_dirs ++ tree_files.*1);
     path_is_file := fun p => bool_decide (p ∈ tree_files.*1);
     path_is_dir := fun p => bool_decide (p ∈ tree_dirs);
     path_rglob_sorted := fun p =>
       if bool_decide (p = str "/data/docs") then tree_files.*1
       else if bool_decide (p = str "/data")
            then str "/data/docs" :: tree_files.*1
            else [];
     path_name := base_name;
     path_suffix_lower := @path_suffix_lower stub_platform;
     path_parent := fun _ => str "/data/docs";
     path_mtime_iso := @path_mtime_iso stub_platform;
     path_read_text := fun _ => [];
     extract_text := fun p => default [] (assoc p tree_files);
     md5_hex12 := @md5_hex12 stub_platform;
     embeddings_create := @embeddings_create stub_platform;
     chat_complete := @chat_complete stub_platform;
     knn := @knn stub_platform |}.

#[export] Instance stub_environ : Environ :=
  {| env_chat_model := None; env_chroma_path := None |}.

(** A manager that has just started without a file, and one whose
    configuration directory cannot be written. *)
Definition manager0 : Manager :=
  {| _config := _default_config; on_disk := NoFile; write_fault := None |}.

Definition read_only_manager : Manager :=
  {| _config := _default_config;
     on_disk := Stored {| saved_api_key := str "old-key";
                          saved_chat_model := str "mistral-small-latest";
                          folders := [] |};
     write_fault := Some (str "Read-only file system") |}.

(** A manager with two configured folders, saved on disk. *)
Definition two_folders : Config :=
  {| saved_api_key := [];
     saved_chat_model := str "mistral-small-latest";
     folders :=
       [ to_dict (P:=tree_platform)
           {| path := str "/data/docs"; label := str "Documenti" |};
         to_dict (P:=tree_platform) {| path := str "/data"; label := [] |} ] |}.

Definition manager_two_folders : Manager :=
  {| _config := two_folders; on_disk := Stored two_folders;
     write_fault := None |}.

End StubVariants.

(** ** Inputs used in the examples *)

Module Inputs.

(** 100 letters, then 30 letters between two runs of 35 spaces, then 100
    letters: with [size = 100] and no overlap the middle window strips to
    30 characters. *)
Definition text_with_short_middle : pystr :=
  replicate 100 97%N
    ++ (replicate 35 32%N ++ replicate 30 120%N ++ replicate 35 32%N)
    ++ replicate 100 98%N.

(** 50 letters, a line break, 149 letters: the only separator sits right
    at the middle of the first window of size 100. *)
Definition text_with_early_break : pystr :=
  replicate 50 97%N ++ [10%N] ++ replicate 149 97%N.

(** A 2,100-character document. *)
Definition text_2100 : pystr := replicate 2100 97%N.





End Inputs.

(** The coverage property in the words of the specification: the chunks,
    overlapping spans removed, give back the text up to a short tail. *)
Definition covers_up_to_tail (overlap : Z) (chunks : list pystr) (text : pystr)
    : Prop :=
  exists tail,
    concat (strip_overlaps overlap chunks) ++ tail = text
    /\ len (strip tail) <= 50.

(** ** The model on small inputs *)

Section Examples.
Import Inputs.

Example rfind_last_occurrence :
  rfind (str "a. b. c") (str ". ") 0 7 = 4
  /\ rfind (str "a. b. c") (str ". ") 0 5 = 1
  /\ rfind (str "a. b. c") (str "; ") 0 7 = -1
  /\ rfind (str "a. b. c") (str ". ") (-3) 7 = 4.
Proof. repeat split; reflexivity. Qed.

Example slice_like_python :
  slice (str "abcdef") 1 4 = str "bcd"
  /\ slice (str "abcdef") 4 100 = str "ef"
  /\ slice (str "abcdef") (-2) 6 = str "ef"
  /\ slice (str "abcdef") (-2) 3 = [].
Proof. repeat split; reflexivity. Qed.

Example strip_both_ends :
  strip ([32; 9]%N ++ str "a b" ++ [10; 13; 160]%N) = str "a b".
Proof. reflexivity. Qed.

Example splitlines_manifest :
  splitlines (str "# c" ++ [13; 10]%N ++ str "a.txt" ++ [10; 10]%N ++ str "b" ++ [10]%N)
  = [str "# c"; str "a.txt"; []; str "b"].
Proof. reflexivity. Qed.

Example chunk_ids :
  chunk_id 0 = str "chunk_000000"
  /\ chunk_id 41 = str "chunk_000041"
  /\ chunk_id 1234567 = str "chunk_1234567".
Proof. repeat split; reflexivity. Qed.

(** A 2,100-character document with the default sizes gives the windows
    [0:1000], [800:1800] and [1600:2100]; a 50-character document gives no
    chunk. *)
Example chunk_text_2100 :
  option_map (map (length (A:=N))) (chunk_text 10 default_config text_2100)
  = Some [1000; 1000; 500]%nat.
Proof. vm_compute. reflexivity. Qed.

Example chunk_text_50 :
  chunk_text 10 default_config (replicate 50 97%N) = Some [].
Proof. vm_compute. reflexivity. Qed.

(** A cut after the last sentence end in the second half of the window. *)
Example chunk_text_sentence_cut :
  chunk_text 10 (config_with 100 10)
    (replicate 78 97%N ++ str ". " ++ replicate 100 98%N)
  = Some [replicate 78 97%N ++ str ".";
          str "aaaaaaaa. " ++ replicate 90 98%N].
Proof. vm_compute. reflexivity. Qed.

End Examples.

(** ** Facts about the string primitives *)

Section PyStrFacts.
Implicit Types (s t text sub : list N) (c x : N).

Lemma len_nonneg {A} (l : list A) : 0 <= len l.
Proof. unfold len. lia. Qed.

Lemma len_app {A} (l k : list A) : len (l ++ k) = len l + len k.
Proof. unfold len. rewrite length_app. lia. Qed.


Lemma lstrip_idem s : lstrip (lstrip s) = lstrip s.
Proof.
  induction s as [|c r IH]; simpl; [done|].
  destruct (isspace c) eqn:E; [done|]. simpl. by rewrite E.
Qed.

Lemma lstrip_snoc s x :
  lstrip (s ++ [x]) =
    match lstrip s with
    | [] => if isspace x then [] else [x]
    | _ => lstrip s ++ [x]
    end.
Proof.
  induction s as [|c r IH]; simpl; [done|].
  destruct (isspace c); [done|]. done.
Qed.

Lemma rstrip_cons s x :
  rstrip (x :: s) =
    match rstrip s with
    | [] => if isspace x then [] else [x]
    | _ => x :: rstrip s
    end.
Proof.
  unfold rstrip. rewrite reverse_cons, lstrip_snoc.
  destruct (lstrip (reverse s)) as [|y l] eqn:E.
  - rewrite reverse_nil. by destruct (isspace x).
  - rewrite reverse_app, reverse_singleton. simpl.
    destruct (reverse (y :: l)) eqn:E'; [|done].
    apply (f_equal length) in E'. rewrite length_reverse in E'. done.
Qed.

Lemma rstrip_idem s : rstrip (rstrip s) = rstrip s.
Proof.
  unfold rstrip. by rewrite reverse_involutive, lstrip_idem.
Qed.

Lemma lstrip_rstrip s : lstrip (rstrip s) = rstrip (lstrip s).
Proof.
  induction s as [|x r IH]; [done|].
  rewrite rstrip_cons. simpl lstrip at 2.
  destruct (isspace x) eqn:E.
  - destruct (rstrip r) eqn:Er.
    + rewrite <- IH. done.
    + simpl. rewrite E. done.
  - rewrite rstrip_cons.
    destruct (rstrip r); simpl; by rewrite E.
Qed.

Lemma strip_idem s : strip (strip s) = strip s.
Proof.
  unfold strip.
  by rewrite lstrip_rstrip, lstrip_idem, rstrip_idem.
Qed.






Lemma rfind_down_range text sub lo k :
  rfind_down text sub lo k = -1
  \/ Z.of_nat lo <= rfind_down text sub lo k < Z.of_nat lo + Z.of_nat k.
Proof.
  induction k as [|k IH]; simpl; [by left|].
  destruct (match_at text sub (lo + k)); [right; lia|].
  destruct IH as [->|IH]; [by left|right; lia].
Qed.

Lemma rfind_range text sub (a b : Z) :
  0 <= a -> 0 <= b <= len text ->
  rfind text sub a b = -1
  \/ (a <= rfind text sub a b /\ rfind text sub a b + len sub <= b).
Proof.
  intros Ha Hb. unfold rfind, adjust_start, adjust_end.
  destruct (Z.ltb_spec a 0); [lia|].
  destruct (Z.ltb_spec (len text) b); [lia|].
  destruct (Z.ltb_spec b 0); [lia|].
  destruct (rfind_down_range text sub (Z.to_nat a)
              (Z.to_nat (b - len sub - a + 1))) as [->|H']; [by left|].
  right. lia.
Qed.

End PyStrFacts.

(** ** Facts about the chunker *)

Section ChunkerFacts.
Implicit Types (text : list N) (size overlap start : Z).

Lemma find_cut_range text seps lo hi :
  0 <= lo -> 0 <= hi <= len text ->
  Forall (fun sep => 1 <= len sep) seps ->
  find_cut text seps lo hi = hi
  \/ lo + 1 <= find_cut text seps lo hi <= hi.
Proof.
  intros Hlo Hhi Hseps.
  induction Hseps as [|sep seps Hsep _ IH]; simpl; [by left|].
  destruct (Z.eqb_spec (rfind text sep lo hi) (-1)) as [|Hne]; [exact IH|].
  destruct (rfind_range text sep lo hi Hlo Hhi) as [|[? ?]]; [done|].
  right. lia.
Qed.

Lemma separators_nonempty : Forall (fun sep => 1 <= len sep) separators.
Proof. unfold separators, len. repeat constructor; simpl; lia. Qed.

Lemma half_bounds size : 1 <= size -> 0 <= size / 2 /\ size / 2 + 1 <= size.
Proof.
  intros H. pose proof (Z.div_mod size 2 ltac:(lia)).
  pose proof (Z.mod_pos_bound size 2 ltac:(lia)). lia.
Qed.

Lemma cut_end_range text size start :
  0 <= start -> 1 <= size ->
  start + size / 2 + 1 <= cut_end text size start <= start + size.
Proof.
  intros Hs Hsz. pose proof (half_bounds size Hsz) as [? ?].
  unfold cut_end.
  destruct (Z.ltb_spec (start + size) (len text)); [|lia].
  destruct (find_cut_range text separators (start + size / 2) (start + size))
    as [->|?]; [lia|lia|apply separators_nonempty|lia|lia].
Qed.

Lemma emit_snoc ws w : emit (ws ++ [w]) = append_if_kept (emit ws) (strip w).
Proof.
  unfold emit, append_if_kept.
  rewrite fmap_app, filter_app.
  change (strip <$> [w]) with [strip w].
  rewrite filter_cons, filter_nil.
  destruct (keep (strip w)) eqn:E.
  - by rewrite decide_True.
  - rewrite decide_False by (intros []). by rewrite app_nil_r.
Qed.

(** The chunker is the window loop followed by [emit]. *)
Lemma chunk_loop_emit fuel text size overlap start ws :
  chunk_loop fuel text size overlap start (emit ws)
  = emit <$> window_loop fuel text size overlap start ws.
Proof.
  revert start ws. induction fuel as [|fuel IH]; intros start ws; simpl.
  - by destruct (start <? len text).
  - destruct (start <? len text); [|done].
    rewrite <- emit_snoc.
    destruct (len text <=? cut_end text size start - overlap); [done|].
    apply IH.
Qed.

Lemma slice_to_end text start e :
  0 <= start -> len text <= e -> slice text start e = drop (Z.to_nat start) text.
Proof.
  intros Hs He. unfold slice, clamp_index.
  destruct (Z.ltb_spec start 0); [lia|].
  destruct (Z.ltb_spec e 0); [pose proof (len_nonneg text); lia|].
  destruct (Z.le_gt_cases start (len text)).
  - rewrite (Z.min_l start), (Z.min_r e) by lia.
    apply take_ge. rewrite length_drop. unfold len in *. lia.
  - rewrite (Z.min_r start), (Z.min_r e) by lia.
    rewrite Z.sub_diag. simpl. rewrite take_0.
    symmetry. apply drop_ge. unfold len in *. lia.
Qed.

(** The part of a window after a cursor [prev] inside it, followed by the
    rest of the text, is the text from [prev] on. *)
Lemma slice_after_cursor text start prev e :
  0 <= start -> start <= prev <= e -> start <= len text ->
  drop (Z.to_nat (prev - start)) (slice text start e) ++ drop (Z.to_nat e) text
  = drop (Z.to_nat prev) text.
Proof.
  intros Hs Hp Hl. unfold slice, clamp_index.
  destruct (Z.ltb_spec start 0); [lia|].
  destruct (Z.ltb_spec e 0); [lia|].
  rewrite (Z.min_l start) by lia.
  destruct (Z.le_gt_cases e (len text)).
  - rewrite (Z.min_l e) by lia.
    replace (drop (Z.to_nat e) text)
      with (drop (Z.to_nat (e - start)) (drop (Z.to_nat start) text)).
    2:{ rewrite drop_drop. f_equal. lia. }
    rewrite drop_take_drop by lia.
    rewrite drop_drop. f_equal. lia.
  - rewrite (Z.min_r e) by lia.
    rewrite (drop_ge text (Z.to_nat e)) by (unfold len in *; lia).
    rewrite app_nil_r.
    rewrite take_ge by (rewrite length_drop; unfold len in *; lia).
    rewrite drop_drop. f_equal. lia.
Qed.

(** Termination and coverage of the window loop. From a state with
    [0 <= start] and a cursor [prev] (the end of the previous window, or
    [start] itself at the beginning), the loop returns after at most
    [len text - start] iterations, and its windows, the first one taken from
    the cursor on and the others without their leading overlap, make up the
    text from the cursor on. *)
Lemma window_loop_cover text size overlap :
  progressing size overlap ->
  forall fuel start prev ws,
    0 <= start -> start <= prev <= start + overlap ->
    (Z.to_nat (len text - start) <= fuel)%nat ->
    exists wins,
      window_loop fuel text size overlap start ws = Some (ws ++ wins)
      /\ (len text <= start -> wins = [])
      /\ (start < len text ->
            exists w rest, wins = w :: rest
              /\ drop (Z.to_nat (prev - start)) w
                   ++ concat (drop (Z.to_nat overlap) <$> rest)
                 = drop (Z.to_nat prev) text).
Proof.
  intros (Ho & Hhalf & Hsz).
  induction fuel as [|fuel IH]; intros start prev ws Hs Hp Hfuel.
  - exists []. simpl.
    destruct (Z.ltb_spec start (len text)); [lia|].
    rewrite app_nil_r. split; [done|]. split; [done|lia].
  - simpl. destruct (Z.ltb_spec start (len text)) as [Hlt|Hge].
    2:{ exists []. rewrite app_nil_r. split; [done|]. split; [done|lia]. }
    pose proof (cut_end_range text size start Hs Hsz) as He.
    set (e := cut_end text size start) in *.
    destruct (Z.leb_spec (len text) (e - overlap)) as [Hstop|Hgo].
    + exists [slice text start e]. split; [done|]. split; [lia|].
      intros _. exists (slice text start e), []. split; [done|].
      simpl. rewrite app_nil_r.
      rewrite slice_to_end by lia. rewrite drop_drop. f_equal. lia.
    + destruct (IH (e - overlap) e (ws ++ [slice text start e]))
        as (wins & Hrun & _ & Hcov); [lia|lia|lia|].
      destruct (Hcov Hgo) as (w & rest & -> & Hrest).
      exists (slice text start e :: w :: rest).
      split; [by rewrite Hrun, <- app_assoc|]. split; [lia|].
      intros _. exists (slice text start e), (w :: rest). split; [done|].
      replace (Z.to_nat (e - (e - overlap))) with (Z.to_nat overlap)
        in Hrest by lia.
      rewrite fmap_cons. cbn [concat]. rewrite Hrest.
      apply slice_after_cursor; lia.
Qed.

End ChunkerFacts.

(** ** The chunker: coverage, termination, length floor *)

Section ChunkerClaims.
Import Inputs.

Lemma chunk_loop_step fuel text size overlap start chunks :
  chunk_loop (S fuel) text size overlap start chunks =
    if start <? len text then
      if len text <=? cut_end text size start - overlap
      then Some (append_if_kept chunks
                   (strip (slice text start (cut_end text size start))))
      else chunk_loop fuel text size overlap (cut_end text size start - overlap)
             (append_if_kept chunks
                (strip (slice text start (cut_end text size start))))
    else Some chunks.
Proof. reflexivity. Qed.

Lemma chunk_text_windows fuel cfg text :
  chunk_text fuel cfg text = emit <$> chunk_windows fuel cfg text.
Proof. apply (chunk_loop_emit fuel text _ _ 0 []). Qed.

(** On a progressing configuration the loop ends within [len(text)]
    iterations. *)
Lemma chunk_windows_total fuel cfg text :
  progressing (chunk_size cfg) (chunk_overlap cfg) ->
  (length text <= fuel)%nat ->
  exists windows,
    chunk_windows fuel cfg text = Some windows
    /\ concat (strip_overlaps (chunk_overlap cfg) windows) = text.
Proof.
  intros Hp Hfuel.
  destruct (window_loop_cover text _ _ Hp fuel 0 0 [])
    as (wins & Hrun & Hnil & Hcov).
  - lia.
  - destruct Hp as (? & ? & ?). lia.
  - unfold len. lia.
  - exists wins. split; [exact Hrun|].
    destruct (Z.ltb_spec 0 (len text)) as [Hpos|Hz].
    + destruct (Hcov Hpos) as (w & rest & -> & Hrest).
      simpl in *. exact Hrest.
    + rewrite (Hnil Hz). simpl.
      destruct text; [done|]. unfold len in Hz. simpl in Hz. lia.
Qed.

(** C1, as stated, fails: with [size = 100] and [overlap = 0] the chunker
    returns the two outer windows of [text_with_short_middle]; the middle
    window, which strips to 30 characters, is dropped although it is not at
    the end of the text, so the chunks do not give the text back up to a
    tail. *)
Lemma chunk_coverage_counterexample :
  0 <= 0 < 100
  /\ exists chunks,
       chunk_text 10 (config_with 100 0) text_with_short_middle = Some chunks
       /\ chunks = [replicate 100 97%N; replicate 100 98%N]
       /\ ~ covers_up_to_tail 0 chunks text_with_short_middle.
Proof.
  split; [lia|]. eexists. split; [vm_compute; reflexivity|].
  split; [reflexivity|].
  intros (tail & H & _).
  apply (f_equal (fun l => l !! 100%nat)) in H.
  vm_compute in H. discriminate.
Qed.

(** C1, amended: when [0 <= overlap < size] and [overlap <= size // 2], the
    windows [text[start:end]] that [chunk_text] cuts, each one after the
    first without its leading [overlap] characters, concatenate to exactly
    the original text; the chunks returned are these windows stripped of
    surrounding whitespace, keeping those longer than 50 characters. *)
Theorem chunk_coverage fuel cfg text :
  0 <= chunk_overlap cfg < chunk_size cfg ->
  chunk_overlap cfg <= chunk_size cfg / 2 ->
  (length text <= fuel)%nat ->
  exists windows,
    chunk_windows fuel cfg text = Some windows
    /\ concat (strip_overlaps (chunk_overlap cfg) windows) = text
    /\ chunk_text fuel cfg text = Some (emit windows).
Proof.
  intros Hov Hhalf Hfuel.
  destruct (chunk_windows_total fuel cfg text) as (windows & Hw & Hcat);
    [unfold progressing; lia|done|].
  exists windows. split; [done|]. split; [done|].
  by rewrite chunk_text_windows, Hw.
Qed.

Lemma chunk_coverage_witness :
  exists windows,
    chunk_windows 2100 default_config text_2100 = Some windows
    /\ concat (strip_overlaps 200 windows) = text_2100
    /\ chunk_text 2100 default_config text_2100 = Some (emit windows).
Proof.
  apply (chunk_coverage 2100 default_config text_2100).
  - simpl. lia.
  - vm_compute. discriminate.
  - vm_compute. lia.
Defined.

(** C2 fails on the code: with [size = 100] and [overlap = 80] (so
    [0 <= overlap < size]) the first window of [text_with_early_break] is
    cut after the line break at index 50, [start] becomes [51 - 80 = -29],
    and from there every iteration cuts at 51 again: the loop never ends,
    whatever the fuel. *)
Theorem chunk_text_diverges :
  0 <= 80 < 100
  /\ forall fuel,
       chunk_text fuel (config_with 100 80) text_with_early_break = None.
Proof.
  split; [lia|].
  assert (Hstuck : forall fuel chunks,
    chunk_loop fuel text_with_early_break 100 80 (-29) chunks = None).
  { induction fuel as [|fuel IH]; intros chunks; [done|].
    rewrite chunk_loop_step.
    replace (cut_end text_with_early_break 100 (-29)) with 51
      by (vm_compute; reflexivity).
    replace (slice text_with_early_break (-29) 51) with (@nil N)
      by (vm_compute; reflexivity).
    change (-29 <? len text_with_early_break) with true.
    change (len text_with_early_break <=? 51 - 80) with false.
    cbv iota. apply IH. }
  intros [|fuel]; [done|].
  unfold chunk_text. change (chunk_size (config_with 100 80)) with 100.
  change (chunk_overlap (config_with 100 80)) with 80.
  rewrite chunk_loop_step.
  replace (cut_end text_with_early_break 100 0) with 51
    by (vm_compute; reflexivity).
  change (0 <? len text_with_early_break) with true.
  change (len text_with_early_break <=? 51 - 80) with false.
  cbv iota. apply Hstuck.
Qed.



Lemma window_loop_slices fuel text size overlap start ws result :
  Forall (fun w => exists a b, w = slice text a b) ws ->
  window_loop fuel text size overlap start ws = Some result ->
  Forall (fun w => exists a b, w = slice text a b) result.
Proof.
  revert start ws. induction fuel as [|fuel IH]; intros start ws Hall; simpl.
  - destruct (start <? len text); [done|]. by intros [= <-].
  - assert (Forall (fun w => exists a b, w = slice text a b)
              (ws ++ [slice text start (cut_end text size start)])).
    { apply Forall_app. split; [done|]. constructor; [eauto|done]. }
    destruct (start <? len text); [|by intros [= <-]].
    destruct (len text <=? _); [by intros [= <-]|].
    by apply IH.
Qed.





End ChunkerClaims.

(** ** Record ids are distinct *)

Section IdFacts.
Context `{P : Platform}.

Lemma digits_value_app a (s t : list N) :
  digits_value a (s ++ t) = digits_value (digits_value a s) t.
Proof. apply foldl_app. Qed.

Lemma digits_go_value fuel n acc :
  (n < 10 ^ N.of_nat fuel)%N ->
  digits_value 0 (digits_go fuel n acc) = digits_value n acc.
Proof.
  revert n acc. induction fuel as [|fuel IH]; intros n acc Hn.
  - simpl in *. f_equal. lia.
  - cbn [digits_go].
    assert (Hpow : (10 ^ N.of_nat (S fuel) = 10 * 10 ^ N.of_nat fuel)%N).
    { rewrite Nat2N.inj_succ, N.pow_succ_r'. done. }
    pose proof (N.div_mod n 10 ltac:(lia)) as Hdm.
    pose proof (N.mod_lt n 10 ltac:(lia)) as Hr.
    destruct (N.ltb_spec n 10) as [Hlt|Hge].
    + unfold digits_value. cbn [foldl]. f_equal.
      rewrite (N.mod_small n 10) by done. clear. lia.
    + rewrite IH.
      * unfold digits_value. cbn [foldl]. f_equal.
        clear Hn Hpow IH.
        set (q := (n `div` 10)%N) in *. set (r := (n `mod` 10)%N) in *.
        clearbody q r. lia.
      * apply N.Div0.div_lt_upper_bound. lia.
Qed.

Lemma digits_value_digits n : digits_value 0 (digits n) = n.
Proof.
  unfold digits. rewrite digits_go_value; [done|].
  rewrite Nat2N.inj_succ, N2Nat.id.
  destruct (N.eq_dec n 0%N) as [->|Hn]; [done|].
  pose proof (N.log2_spec n ltac:(lia)) as [_ Hlog].
  eapply N.lt_le_trans; [exact Hlog|].
  apply N.pow_le_mono_l. lia.
Qed.

Lemma digits_value_zeros k (s : list N) :
  digits_value 0 (replicate k 48%N ++ s) = digits_value 0 s.
Proof. induction k as [|k IH]; [done|]. exact IH. Qed.

Lemma format_06d_inj a b : format_06d a = format_06d b -> a = b.
Proof.
  intros H. apply (f_equal (digits_value 0)) in H.
  unfold format_06d in H.
  by rewrite !digits_value_zeros, !digits_value_digits in H.
Qed.

Lemma chunk_id_inj a b : 0 <= a -> 0 <= b -> chunk_id a = chunk_id b -> a = b.
Proof.
  intros Ha Hb H. unfold chunk_id in H.
  apply app_inv_head, format_06d_inj in H. lia.
Qed.

Lemma length_issued_ids base n : length (issued_ids base n) = n.
Proof. unfold issued_ids. by rewrite length_fmap, length_seq. Qed.

Lemma elem_of_issued_ids i base n :
  i ∈ issued_ids base n <->
  exists k, (k < n)%nat /\ i = chunk_id (base + Z.of_nat k).
Proof.
  unfold issued_ids. rewrite list_elem_of_fmap. split.
  - intros (k & -> & Hk). apply elem_of_seq in Hk. exists k. split; [lia|done].
  - intros (k & Hk & ->). exists k. split; [done|]. apply elem_of_seq. lia.
Qed.


Lemma NoDup_issued_ids base n : 0 <= base -> NoDup (issued_ids base n).
Proof.
  intros Hb. unfold issued_ids. apply NoDup_fmap_2_strong; [|apply NoDup_seq].
  intros j k _ _ H. apply chunk_id_inj in H; lia.
Qed.

(** Ids issued from [base] on are different from the ids below [base]. *)
Lemma issued_ids_disjoint a n i :
  i ∈ issued_ids 0 a -> i ∈ issued_ids (Z.of_nat a) n -> False.
Proof.
  rewrite !elem_of_issued_ids. intros (j & Hj & ->) (k & Hk & H).
  apply chunk_id_inj in H; lia.
Qed.

End IdFacts.

(** ** Facts about the engine *)

Section EngineFacts.
Context `{P : Platform}.
Implicit Types (w : World) (cfg : RAGConfig).

Lemma get_client_ok cfg w :
  key_available cfg w -> _get_client cfg w = (Ok tt, with_client w).
Proof.
  unfold key_available, _get_client, with_client, bind, get_world.
  destruct (client_ready w) eqn:E; [done|].
  intros [?|[H|H]]; [done| |].
  - destruct (api_key cfg); [done|]. done.
  - destruct (api_key cfg); [|done]. destruct env_api_key; [done|]. done.
Qed.

Lemma for_each_ok {A B} (body : A -> M B) (f : A -> B)
    (g : A -> World -> World) (l : list A) w :
  (forall x w, body x w = (Ok (f x), g x w)) ->
  for_each l body w = (Ok (f <$> l), foldl (fun w x => g x w) w l).
Proof.
  intros Hbody. revert w. induction l as [|x l IH]; intros w; [done|].
  simpl. unfold bind at 1. rewrite Hbody.
  unfold bind at 1. rewrite IH. done.
Qed.

Lemma embed_calls_foldl {A} (batch : A -> list pystr) (l : list A) w :
  let w' := foldl (fun w x => log_embed_call (batch x) w) w l in
  embed_calls w' = embed_calls w ++ (batch <$> l)
  /\ client_ready w' = client_ready w
  /\ collections w' = collections w
  /\ chat_calls w' = chat_calls w.
Proof.
  revert w. induction l as [|x l IH]; intros w; simpl.
  - by rewrite app_nil_r.
  - destruct (IH (log_embed_call (batch x) w)) as (-> & -> & -> & ->).
    simpl. by rewrite <- app_assoc.
Qed.

(** Slices of a list as [take]/[drop]. *)
Lemma slice_take_drop {A} (l : list A) (a k : Z) :
  0 <= a -> 0 <= k ->
  slice l a (a + k) = take (Z.to_nat k) (drop (Z.to_nat a) l).
Proof.
  intros Ha Hk. unfold slice, clamp_index.
  destruct (Z.ltb_spec a 0); [lia|].
  destruct (Z.ltb_spec (a + k) 0); [lia|].
  destruct (Z.le_gt_cases a (len l)) as [Hal|Hal].
  - rewrite (Z.min_l a) by lia.
    destruct (Z.le_gt_cases (a + k) (len l)).
    + rewrite (Z.min_l (a + k)) by lia. f_equal. lia.
    + rewrite (Z.min_r (a + k)) by lia.
      rewrite !take_ge; [done| |]; rewrite length_drop; unfold len in *; lia.
  - rewrite !drop_ge by (unfold len in *; lia). by rewrite !take_nil.
Qed.

Lemma slice_min {A} (l : list A) (a k : Z) :
  0 <= a -> 0 <= k ->
  slice l a (Z.min (a + k) (len l)) = slice l a (a + k).
Proof.
  intros Ha Hk. unfold slice, clamp_index.
  pose proof (len_nonneg l).
  destruct (Z.ltb_spec a 0); [lia|].
  destruct (Z.ltb_spec (a + k) 0); [lia|].
  destruct (Z.ltb_spec (Z.min (a + k) (len l)) 0); [lia|].
  f_equal. lia.
Qed.

Lemma concat_batches {A} (b m : nat) (l : list A) :
  (length l <= m * b)%nat ->
  concat ((fun k => take b (drop (k * b) l)) <$> seq 0 m) = l.
Proof.
  revert l. induction m as [|m IH]; intros l Hl.
  - destruct l; [done|simpl in Hl; lia].
  - cbn [seq]. rewrite <- fmap_S_seq, fmap_cons, <- list_fmap_compose.
    cbn [concat]. rewrite drop_0.
    rewrite (list_fmap_ext _ (fun k => take b (drop (k * b) (drop b l)))
               (seq 0 m)).
    2:{ intros i k _. simpl. by rewrite drop_drop. }
    rewrite IH by (rewrite length_drop; lia).
    apply take_drop.
Qed.

Lemma batches_bounds {A} (b m : nat) (l : list A) :
  (1 <= b)%nat -> (m * b < length l + b)%nat ->
  Forall (fun batch : list A => (1 <= length batch <= b)%nat)
    ((fun k => take b (drop (k * b) l)) <$> seq 0 m).
Proof.
  intros Hb Hm. apply Forall_fmap, Forall_forall. intros k Hk.
  apply elem_of_seq in Hk. simpl.
  rewrite length_take, length_drop. nia.
Qed.

(** The batches that [embed_texts] sends. *)
Lemma range_step_batches {A} (l : list A) (bs : Z) :
  1 <= bs ->
  let m := Z.to_nat ((len l + bs - 1) / bs) in
  (fun i => slice l i (i + bs)) <$> range_step (len l) bs
  = (fun k => take (Z.to_nat bs) (drop (k * Z.to_nat bs) l)) <$> seq 0 m
  /\ (length l <= m * Z.to_nat bs)%nat
  /\ (m * Z.to_nat bs < length l + Z.to_nat bs)%nat.
Proof.
  intros Hbs m. split; [|].
  - unfold range_step. rewrite <- list_fmap_compose.
    apply list_fmap_ext. intros i k _. simpl.
    rewrite (slice_take_drop l (Z.of_nat k * bs) bs) by lia.
    do 2 f_equal. lia.
  - pose proof (len_nonneg l).
    pose proof (Z.div_mod (len l + bs - 1) bs ltac:(lia)) as Hdm.
    pose proof (Z.mod_pos_bound (len l + bs - 1) bs ltac:(lia)) as Hr.
    assert (0 <= (len l + bs - 1) / bs) by (apply Z.div_pos; lia).
    unfold len in *. subst m. split; nia.
Qed.

Lemma concat_slices {A} (l : list A) (bs : Z) :
  1 <= bs ->
  concat ((fun i => slice l i (i + bs)) <$> range_step (len l) bs) = l.
Proof.
  intros Hbs. destruct (range_step_batches l bs Hbs) as (-> & Hle & _).
  by apply concat_batches.
Qed.

Lemma concat_fmap_fmap {A B} (f : A -> B) (ls : list (list A)) :
  concat (fmap (M:=list) f <$> ls) = f <$> concat ls.
Proof.
  induction ls as [|l ls IH]; [done|].
  rewrite !fmap_cons. cbn [concat]. by rewrite fmap_app, IH.
Qed.

(** The embedder on a service that answers every batch with [emb] of each
    input. *)
Lemma embed_texts_run cfg (texts : list (list N)) (batch_size : Z)
    (emb : list N -> vec) w :
  1 <= batch_size ->
  key_available cfg w ->
  (forall batch, embeddings_create (embed_model cfg) batch = inr (emb <$> batch)) ->
  let batch := fun i => slice texts i (i + batch_size) in
  exists w',
    embed_texts cfg texts batch_size w = (Ok (emb <$> texts), w')
    /\ embed_calls w' = embed_calls w ++ (batch <$> range_step (len texts) batch_size)
    /\ collections w' = collections w
    /\ chat_calls w' = chat_calls w
    /\ client_ready w' = true.
Proof.
  intros Hbs Hkey Hstub batch.
  set (w1 := with_client w).
  set (w' := foldl (fun w i => log_embed_call (batch i) w) w1
               (range_step (len texts) batch_size)).
  exists w'.
  destruct (embed_calls_foldl batch (range_step (len texts) batch_size) w1)
    as (Hcalls & Hready & Hcoll & Hchat). fold w' in Hcalls, Hready, Hcoll, Hchat.
  assert (Hw1 : embed_calls w1 = embed_calls w /\ collections w1 = collections w
                /\ chat_calls w1 = chat_calls w /\ client_ready w1 = true).
  { unfold w1, with_client. by destruct (client_ready w) eqn:E. }
  destruct Hw1 as (E1 & E2 & E3 & E4).
  split; [|rewrite Hcalls, Hcoll, Hchat, Hready; by rewrite E1, E2, E3, E4].
  unfold embed_texts. unfold bind at 1. rewrite (get_client_ok cfg w Hkey).
  unfold bind at 1, py_range.
  destruct (Z.eqb_spec batch_size 0); [lia|].
  destruct (Z.ltb_spec batch_size 0); [lia|].
  unfold ret at 1. unfold bind at 1.
  rewrite (for_each_ok _ (fun i => emb <$> batch i)
             (fun i w => log_embed_call (batch i) w)).
  - unfold ret. f_equal. f_equal.
    rewrite <- (concat_slices texts batch_size Hbs) at 2. fold batch.
    by rewrite <- concat_fmap_fmap, <- list_fmap_compose.
  - intros i w0. unfold call_embeddings, bind, modify_world.
    by rewrite Hstub.
Qed.

End EngineFacts.

(** ** Facts about the store and the ingestion steps *)

Section StoreFacts.
Context `{P : Platform}.
Implicit Types (w : World) (cfg : RAGConfig) (c : gmap (list N) VectorRecord)
  (recs : list (list N * VectorRecord)).

Lemma foldl_add_record_old c recs i r :
  c !! i = Some r -> foldl add_record c recs !! i = Some r.
Proof.
  revert c. induction recs as [|[j x] recs IH]; intros c H; [done|].
  cbn [foldl]. apply IH. unfold add_record. cbn [fst snd].
  destruct (c !! j) eqn:E; [done|].
  rewrite lookup_insert_ne; [done|]. intros ->. congruence.
Qed.

Lemma foldl_add_record_fresh c recs :
  NoDup recs.*1 ->
  (forall i, i ∈ recs.*1 -> c !! i = None) ->
  size (foldl add_record c recs) = (size c + length recs)%nat
  /\ dom (foldl add_record c recs) = dom c ∪ list_to_set recs.*1
  /\ (forall j i r, recs !! j = Some (i, r) ->
        foldl add_record c recs !! i = Some r).
Proof.
  revert c. induction recs as [|[i r] recs IH]; intros c Hnd Hfresh.
  - cbn. split; [lia|]. split; [by rewrite (right_id_L ∅ (∪))|].
    intros j i r H. done.
  - rewrite fmap_cons in Hnd, Hfresh. cbn [fst] in Hnd, Hfresh.
    apply NoDup_cons in Hnd as [Hi Hnd].
    cbn [foldl]. unfold add_record at 2 4 6. cbn [fst snd].
    rewrite (Hfresh i) by (by constructor).
    destruct (IH (<[i:=r]> c) Hnd) as (Hsize & Hdom & Hlook).
    { intros k Hk. rewrite lookup_insert_ne by (intros ->; done).
      apply Hfresh. by constructor. }
    split; [|split].
    + rewrite Hsize, map_size_insert_None by (apply Hfresh; by constructor).
      cbn [length]. lia.
    + rewrite Hdom, dom_insert_L, fmap_cons. cbn [fst list_to_set].
      by rewrite (comm_L (∪) {[i]} (dom c)), (assoc_L (∪)).
    + intros [|j] k x Hj.
      * cbn in Hj. injection Hj as <- <-.
        apply foldl_add_record_old, lookup_insert_eq.
      * by apply (Hlook j).
Qed.

Lemma zip_records_fst (ids docs : list (list N)) (embs : list vec)
    (metas : list ChunkMeta) :
  length docs = length ids -> length embs = length ids ->
  length metas = length ids ->
  (zip_records ids docs embs metas).*1 = ids.
Proof.
  revert docs embs metas.
  induction ids as [|i ids IH]; intros [|d docs] [|e embs] [|m metas] ? ? ?;
    simplify_eq/=; [done|]. f_equal. by apply IH.
Qed.

Lemma zip_records_lookup (ids docs : list (list N)) (embs : list vec)
    (metas : list ChunkMeta) j i d e m :
  ids !! j = Some i -> docs !! j = Some d -> embs !! j = Some e ->
  metas !! j = Some m ->
  zip_records ids docs embs metas !! j
  = Some (i, {| rec_document := d; rec_embedding := e; rec_metadata := m |}).
Proof.
  revert ids docs embs metas.
  induction j as [|j IH]; intros [|i' ids] [|d' docs] [|e' embs] [|m' metas];
    intros; simplify_eq/=; [done|]. by apply IH.
Qed.

Lemma zip_records_take k (ids docs : list (list N)) (embs : list vec)
    (metas : list ChunkMeta) :
  length docs = length ids -> length embs = length ids ->
  length metas = length ids ->
  zip_records (take k ids) (take k docs) (take k embs) (take k metas)
  = take k (zip_records ids docs embs metas).
Proof.
  revert ids docs embs metas.
  induction k as [|k IH]; intros [|i ids] [|d docs] [|e embs] [|m metas] ? ? ?;
    simplify_eq/=; try done. f_equal. by apply IH.
Qed.

Lemma zip_records_drop k (ids docs : list (list N)) (embs : list vec)
    (metas : list ChunkMeta) :
  length docs = length ids -> length embs = length ids ->
  length metas = length ids ->
  zip_records (drop k ids) (drop k docs) (drop k embs) (drop k metas)
  = drop k (zip_records ids docs embs metas).
Proof.
  revert ids docs embs metas.
  induction k as [|k IH]; intros [|i ids] [|d docs] [|e embs] [|m metas] ? ? ?;
    simplify_eq/=; try done. by apply IH.
Qed.

Lemma length_zip_records (ids docs : list (list N)) (embs : list vec)
    (metas : list ChunkMeta) :
  length docs = length ids -> length embs = length ids ->
  length metas = length ids ->
  length (zip_records ids docs embs metas) = length ids.
Proof.
  intros. rewrite <- (zip_records_fst ids docs embs metas) at 2 by done.
  by rewrite length_fmap.
Qed.

Lemma zip_records_slice (ids docs : list (list N)) (embs : list vec)
    (metas : list ChunkMeta) (a b : Z) :
  length docs = length ids -> length embs = length ids ->
  length metas = length ids ->
  zip_records (slice ids a b) (slice docs a b) (slice embs a b) (slice metas a b)
  = slice (zip_records ids docs embs metas) a b.
Proof.
  intros Hd He Hm. unfold slice, len.
  rewrite (length_zip_records ids docs embs metas), Hd, He, Hm by done.
  rewrite zip_records_take, zip_records_drop; [done..| | |];
    rewrite !length_drop; lia.
Qed.

Lemma length_slice_eq {A B} (l : list A) (k : list B) (a b : Z) :
  length l = length k -> length (slice l a b) = length (slice k a b).
Proof.
  intros H. unfold slice, len. rewrite !length_take, !length_drop, H. done.
Qed.

Lemma collection_add_ok name (ids docs : list (list N)) (embs : list vec)
    (metas : list ChunkMeta) w c :
  collections w !! name = Some c ->
  length docs = length ids -> length embs = length ids ->
  length metas = length ids ->
  collection_add name ids docs embs metas w
  = (Ok tt, set_collections
              (<[name := foldl add_record c (zip_records ids docs embs metas)]>
                 (collections w)) w).
Proof.
  intros Hc Hd He Hm.
  unfold collection_add, with_collection, bind, get_world. rewrite Hc.
  rewrite bool_decide_eq_true_2 by done. done.
Qed.

(** The batched writes add the records of the four lists, in order. *)
Lemma add_in_batches_ok name (ids chunks : list (list N)) (embs : list vec)
    (metas : list ChunkMeta) w c :
  collections w !! name = Some c ->
  length ids = length chunks -> length embs = length chunks ->
  length metas = length chunks ->
  exists us w',
    add_in_batches name ids chunks embs metas w = (Ok us, w')
    /\ collections w'
       = <[name := foldl add_record c (zip_records ids chunks embs metas)]>
           (collections w)
    /\ same_logs w w'.
Proof.
  intros Hc Hi He Hm.
  set (all := zip_records ids chunks embs metas).
  assert (Hall : length all = length chunks).
  { unfold all. rewrite length_zip_records; done || congruence. }
  assert (Hloop : forall starts w c,
    collections w !! name = Some c ->
    Forall (fun i => 0 <= i) starts ->
    exists us w',
      for_each starts (fun i =>
        let e := Z.min (i + 5000) (len chunks) in
        collection_add name (slice ids i e) (slice chunks i e)
          (slice embs i e) (slice metas i e)) w = (Ok us, w')
      /\ collections w'
         = <[name := foldl add_record c
                       (concat ((fun i => slice all i (i + 5000)) <$> starts))]>
             (collections w)
      /\ same_logs w w').
  { clear w c Hc. induction starts as [|i starts IH]; intros w c Hc Hpos.
    - exists [], w. split; [done|]. split; [|done].
      cbn. by rewrite insert_id.
    - apply Forall_cons in Hpos as [Hi0 Hpos].
      cbn [for_each]. unfold bind at 1. cbv zeta.
      rewrite (collection_add_ok name _ _ _ _ w c Hc);
        [|apply length_slice_eq; congruence..].
      rewrite zip_records_slice by congruence. fold all.
      assert (Hs : slice all i (Z.min (i + 5000) (len chunks))
                   = slice all i (i + 5000)).
      { replace (len chunks) with (len all) by (unfold len; by rewrite Hall).
        apply slice_min; lia. }
      rewrite Hs.
      set (c1 := foldl add_record c (slice all i (i + 5000))).
      set (w1 := set_collections (<[name:=c1]> (collections w)) w).
      destruct (IH w1 c1) as (us & w' & Hrun & Hcoll & Hlogs); [|done|].
      { unfold w1. cbn. apply lookup_insert_eq. }
      exists (tt :: us), w'. unfold bind at 1. cbv zeta in Hrun.
      rewrite Hrun. split; [done|]. split; [|exact Hlogs].
      rewrite Hcoll. unfold w1. cbn [collections set_collections].
      rewrite insert_insert_eq, fmap_cons. cbn [concat].
      by rewrite foldl_app. }
  unfold add_in_batches, bind at 1, py_range. cbn [Z.eqb Z.ltb Z.compare].
  unfold ret at 1.
  destruct (Hloop (range_step (len chunks) 5000) w c Hc)
    as (us & w' & Hrun & Hcoll & Hlogs).
  { unfold range_step. apply Forall_fmap, Forall_forall. intros k _. simpl. lia. }
  exists us, w'. split; [exact Hrun|]. split; [|done].
  rewrite Hcoll. do 2 f_equal.
  replace (len chunks) with (len all) by (unfold len; by rewrite Hall).
  apply concat_slices. lia.
Qed.

Lemma try_delete_collection name w :
  exists w',
    try_pass (delete_collection name) w = (Ok tt, w')
    /\ collections w' = delete name (collections w)
    /\ same_logs w w'.
Proof.
  unfold try_pass, delete_collection, bind, get_world.
  destruct (collections w !! name) eqn:E.
  - eexists. split; [reflexivity|]. done.
  - exists w. split; [done|]. split; [|done].
    symmetry. by apply delete_id.
Qed.

Lemma get_or_create_collection cfg w :
  exists w',
    _get_collection cfg true w = (Ok (collection_name cfg), w')
    /\ collections w'
       = <[collection_name cfg :=
             default ∅ (collections w !! collection_name cfg)]> (collections w)
    /\ same_logs w w'.
Proof.
  unfold _get_collection, bind, get_world.
  destruct (collections w !! collection_name cfg) eqn:E.
  - exists w. split; [done|]. split; [|done]. cbn. by rewrite insert_id.
  - eexists. split; [reflexivity|]. done.
Qed.

Lemma collection_count_ok name w c :
  collections w !! name = Some c ->
  collection_count name w = (Ok (Z.of_nat (size c)), w).
Proof.
  intros H. unfold collection_count, with_collection, bind, get_world.
  by rewrite H.
Qed.

(** Steps 2 to 4 of [ingest] on a service that answers every batch with
    [emb] of each input: the records of this call are added to the
    collection [c0] found after the replace-or-keep step, under the ids
    issued from [size c0] on. *)
Lemma ingest_docs_ok fuel cfg docs (append : bool) (emb : list N -> vec) w
    all_chunks all_metadata :
  key_available cfg w ->
  (forall batch, embeddings_create (embed_model cfg) batch = inr (emb <$> batch)) ->
  chunk_documents fuel cfg docs = Some (all_chunks, all_metadata) ->
  length all_metadata = length all_chunks ->
  let name := collection_name cfg in
  let c0 : gmap (list N) VectorRecord :=
    if append then default ∅ (collections w !! name) else ∅ in
  exists w',
    ingest_docs fuel cfg docs append w
    = (Ok {| documents := len docs; chunks := len all_chunks;
             tokens_est := total_chars all_chunks / 4;
             cost_est := cost_of_tokens (total_chars all_chunks / 4);
             errors := [] |}, w')
    /\ collections w' !! name
       = Some (foldl add_record c0
                 (zip_records
                    (issued_ids (Z.of_nat (size c0)) (length all_chunks))
                    all_chunks (emb <$> all_chunks) all_metadata))
    /\ (forall other, other <> name ->
          collections w' !! other = collections w !! other)
    /\ chat_calls w' = chat_calls w
    /\ client_ready w' = true.
Proof.
  intros Hkey Hstub Hchunk Hlen name c0.
  unfold ingest_docs. rewrite Hchunk.
  destruct (embed_texts_run cfg all_chunks 50 emb w ltac:(lia) Hkey Hstub)
    as (w1 & Hembed & _ & Hcoll1 & Hchat1 & Hready1).
  unfold bind at 1. rewrite Hembed.
  assert (Hstore : exists w2,
    (if append then ret tt
     else try_pass (delete_collection (collection_name cfg))) w1 = (Ok tt, w2)
    /\ collections w2
       = (if append then collections w else delete name (collections w))
    /\ chat_calls w2 = chat_calls w /\ client_ready w2 = true).
  { destruct append.
    - exists w1. by rewrite Hcoll1, Hchat1.
    - destruct (try_delete_collection name w1) as (w2 & Hrun & Hc & Hr & _ & Hl).
      exists w2. split; [exact Hrun|].
      by rewrite Hc, Hl, Hr, Hcoll1, Hchat1. }
  destruct Hstore as (w2 & Hrun2 & Hcoll2 & Hchat2 & Hready2).
  unfold bind at 1. rewrite Hrun2.
  destruct (get_or_create_collection cfg w2)
    as (w3 & Hrun3 & Hcoll3 & Hready3 & _ & Hchat3).
  unfold bind at 1. rewrite Hrun3. fold name.
  assert (Hc0 : collections w3 !! name = Some c0).
  { rewrite Hcoll3. fold name. rewrite lookup_insert_eq. f_equal.
    rewrite Hcoll2. unfold c0. destruct append; [done|].
    by rewrite lookup_delete_eq. }
  assert (Hcount : (if append then collection_count name else ret 0) w3
                   = (Ok (Z.of_nat (size c0)), w3)).
  { destruct append; [by apply collection_count_ok|].
    unfold c0. by rewrite map_size_empty. }
  unfold bind at 1. rewrite Hcount.
  destruct (add_in_batches_ok name
              (issued_ids (Z.of_nat (size c0)) (length all_chunks))
              all_chunks (emb <$> all_chunks) all_metadata w3 c0 Hc0)
    as (us & w4 & Hrun4 & Hcoll4 & Hready4 & _ & Hchat4);
    [apply length_issued_ids|by rewrite length_fmap|done|].
  unfold bind at 1. rewrite Hrun4.
  assert (Hfinal : collections w4 !! name = Some
            (foldl add_record c0
               (zip_records (issued_ids (Z.of_nat (size c0)) (length all_chunks))
                  all_chunks (emb <$> all_chunks) all_metadata))).
  { rewrite Hcoll4. apply lookup_insert_eq. }
  unfold bind at 1. rewrite (collection_count_ok name w4 _ Hfinal).
  exists w4. split; [done|]. split; [done|]. split; [|split].
  - intros other Hne. rewrite Hcoll4, lookup_insert_ne by done.
    rewrite Hcoll3. fold name. rewrite lookup_insert_ne by done.
    rewrite Hcoll2. destruct append; [done|]. by rewrite lookup_delete_ne.
  - by rewrite Hchat4, Hchat3, Hchat2.
  - by rewrite Hready4, Hready3.
Qed.

(** [ingest] over paths that load at least one document runs steps 2 to 4
    on the loaded documents. *)
Lemma ingest_paths fuel cfg (paths : list (list N)) (append : bool) w :
  paths <> [] -> load_sources paths <> [] ->
  ingest fuel cfg (Some paths) None append w
  = ingest_docs fuel cfg (load_sources paths) append w.
Proof.
  intros Hp Hd. unfold ingest, ingest_load, bind. cbn.
  destruct paths as [|p ps]; [done|]. unfold ret.
  by destruct (load_sources (p :: ps)).
Qed.

(** [ingest] over paths that load no document is a no-op. *)
Lemma ingest_paths_no_documents fuel cfg (paths : list (list N))
    (append : bool) w :
  paths <> [] -> load_sources paths = [] ->
  ingest fuel cfg (Some paths) None append w = (Ok no_documents_stats, w).
Proof.
  intros Hp Hd. unfold ingest, ingest_load, bind. cbn.
  destruct paths as [|p ps]; [done|]. unfold ret. by rewrite Hd.
Qed.

(** *** The chunks and metadata of a list of documents *)


Lemma chunk_documents_loop_inv fuel cfg docs acc_c acc_m result :
  chunk_documents_loop fuel cfg docs acc_c acc_m = Some result ->
  exists per_doc,
    Forall2 (fun doc cs => chunk_text fuel cfg (doc_text doc) = Some cs)
      docs per_doc
    /\ result = (acc_c ++ concat per_doc,
                 acc_m ++ concat (zip_with doc_metadata docs per_doc)).
Proof.
  revert acc_c acc_m. induction docs as [|doc docs IH]; intros acc_c acc_m H.
  - exists []. split; [constructor|]. cbn in *. rewrite !app_nil_r. congruence.
  - cbn [chunk_documents_loop] in H.
    destruct (chunk_text fuel cfg (doc_text doc)) as [cs|] eqn:Hdoc; [|done].
    destruct (IH _ _ H) as (per_doc & Hper & ->).
    exists (cs :: per_doc). split; [by constructor|].
    cbn [zip_with concat]. by rewrite !app_assoc.
Qed.

Lemma length_doc_metadata doc (cs : list (list N)) :
  length (doc_metadata doc cs) = length cs.
Proof. unfold doc_metadata. apply length_imap. Qed.

Lemma length_all_metadata docs (per_doc : list (list (list N))) :
  length docs = length per_doc ->
  length (concat (zip_with doc_metadata docs per_doc)) = length (concat per_doc).
Proof.
  revert per_doc. induction docs as [|doc docs IH]; intros [|cs per_doc] H;
    simplify_eq/=; [done|].
  rewrite !length_app, length_doc_metadata. f_equal. by apply IH.
Qed.




End StoreFacts.

(** ** The embedder *)

Section EmbedderClaims.
Context `{P : Platform}.

(** C4: with a batch size of at least 1 and an embedding service that is
    order-preserving on each batch ([emb] applied to every input of the
    batch), [embed_texts] returns exactly one vector per text, the i-th
    being [emb] of the i-th text; it calls the service once per batch, the
    batches being consecutive, non-empty, of at most [batch_size] texts,
    [ceil(N / batch_size)] of them, and together the input list. *)
Theorem embed_texts_order cfg (texts : list (list N)) (batch_size : Z)
    (emb : list N -> vec) (w : World) :
  1 <= batch_size ->
  key_available cfg w ->
  (forall batch, embeddings_create (embed_model cfg) batch = inr (emb <$> batch)) ->
  exists w' batches,
    embed_texts cfg texts batch_size w = (Ok (emb <$> texts), w')
    /\ length (emb <$> texts) = length texts
    /\ (forall i t, texts !! i = Some t -> (emb <$> texts) !! i = Some (emb t))
    /\ embed_calls w' = embed_calls w ++ batches
    /\ concat batches = texts
    /\ Forall (fun batch : list (list N) => 1 <= len batch <= batch_size) batches
    /\ len batches = (len texts + batch_size - 1) / batch_size
    /\ collections w' = collections w.
Proof.
  intros Hbs Hkey Hstub.
  destruct (range_step_batches texts batch_size Hbs) as (Hbatches & Hle & Hlt).
  destruct (embed_texts_run cfg texts batch_size emb w Hbs Hkey Hstub)
    as (w' & Hrun & Hcalls & Hcoll & _).
  exists w', ((fun i => slice texts i (i + batch_size))
                <$> range_step (len texts) batch_size).
  split; [done|]. split; [by rewrite length_fmap|].
  split; [intros i t Ht; by rewrite list_lookup_fmap, Ht|].
  split; [done|]. split; [by apply concat_slices|].
  split; [|split; [|done]].
  - rewrite Hbatches.
    eapply Forall_impl; [apply (batches_bounds (Z.to_nat batch_size)); lia|].
    intros b0 Hb0. simpl in Hb0. unfold len. lia.
  - unfold len, range_step. rewrite !length_fmap, length_seq.
    pose proof (len_nonneg texts).
    assert (0 <= (len texts + batch_size - 1) / batch_size)
      by (apply Z.div_pos; lia).
    unfold len in *. lia.
Qed.

End EmbedderClaims.

(** ** Ingestion: ordering and record ids *)

Section IngestClaims.
Context `{P : Platform}.
Implicit Types (w : World) (cfg : RAGConfig).


Lemma fresh_batch (c : gmap (list N) VectorRecord) (ids docs : list (list N))
    (embs : list vec) (metas : list ChunkMeta) :
  length docs = length ids -> length embs = length ids ->
  length metas = length ids ->
  NoDup ids -> (forall i, i ∈ ids -> c !! i = None) ->
  let c' := foldl add_record c (zip_records ids docs embs metas) in
  size c' = (size c + length ids)%nat /\ dom c' = dom c ∪ list_to_set ids.
Proof.
  intros Hd He Hm Hnd Hfresh c'.
  destruct (foldl_add_record_fresh c (zip_records ids docs embs metas))
    as (Hsize & Hdom & _).
  - by rewrite zip_records_fst.
  - by rewrite zip_records_fst.
  - rewrite length_zip_records in Hsize by done.
    rewrite zip_records_fst in Hdom by done. done.
Qed.


End IngestClaims.

(** ** Ingestion on the concrete platform *)

Section IngestExamples.
Import Stub.





End IngestExamples.

(** ** Loading: empty results and missing paths *)

Section LoaderClaims.
Context `{P : Platform}.
Implicit Types (w : World) (cfg : RAGConfig).

Lemma ingest_manifest fuel cfg (paths : option (list (list N)))
    (sf : list N) (append : bool) w :
  sf <> [] ->
  ingest fuel cfg paths (Some sf) append w
  = bind (load_sources_file sf)
      (fun docs =>
         match docs with
         | [] => ret no_documents_stats
         | _ => ingest_docs fuel cfg docs append
         end) w.
Proof. intros Hsf. unfold ingest, ingest_load. by destruct sf. Qed.

(** C6, amended: when the supplied paths, or the paths that an existing
    manifest lists, load no document, [ingest] raises nothing, leaves the
    world as it was and returns the no-op statistics, whose [errors] field
    carries the message; when the manifest exists but lists no usable path,
    [load_sources_file] raises [ValueError] and [ingest] lets it through, as
    it does when neither a manifest nor a non-empty path list is given. *)
Theorem ingest_empty_result fuel cfg (append : bool) w :
  (documents no_documents_stats = 0
   /\ chunks no_documents_stats = 0
   /\ errors no_documents_stats = [str "Nessun documento trovato"])
  /\ (forall paths : list (list N),
        paths <> [] -> load_sources paths = [] ->
        ingest fuel cfg (Some paths) None append w = (Ok no_documents_stats, w))
  /\ (forall (sf : list N) paths,
        sf <> [] -> path_exists sf = true ->
        manifest_paths (path_read_text sf) <> [] ->
        load_sources (manifest_paths (path_read_text sf)) = [] ->
        ingest fuel cfg paths (Some sf) append w = (Ok no_documents_stats, w))
  /\ (forall (sf : list N) paths,
        sf <> [] -> path_exists sf = true ->
        manifest_paths (path_read_text sf) = [] ->
        ingest fuel cfg paths (Some sf) append w
        = (Raise (ValueError (str "Nessun percorso trovato in " ++ sf)), w))
  /\ ingest fuel cfg (Some []) None append w
     = (Raise (ValueError (str "Specifica paths o sources_file")), w).
Proof.
  split; [done|]. split; [|split; [|split; [|done]]].
  - intros paths. apply ingest_paths_no_documents.
  - intros sf paths Hsf Hex Hpaths Hload.
    rewrite ingest_manifest by done.
    unfold bind, load_sources_file. rewrite Hex. cbn [negb].
    destruct (manifest_paths (path_read_text sf)) eqn:E; [done|].
    unfold ret. by rewrite Hload.
  - intros sf paths Hsf Hex Hpaths.
    rewrite ingest_manifest by done.
    unfold bind, load_sources_file. rewrite Hex, Hpaths. done.
Qed.

(** C7, amended: a supplied path that does not exist contributes no
    document and does not stop the load, the paths before and after it are
    loaded as if it were not there; a manifest that does not exist makes
    [load_sources_file], and [ingest] with it, raise [FileNotFoundError]. *)
Theorem missing_path_skipped :
  (forall (before after : list (list N)) (p : list N),
     path_exists (path_resolve p) = false ->
     load_sources (before ++ p :: after)
     = load_sources before ++ load_sources after)
  /\ (forall (sf : list N) w,
        path_exists sf = false ->
        load_sources_file sf w
        = (Raise (FileNotFoundError (str "File sorgenti non trovato: " ++ sf)), w))
  /\ (forall fuel cfg paths (sf : list N) (append : bool) w,
        sf <> [] -> path_exists sf = false ->
        ingest fuel cfg paths (Some sf) append w
        = (Raise (FileNotFoundError (str "File sorgenti non trovato: " ++ sf)), w)).
Proof.
  split; [|split].
  - intros before after p Hp. unfold load_sources.
    rewrite bind_app, bind_cons. unfold load_path at 2. by rewrite Hp.
  - intros sf w Hsf. unfold load_sources_file. by rewrite Hsf.
  - intros fuel cfg paths sf append w Hne Hsf.
    rewrite ingest_manifest by done.
    unfold bind, load_sources_file. by rewrite Hsf.
Qed.

End LoaderClaims.

Section LoaderExamples.
Import Stub.

(** C6, as stated, fails for a manifest without usable paths:
    [empty.txt] exists and holds a comment and blank lines only, and
    [ingest] raises [ValueError] instead of returning a result. *)
Lemma ingest_empty_result_counterexample :
  path_exists (str "empty.txt") = true
  /\ manifest_paths (path_read_text (str "empty.txt")) = []
  /\ seen_exception
       (ingest 200 default_config None (Some (str "empty.txt")) false world0).1
     = Some (ValueError (str "Nessun percorso trovato in empty.txt"))
  /\ seen_stats
       (ingest 200 default_config None (Some (str "empty.txt")) false world0).1
     = None.
Proof. repeat split; vm_compute; reflexivity. Qed.

Lemma ingest_empty_result_witness :
  ingest 200 default_config (Some [str "blank.txt"]) None false world0
    = (Ok no_documents_stats, world0)
  /\ ingest 200 default_config None (Some (str "only_blank.txt")) false world0
    = (Ok no_documents_stats, world0)
  /\ ingest 200 default_config None (Some (str "empty.txt")) false world0
    = (Raise (ValueError (str "Nessun percorso trovato in " ++ str "empty.txt")),
       world0).
Proof.
  destruct (ingest_empty_result (P:=stub_platform) 200 default_config false
              world0)
    as (_ & Hpaths & Hmanifest & Hraise & _).
  split; [|split].
  - apply Hpaths; [discriminate|vm_compute; reflexivity].
  - apply Hmanifest;
      [discriminate|vm_compute; reflexivity|vm_compute; discriminate
      |vm_compute; reflexivity].
  - apply Hraise; [discriminate|vm_compute; reflexivity..].
Defined.

(** C7, as stated, fails for a missing path among the supplied ones:
    [missing.txt] does not exist, yet the load goes on, returns the
    document of [a.txt], and [ingest] raises nothing and completes with one
    document. *)
Lemma missing_path_counterexample :
  let paths := [str "missing.txt"; str "a.txt"] in
  let run := ingest 200 default_config (Some paths) None false world0 in
  path_exists (path_resolve (str "missing.txt")) = false
  /\ (exists doc,
        load_sources paths = [doc] /\ doc_filename doc = str "a.txt")
  /\ seen_exception run.1 = None
  /\ seen_stats run.1 = Some (1, 1, []).
Proof.
  cbv zeta. split; [vm_compute; reflexivity|]. split.
  - eexists. split; vm_compute; reflexivity.
  - split; vm_compute; reflexivity.
Qed.

Lemma missing_path_skipped_witness :
  load_sources ([str "a.txt"] ++ str "missing.txt" :: [str "b.txt"])
    = load_sources [str "a.txt"] ++ load_sources [str "b.txt"]
  /\ load_sources_file (str "nowhere.txt") world0
    = (Raise (FileNotFoundError
                (str "File sorgenti non trovato: " ++ str "nowhere.txt")), world0).
Proof.
  destruct (missing_path_skipped (P:=stub_platform))
    as (Hskip & Hmanifest & _). split.
  - apply Hskip. vm_compute. reflexivity.
  - apply Hmanifest. vm_compute. reflexivity.
Defined.

End LoaderExamples.

(** ** Retrieval: citations and the empty index *)

Section QueryClaims.
Context `{P : Platform}.
Implicit Types (w : World) (cfg : RAGConfig) (c : gmap (list N) VectorRecord).


Lemma with_client_fields w :
  collections (with_client w) = collections w
  /\ embed_calls (with_client w) = embed_calls w
  /\ chat_calls (with_client w) = chat_calls w.
Proof. unfold with_client. by destruct (client_ready w). Qed.


Lemma slice_prefix {A} (l : list A) (n : Z) :
  0 <= n -> slice l 0 n = take (Z.to_nat n) l.
Proof.
  intros Hn. rewrite <- (Z.add_0_l n) at 1.
  rewrite slice_take_drop by lia. by rewrite drop_0.
Qed.




End QueryClaims.

Section QueryExamples.
Import Stub.




Lemma embed_texts_order_witness :
  (embed_texts default_config
     [str "uno"; str "due"; str "tre"; str "quattro"; str "cinque"] 2 world0).1
  = Ok [[3]; [3]; [3]; [7]; [6]]%N.
Proof.
  destruct (embed_texts_order (P:=stub_platform) default_config
              [str "uno"; str "due"; str "tre"; str "quattro"; str "cinque"]
              2 stub_emb world0)
    as (w' & batches & Hrun & _).
  - lia.
  - right. right. vm_compute. discriminate.
  - intros batch. reflexivity.
  - rewrite Hrun. reflexivity.
Defined.

End QueryExamples.

(** ** The chunker: substrings, window size, shared overlap, short texts *)

Section ChunkerShape.
Implicit Types (text : list N) (size overlap start : Z).

Lemma lstrip_suffix (s : list N) : lstrip s `suffix_of` s.
Proof.
  induction s as [|c r IH]; [done|]. simpl.
  destruct (isspace c); [by apply suffix_cons_r|done].
Qed.

Lemma rstrip_prefix (s : list N) : rstrip s `prefix_of` s.
Proof.
  unfold rstrip. destruct (lstrip_suffix (reverse s)) as [k Hk].
  exists (reverse k).
  rewrite <- reverse_app, <- Hk. by rewrite reverse_involutive.
Qed.

Lemma substring_strip (s : list N) : substring (strip s) s.
Proof.
  unfold strip. destruct (lstrip_suffix s) as [k Hk].
  destruct (rstrip_prefix (lstrip s)) as [k' Hk'].
  exists k, k'. by rewrite <- Hk', <- Hk.
Qed.

Lemma substring_slice {A} (l : list A) (a b : Z) :
  exists before after, l = before ++ slice l a b ++ after.
Proof.
  unfold slice.
  set (m := Z.to_nat (clamp_index (len l) a)).
  set (n := Z.to_nat (clamp_index (len l) b - clamp_index (len l) a)).
  exists (take m l), (drop n (drop m l)).
  by rewrite take_drop, take_drop.
Qed.

Lemma substring_trans (a b c : list N) :
  substring a b -> substring b c -> substring a c.
Proof.
  intros (p & q & ->) (p' & q' & ->).
  exists (p' ++ p), (q ++ q'). by rewrite <- !app_assoc.
Qed.

Lemma elem_of_emit (c : list N) (windows : list (list N)) :
  c ∈ emit windows -> exists w, w ∈ windows /\ c = strip w.
Proof.
  unfold emit. intros [_ Hc]%list_elem_of_filter.
  apply list_elem_of_fmap in Hc as (w & -> & Hw). eauto.
Qed.

(** The windows of a run that ends are the slices of its index pairs. *)
Lemma window_loop_spans fuel text size overlap start ws result :
  window_loop fuel text size overlap start ws = Some result ->
  exists spans,
    result = ws ++ windows_of text spans
    /\ spans_from text size overlap start spans.
Proof.
  revert start ws. induction fuel as [|fuel IH]; intros start ws; simpl.
  - destruct (Z.ltb_spec start (len text)); [done|]. intros [= <-].
    exists []. by rewrite app_nil_r.
  - destruct (Z.ltb_spec start (len text)) as [Hlt|Hge].
    2:{ intros [= <-]. exists []. by rewrite app_nil_r. }
    set (e := cut_end text size start).
    destruct (Z.leb_spec (len text) (e - overlap)) as [Hstop|Hgo].
    + intros [= <-]. exists [(start, e)]. split; [done|]. simpl. done.
    + intros H. destruct (IH _ _ H) as (spans & -> & Hspans).
      exists ((start, e) :: spans). split; [by rewrite <- app_assoc|].
      simpl. done.
Qed.

(** On a progressing configuration every window starts inside the text,
    at or after index 0, and ends at most [size] characters later. *)
Lemma spans_from_bounds text size overlap start spans :
  progressing size overlap -> 0 <= start ->
  spans_from text size overlap start spans ->
  Forall (fun p => 0 <= p.1 < len text
                   /\ p.1 + size / 2 + 1 <= p.2 <= p.1 + size
                   /\ (p.2 <= len text \/ p.2 = p.1 + size)) spans.
Proof.
  intros (Ho & Hhalf & Hsz). revert start.
  induction spans as [|[s e] spans IH]; intros start Hs H; [done|].
  simpl in H. destruct H as (-> & Hlt & -> & Hrest).
  pose proof (cut_end_range text size start Hs Hsz) as He.
  constructor.
  { simpl. split; [lia|]. split; [lia|]. unfold cut_end in *.
    destruct (Z.ltb_spec (start + size) (len text)); lia. }
  apply (IH (cut_end text size start - overlap)); [lia|done].
Qed.

Lemma length_slice_le {A} (l : list A) (a b : Z) :
  0 <= a -> 0 <= b -> len (slice l a b) <= Z.max 0 (b - a).
Proof.
  intros Ha Hb. unfold slice, len, clamp_index.
  rewrite length_take, length_drop.
  destruct (Z.ltb_spec a 0); [lia|].
  destruct (Z.ltb_spec b 0); lia.
Qed.

(** Consecutive windows: the next window starts [overlap] characters
    before the cut, so its first [overlap] characters end the window before
    it. *)
Lemma slices_share_overlap text size overlap s e e' :
  0 <= overlap -> 0 <= s -> s < e - overlap -> e - overlap < len text ->
  e <= e' ->
  take (Z.to_nat overlap) (slice text (e - overlap) e')
    `suffix_of` slice text s e.
Proof.
  intros Ho Hs Hprog Hin He'.
  unfold slice, clamp_index.
  destruct (Z.ltb_spec s 0); [lia|].
  destruct (Z.ltb_spec e 0); [lia|].
  destruct (Z.ltb_spec (e - overlap) 0); [lia|].
  destruct (Z.ltb_spec e' 0); [lia|].
  rewrite (Z.min_l s), (Z.min_l (e - overlap)) by lia.
  rewrite take_take.
  set (n := len text) in *.
  set (k := Nat.min (Z.to_nat overlap)
              (Z.to_nat (Z.min e' n - (e - overlap)))).
  set (d := Z.to_nat (e - overlap - s)).
  assert (Hdrop : drop (Z.to_nat (e - overlap)) text
                  = drop d (drop (Z.to_nat s) text)).
  { rewrite drop_drop. f_equal. lia. }
  rewrite Hdrop, take_drop_commute.
  replace (d + k)%nat with (Z.to_nat (Z.min e n - s)) by lia.
  apply suffix_drop.
Qed.

Lemma chunk_windows_spans fuel cfg text windows :
  chunk_windows fuel cfg text = Some windows ->
  exists spans,
    windows = windows_of text spans
    /\ spans_from text (chunk_size cfg) (chunk_overlap cfg) 0 spans.
Proof.
  intros H. by destruct (window_loop_spans _ _ _ _ _ _ _ H) as (spans & -> & ?);
    exists spans.
Qed.

(** X1 (chunk_text): whatever the configuration, every chunk that
    [chunk_text] returns is a contiguous part of the input text. *)
Theorem chunks_are_substrings fuel cfg text chunks :
  chunk_text fuel cfg text = Some chunks ->
  Forall (fun c => substring c text) chunks.
Proof.
  intros Hrun. rewrite chunk_text_windows in Hrun.
  destruct (chunk_windows fuel cfg text) as [windows|] eqn:Hw; [|done].
  injection Hrun as <-.
  pose proof (window_loop_slices fuel text (chunk_size cfg) (chunk_overlap cfg)
                0 [] windows ltac:(done) Hw) as Hslices.
  apply Forall_forall. intros c Hc.
  apply elem_of_emit in Hc as (w & Hw' & ->).
  rewrite Forall_forall in Hslices.
  destruct (Hslices w Hw') as (a & b & ->).
  eapply substring_trans; [apply substring_strip|apply substring_slice].
Qed.

Lemma chunks_are_substrings_witness :
  Forall (fun c => substring c Inputs.text_with_short_middle)
    [replicate 100 97%N; replicate 100 98%N].
Proof.
  apply (chunks_are_substrings 10 (config_with 100 0)).
  vm_compute. reflexivity.
Defined.

(** X2 (chunk_text): on a progressing configuration [chunk_text] returns,
    and every chunk has more than 50 and at most [chunk_size]
    characters. *)
Theorem chunk_length_bounds fuel cfg text :
  progressing (chunk_size cfg) (chunk_overlap cfg) ->
  (length text <= fuel)%nat ->
  exists chunks,
    chunk_text fuel cfg text = Some chunks
    /\ Forall (fun c => 50 < len c <= chunk_size cfg) chunks.
Proof.
  intros Hp Hfuel.
  destruct (chunk_windows_total fuel cfg text Hp Hfuel) as (windows & Hw & _).
  exists (emit windows). split; [by rewrite chunk_text_windows, Hw|].
  destruct (chunk_windows_spans _ _ _ _ Hw) as (spans & -> & Hspans).
  pose proof (spans_from_bounds text _ _ 0 spans Hp (Z.le_refl 0) Hspans) as Hb.
  apply Forall_forall. intros c Hc.
  pose proof Hc as Hkeep. unfold emit in Hkeep.
  apply list_elem_of_filter in Hkeep as [Hkeep _].
  apply elem_of_emit in Hc as (w & Hw' & ->).
  apply list_elem_of_fmap in Hw' as ([s e] & -> & Hse).
  rewrite Forall_forall in Hb. specialize (Hb _ Hse). simpl in Hb.
  split.
  - unfold keep in Hkeep. apply andb_True in Hkeep as [_ Hkeep].
    by apply Is_true_true, Z.ltb_lt in Hkeep.
  - simpl.
    assert (len (strip (slice text s e)) <= len (slice text s e)).
    { destruct (substring_strip (slice text s e)) as (p & q & Heq).
      rewrite Heq at 2. rewrite !len_app.
      pose proof (len_nonneg p). pose proof (len_nonneg q). lia. }
    destruct Hp as (Ho & Hhalf & Hsz).
    pose proof (length_slice_le text s e ltac:(lia) ltac:(lia)). lia.
Qed.

Lemma chunk_length_bounds_witness :
  exists chunks,
    chunk_text 2100 default_config Inputs.text_2100 = Some chunks
    /\ Forall (fun c => 50 < len c <= 1000) chunks.
Proof.
  apply (chunk_length_bounds 2100 default_config Inputs.text_2100).
  - vm_compute. repeat split; discriminate.
  - vm_compute. lia.
Defined.

Lemma spans_share_overlap text size overlap start spans i p1 p2 :
  progressing size overlap -> 0 <= start ->
  spans_from text size overlap start spans ->
  spans !! i = Some p1 -> spans !! S i = Some p2 ->
  take (Z.to_nat overlap) (slice text p2.1 p2.2)
    `suffix_of` slice text p1.1 p1.2.
Proof.
  intros Hp Hs. revert start Hs spans.
  induction i as [|i IH]; intros start Hs [|[s e] spans] H H1 H2;
    try done; simpl in H; destruct H as (-> & Hlt & -> & Hrest).
  - destruct spans as [|[s2 e2] spans]; [done|].
    simpl in H1, H2. injection H1 as <-. injection H2 as <-.
    simpl in Hrest. destruct Hrest as (-> & Hlt2 & -> & _).
    destruct Hp as (Ho & Hhalf & Hsz).
    pose proof (cut_end_range text size start Hs Hsz).
    pose proof (cut_end_range text size
                  (cut_end text size start - overlap) ltac:(lia) Hsz).
    simpl. apply (slices_share_overlap text size); lia.
  - simpl in H1, H2.
    destruct Hp as (Ho & Hhalf & Hsz).
    pose proof (cut_end_range text size start Hs Hsz).
    apply (IH (cut_end text size start - overlap) ltac:(lia) spans);
      done.
Qed.

Lemma spans_next_inside text size overlap start spans i p1 p2 :
  spans_from text size overlap start spans ->
  spans !! i = Some p1 -> spans !! S i = Some p2 ->
  p1.2 - overlap < len text.
Proof.
  revert start spans.
  induction i as [|i IH]; intros start [|[s e] spans] H H1 H2;
    try done; simpl in H; destruct H as (-> & _ & -> & Hrest).
  - destruct spans as [|[s2 e2] spans]; [done|].
    simpl in H1. injection H1 as <-. simpl in Hrest.
    destruct Hrest as (_ & Hlt & _). simpl. done.
  - by apply (IH _ spans Hrest).
Qed.

(** X3 (chunk_text): on a progressing configuration the windows that
    [chunk_text] cuts overlap as configured: the first [chunk_overlap]
    characters of every window after the first are the last characters of
    the window before it; no window is longer than [chunk_size], and every
    window but the last is longer than half of it. *)
Theorem windows_share_overlap fuel cfg text :
  progressing (chunk_size cfg) (chunk_overlap cfg) ->
  (length text <= fuel)%nat ->
  exists windows,
    chunk_windows fuel cfg text = Some windows
    /\ Forall (fun w => 1 <= len w <= chunk_size cfg) windows
    /\ forall i w1 w2,
         windows !! i = Some w1 -> windows !! S i = Some w2 ->
         take (Z.to_nat (chunk_overlap cfg)) w2 `suffix_of` w1
         /\ chunk_size cfg / 2 < len w1.
Proof.
  intros Hp Hfuel.
  destruct (chunk_windows_total fuel cfg text Hp Hfuel) as (windows & Hw & _).
  exists windows. split; [done|].
  destruct (chunk_windows_spans _ _ _ _ Hw) as (spans & -> & Hspans).
  pose proof (spans_from_bounds text _ _ 0 spans Hp (Z.le_refl 0) Hspans) as Hb.
  rewrite Forall_forall in Hb.
  split.
  - apply Forall_fmap, Forall_forall. intros [s e] Hse.
    specialize (Hb _ Hse). simpl in *.
    destruct Hp as (Ho & Hhalf & Hsz).
    pose proof (length_slice_le text s e ltac:(lia) ltac:(lia)).
    split; [|lia].
    unfold slice, len, clamp_index. rewrite length_take, length_drop.
    destruct (Z.ltb_spec s 0); [lia|]. destruct (Z.ltb_spec e 0); [lia|].
    unfold len in *. lia.
  - intros i w1 w2 H1 H2. unfold windows_of in H1, H2.
    rewrite list_lookup_fmap in H1, H2.
    destruct (spans !! i) as [p1|] eqn:E1; [|done].
    destruct (spans !! S i) as [p2|] eqn:E2; [|done].
    injection H1 as <-. injection H2 as <-.
    split.
    { by apply (spans_share_overlap text (chunk_size cfg) (chunk_overlap cfg)
                  0 spans i). }
    (* the window before another one is cut inside the text *)
    pose proof (spans_next_inside _ _ _ _ _ _ _ _ Hspans E1 E2) as Hin.
    specialize (Hb p1 ltac:(by eapply list_elem_of_lookup_2)).
    destruct p1 as [s e]. simpl in *.
    destruct Hp as (Ho & Hhalf & Hsz).
    unfold slice, len, clamp_index. rewrite length_take, length_drop.
    destruct (Z.ltb_spec s 0); [lia|]. destruct (Z.ltb_spec e 0); [lia|].
    unfold len in *. rewrite (Z.min_l s) by lia.
    pose proof (half_bounds _ Hsz) as [? ?].
    destruct Hb as (? & ? & ?). clear Hw Hspans E1 E2.
    pose proof (Z.mul_div_le (chunk_size cfg) 2 ltac:(lia)).
    set (h := chunk_size cfg / 2) in *. clearbody h.
    destruct (Z.le_gt_cases e (Z.of_nat (length text))).
    + rewrite (Z.min_l e) by lia. lia.
    + rewrite (Z.min_r e) by lia. lia.
Qed.

Lemma windows_share_overlap_witness :
  exists windows,
    chunk_windows 2100 default_config Inputs.text_2100 = Some windows
    /\ Forall (fun w => 1 <= len w <= 1000) windows
    /\ forall i w1 w2,
         windows !! i = Some w1 -> windows !! S i = Some w2 ->
         take 200 w2 `suffix_of` w1 /\ 500 < len w1.
Proof.
  apply (windows_share_overlap 2100 default_config Inputs.text_2100).
  - vm_compute. repeat split; discriminate.
  - vm_compute. lia.
Defined.

(** X4 (chunk_text): a text that fits in one window. When
    [len(text) <= size - overlap] the loop runs once and the result is the
    stripped text, if it is longer than 50 characters, and nothing
    otherwise. When [size - overlap < len(text) <= size] the loop runs a
    second time on the tail [text[size - overlap:]], which lies wholly
    inside the first window and is returned as a second chunk when it
    passes the floor. *)
Theorem chunk_text_one_window fuel cfg text :
  progressing (chunk_size cfg) (chunk_overlap cfg) ->
  (2 <= fuel)%nat ->
  len text <= chunk_size cfg ->
  (len text <= chunk_size cfg - chunk_overlap cfg ->
   chunk_text fuel cfg text
   = Some (if 50 <? len (strip text) then [strip text] else []))
  /\ (chunk_size cfg - chunk_overlap cfg < len text ->
      chunk_text fuel cfg text
      = Some (emit [text;
                    drop (Z.to_nat (chunk_size cfg - chunk_overlap cfg)) text])).
Proof.
  intros (Ho & Hhalf & Hsz) Hfuel Hfit.
  destruct fuel as [|[|fuel]]; [lia|lia|].
  pose proof (len_nonneg text) as Hlen.
  pose proof (half_bounds _ Hsz) as [Hh0 Hh1].
  pose proof (Z.mul_div_le (chunk_size cfg) 2 ltac:(lia)) as Hh2.
  assert (Hcut : forall start, 0 <= start ->
    len text <= start + chunk_size cfg ->
    cut_end text (chunk_size cfg) start = start + chunk_size cfg).
  { intros start _ H. unfold cut_end.
    destruct (Z.ltb_spec (start + chunk_size cfg) (len text)); [lia|done]. }
  assert (Hemit1 : emit [text]
                   = if 50 <? len (strip text) then [strip text] else []).
  { unfold emit. cbn [fmap list_fmap]. rewrite filter_cons, filter_nil.
    unfold keep. destruct (Z.ltb_spec 50 (len (strip text))) as [H|H].
    - rewrite andb_true_r. rewrite decide_True; [done|].
      apply negb_True. rewrite bool_decide_spec. intros E.
      rewrite E in H. unfold len in H. simpl in H. lia.
    - rewrite andb_false_r. by rewrite decide_False by (intros []). }
  split.
  - intros Hsmall. rewrite chunk_text_windows. rewrite <- Hemit1.
    unfold chunk_windows. cbn [window_loop].
    destruct (Z.ltb_spec 0 (len text)) as [Hpos|Hempty].
    + rewrite (Hcut 0) by lia.
      destruct (Z.leb_spec (len text) (0 + chunk_size cfg - chunk_overlap cfg));
        [|lia].
      rewrite slice_to_end by lia. done.
    + assert (text = []) as ->.
      { destruct text; [done|]. unfold len in Hempty. simpl in Hempty. lia. }
      done.
  - intros Hbig. rewrite chunk_text_windows.
    unfold chunk_windows. cbn [window_loop].
    destruct (Z.ltb_spec 0 (len text)) as [Hpos|Hempty]; [|lia].
    rewrite (Hcut 0) by lia.
    destruct (Z.leb_spec (len text) (0 + chunk_size cfg - chunk_overlap cfg));
      [lia|].
    destruct (Z.ltb_spec (0 + chunk_size cfg - chunk_overlap cfg) (len text));
      [|lia].
    rewrite (Hcut (0 + chunk_size cfg - chunk_overlap cfg)) by lia.
    destruct (Z.leb_spec (len text)
                (0 + chunk_size cfg - chunk_overlap cfg + chunk_size cfg
                 - chunk_overlap cfg)); [|lia].
    rewrite !slice_to_end by lia.
    rewrite Z.add_0_l. done.
Qed.

Lemma chunk_text_one_window_witness :
  chunk_text 2 default_config (replicate 700 97%N)
    = Some (if 50 <? len (strip (replicate 700 97%N))
            then [strip (replicate 700 97%N)] else [])
  /\ chunk_text 2 default_config (replicate 900 97%N)
    = Some (emit [replicate 900 97%N;
                  drop (Z.to_nat (1000 - 200)) (replicate 900 97%N)]).
Proof.
  assert (Hp : progressing (chunk_size default_config)
                 (chunk_overlap default_config)).
  { vm_compute. repeat split; discriminate. }
  split.
  - refine (proj1 (chunk_text_one_window 2 default_config
                     (replicate 700 97%N) Hp (le_n 2) _) _).
    + vm_compute. intros H. discriminate H.
    + vm_compute. intros H. discriminate H.
  - refine (proj2 (chunk_text_one_window 2 default_config
                     (replicate 900 97%N) Hp (le_n 2) _) _).
    + vm_compute. intros H. discriminate H.
    + vm_compute. reflexivity.
Defined.

End ChunkerShape.

(** ** The engine: missing key, failed embedding, read-only queries *)

Section EngineFailures.
Context `{P : Platform}.
Implicit Types (w : World) (cfg : RAGConfig).

Lemma get_client_missing cfg w :
  ~ key_available cfg w ->
  _get_client cfg w
  = (Raise (ValueError (str "API key mancante. Imposta MISTRAL_API_KEY o passa api_key nella config.")), w).
Proof.
  unfold key_available, _get_client, bind, get_world. intros H.
  destruct (client_ready w); [tauto|].
  destruct (api_key cfg); [|exfalso; apply H; right; left; done].
  destruct env_api_key; [done|]. exfalso. apply H. right. right. done.
Qed.

(** The world after [_get_client], whatever its outcome. *)
Lemma get_client_world cfg w :
  (_get_client cfg w).2 = w \/ (_get_client cfg w).2 = set_client_ready w.
Proof.
  unfold _get_client, bind, get_world.
  destruct (client_ready w); [by left|].
  destruct (api_key cfg); [destruct env_api_key|]; simpl; auto.
Qed.

Lemma chunk_documents_lengths fuel cfg docs all_chunks all_metadata :
  chunk_documents fuel cfg docs = Some (all_chunks, all_metadata) ->
  length all_metadata = length all_chunks.
Proof.
  intros H. apply chunk_documents_loop_inv in H as (per_doc & HF & [= -> ->]).
  simpl. apply length_all_metadata. by eapply Forall2_length.
Qed.

(** X5 (_get_client): without a key (none configured, none in the
    environment, no client made earlier) [embed_texts], [query] and
    [ingest] raise the [ValueError] of [_get_client], [ingest] after it
    has loaded and chunked the documents: no call is logged, no collection
    is read, created or deleted; [query] reports the missing key even when
    the collection is missing too, and [ingest] even when there is no
    chunk to embed. *)
Theorem missing_key_stops_everything fuel cfg w :
  ~ key_available cfg w ->
  let err := ValueError (str "API key mancante. Imposta MISTRAL_API_KEY o passa api_key nella config.") in
  (forall texts batch_size, embed_texts cfg texts batch_size w = (Raise err, w))
  /\ (forall question top_k_arg, query cfg question top_k_arg w = (Raise err, w))
  /\ (forall (paths : list (list N)) (append : bool) result,
        paths <> [] -> load_sources paths <> [] ->
        chunk_documents fuel cfg (load_sources paths) = Some result ->
        ingest fuel cfg (Some paths) None append w = (Raise err, w)).
Proof.
  intros Hkey err.
  assert (Hembed : forall texts batch_size,
            embed_texts cfg texts batch_size w = (Raise err, w)).
  { intros. unfold embed_texts, bind. by rewrite get_client_missing. }
  split; [exact Hembed|]. split.
  - intros. unfold query, bind. by rewrite get_client_missing.
  - intros paths append [chunks metadata] Hp Hdocs Hchunks.
    rewrite ingest_paths by done. unfold ingest_docs. rewrite Hchunks.
    unfold bind at 1. by rewrite Hembed.
Qed.

Section Keeps.
Context {X : Type} (f : World -> X).

Lemma bind_keeps {A B} (m : M A) (k : A -> M B) :
  (forall w, f (m w).2 = f w) -> (forall a w, f (k a w).2 = f w) ->
  forall w, f (bind m k w).2 = f w.
Proof.
  intros Hm Hk w. unfold bind. specialize (Hm w).
  destruct (m w) as [[a|e|] w1]; simpl in *; [|done|done].
  by rewrite Hk.
Qed.

Lemma for_each_keeps {A B} (l : list A) (body : A -> M B) :
  (forall x w, f (body x w).2 = f w) ->
  forall w, f (for_each l body w).2 = f w.
Proof.
  intros Hbody. induction l as [|x l IH]; intros w; [done|].
  simpl. apply bind_keeps; [apply Hbody|]. intros y.
  apply bind_keeps; [apply IH|done].
Qed.

Lemma py_range_keeps stop step w : f (py_range stop step w).2 = f w.
Proof. unfold py_range. by repeat case_match. Qed.

End Keeps.

Lemma get_client_keeps cfg w :
  collections (_get_client cfg w).2 = collections w
  /\ embed_calls (_get_client cfg w).2 = embed_calls w
  /\ chat_calls (_get_client cfg w).2 = chat_calls w.
Proof. by destruct (get_client_world cfg w) as [-> | ->]. Qed.

Lemma call_embeddings_keeps cfg batch w :
  collections (call_embeddings cfg batch w).2 = collections w
  /\ chat_calls (call_embeddings cfg batch w).2 = chat_calls w.
Proof.
  unfold call_embeddings, bind, modify_world.
  by destruct (embeddings_create (embed_model cfg) batch).
Qed.

(** The embedder never writes to the store and never calls the chat
    service, whatever its outcome. *)
Lemma embed_texts_keeps cfg texts batch_size w :
  collections (embed_texts cfg texts batch_size w).2 = collections w
  /\ chat_calls (embed_texts cfg texts batch_size w).2 = chat_calls w.
Proof.
  split.
  - unfold embed_texts. apply bind_keeps; [apply get_client_keeps|].
    intros _. apply bind_keeps; [apply py_range_keeps|]. intros starts.
    apply bind_keeps; [|done]. apply for_each_keeps.
    intros. apply call_embeddings_keeps.
  - unfold embed_texts. apply bind_keeps; [apply get_client_keeps|].
    intros _. apply bind_keeps; [apply py_range_keeps|]. intros starts.
    apply bind_keeps; [|done]. apply for_each_keeps.
    intros. apply call_embeddings_keeps.
Qed.

(** X6 (ingest): [ingest] embeds before it touches the store. When the
    embedding step raises, [ingest] raises the same exception and every
    collection is as it was: a fresh ingest that fails there has not
    deleted the index it was meant to replace. No chat call is made. *)
Theorem ingest_embedding_failure fuel cfg (paths : list (list N))
    (append : bool) w chunks metadata e w1 :
  paths <> [] -> load_sources paths <> [] ->
  chunk_documents fuel cfg (load_sources paths) = Some (chunks, metadata) ->
  embed_texts cfg chunks 50 w = (Raise e, w1) ->
  ingest fuel cfg (Some paths) None append w = (Raise e, w1)
  /\ collections w1 = collections w
  /\ chat_calls w1 = chat_calls w.
Proof.
  intros Hp Hdocs Hchunks Hembed.
  rewrite ingest_paths by done. unfold ingest_docs. rewrite Hchunks.
  unfold bind at 1. rewrite Hembed. split; [done|].
  pose proof (embed_texts_keeps cfg chunks 50 w) as H.
  by rewrite Hembed in H.
Qed.

(** When the service rejects the first batch, [embed_texts] stops there:
    one call is logged and the exception carries the detail. *)
Lemma embed_texts_first_batch_fails cfg (texts : list (list N)) batch_size
    w detail :
  key_available cfg w -> 1 <= batch_size -> texts <> [] ->
  embeddings_create (embed_model cfg) (slice texts 0 (0 + batch_size))
    = inl detail ->
  embed_texts cfg texts batch_size w
  = (Raise (EmbeddingCallFailed detail),
     log_embed_call (slice texts 0 (0 + batch_size)) (with_client w)).
Proof.
  intros Hkey Hbs Htexts Hfail.
  unfold embed_texts, bind at 1. rewrite get_client_ok by done.
  unfold bind at 1, py_range.
  destruct (Z.eqb_spec batch_size 0); [lia|].
  destruct (Z.ltb_spec batch_size 0); [lia|]. unfold ret at 1.
  unfold range_step.
  assert (1 <= (len texts + batch_size - 1) / batch_size) as Hn.
  { apply Z.div_le_lower_bound; [lia|].
    destruct texts; [done|]. unfold len. simpl length. lia. }
  destruct (Z.to_nat ((len texts + batch_size - 1) / batch_size))
    as [|batches] eqn:E; [lia|].
  simpl seq. rewrite fmap_cons. change (Z.of_nat 0 * batch_size) with 0.
  unfold bind at 1. cbn [for_each]. unfold bind at 1.
  unfold call_embeddings at 1, bind at 1, modify_world at 1.
  by rewrite Hfail.
Qed.

(** The world after [query], whatever its outcome: the world after
    [_get_client], with the embedding call and then the chat call logged
    as far as the run went. *)
Lemma query_world cfg (question : list N) (top_k_arg : option Z) w :
  let w1 := (_get_client cfg w).2 in
  let w' := (query cfg question top_k_arg w).2 in
  w' = w1
  \/ w' = log_embed_call [question] w1
  \/ exists hits,
       w' = log_chat_call (chat_request cfg question hits)
              (log_embed_call [question] w1).
Proof.
  cbv zeta.
  destruct (query cfg question top_k_arg w) as [r w'] eqn:Hq.
  unfold query, bind at 1 in Hq.
  destruct (_get_client cfg w) as [[[]|e|] w1];
    [|left; by injection Hq as _ <-..].
  cbn [snd].
  cbv beta iota zeta delta [bind _get_collection get_world call_embeddings
    collection_query with_collection call_chat modify_world ret raise] in Hq.
  destruct (collections w1 !! collection_name cfg) as [c|] eqn:Ec;
    [|left; cbn beta iota in Hq; by injection Hq as _ <-].
  destruct (embeddings_create (embed_model cfg) [question]) as [d|[|q rest]];
    [right; left; cbn beta iota in Hq; by injection Hq as _ <-..|].
  cbn [collections log_embed_call] in Hq. rewrite Ec in Hq.
  cbv beta iota in Hq.
  match type of Hq with
  | context [chat_request cfg question ?h] => set (hits := h) in Hq
  end.
  right. right. exists hits.
  destruct (chat_complete _ _ _ _ _); cbn beta iota in Hq;
    by injection Hq as _ <-.
Qed.

(** X7 (query): [query] reads the store and never writes it: whatever its
    outcome, every collection is as before. It makes at most one
    embedding call, for the question alone, and at most one chat call,
    and a chat call only after the embedding call. *)
Theorem query_read_only cfg (question : list N) (top_k_arg : option Z) w :
  let w' := (query cfg question top_k_arg w).2 in
  collections w' = collections w
  /\ (embed_calls w' = embed_calls w
      \/ embed_calls w' = embed_calls w ++ [[question]])
  /\ (chat_calls w' = chat_calls w
      \/ exists hits,
           chat_calls w' = chat_calls w ++ [chat_request cfg question hits]
           /\ embed_calls w' = embed_calls w ++ [[question]]).
Proof.
  cbv zeta.
  pose proof (get_client_keeps cfg w) as (Hc & He & Hh).
  destruct (query_world cfg question top_k_arg w) as [->|[->|(hits & ->)]];
    cbn [collections embed_calls chat_calls log_embed_call log_chat_call];
    rewrite ?Hc, ?He, ?Hh.
  - auto.
  - auto.
  - split; [done|]. split; [by right|]. right. by exists hits.
Qed.

End EngineFailures.

Section EngineFailureExamples.
Import Stub StubVariants.

Lemma missing_key_stops_everything_witness :
  query (P:=keyless_platform) default_config (str "Quali sono le procedure?")
    None keyless_world
  = (Raise (ValueError (str "API key mancante. Imposta MISTRAL_API_KEY o passa api_key nella config.")),
     keyless_world).
Proof.
  apply (missing_key_stops_everything (P:=keyless_platform) 200
           default_config keyless_world).
  intros [H|[H|H]]; [discriminate H|by apply H|by apply H].
Defined.

Lemma ingest_embedding_failure_witness :
  seen_exception
    (ingest (P:=embedding_down_platform) 200 default_config
       (Some [str "a.txt"]) None false embedding_down_world).1
  = Some (EmbeddingCallFailed (str "503")).
Proof.
  destruct (ingest_embedding_failure (P:=embedding_down_platform) 200
              default_config [str "a.txt"] false embedding_down_world
              [replicate 120 97%N]
              (doc_metadata
                 {| doc_filename := str "a.txt"; doc_filepath := str "a.txt";
                    doc_source_dir := str "."; doc_text := replicate 120 97%N;
                    doc_hash := replicate 12 97%N; doc_size := 120;
                    doc_modified := str "2024-01-01T00:00:00" |}
                 [replicate 120 97%N])
              (EmbeddingCallFailed (str "503"))
              (log_embed_call (slice [replicate 120 97%N] 0 (0 + 50))
                 (with_client embedding_down_world)))
    as (Hrun & _).
  - discriminate.
  - vm_compute. discriminate.
  - vm_compute. reflexivity.
  - apply (embed_texts_first_batch_fails (P:=embedding_down_platform)).
    + right. right. vm_compute. discriminate.
    + lia.
    + discriminate.
    + reflexivity.
  - by rewrite Hrun.
Defined.

End EngineFailureExamples.

(** ** The store: dense record ids, clearing *)

Section StoreInvariants.
Context `{P : Platform}.
Implicit Types (w : World) (cfg : RAGConfig) (c : gmap (list N) VectorRecord).

Lemma issued_ids_app (a n : nat) :
  issued_ids 0 (a + n) = issued_ids 0 a ++ issued_ids (Z.of_nat a) n.
Proof.
  unfold issued_ids. rewrite seq_app, fmap_app. f_equal.
  replace (seq (0 + a) n) with ((fun x => a + x)%nat <$> seq 0 n)
    by (rewrite fmap_add_seq; f_equal; lia).
  rewrite <- list_fmap_compose.
  apply list_fmap_ext. intros i k _. simpl. f_equal. lia.
Qed.

Lemma dense_empty : dense (∅ : gmap (list N) VectorRecord).
Proof. unfold dense. by rewrite dom_empty_L, map_size_empty. Qed.

Lemma dense_fresh c i n :
  dense c -> i ∈ issued_ids (Z.of_nat (size c)) n -> c !! i = None.
Proof.
  intros Hd Hi. apply not_elem_of_dom. rewrite Hd, elem_of_list_to_set.
  intros H0. by eapply issued_ids_disjoint.
Qed.

(** Adding a batch under the next free ids keeps the ids dense. *)
Lemma dense_add c (docs : list (list N)) (embs : list vec)
    (metas : list ChunkMeta) :
  dense c -> length embs = length docs -> length metas = length docs ->
  let c' := foldl add_record c
              (zip_records (issued_ids (Z.of_nat (size c)) (length docs))
                 docs embs metas) in
  dense c' /\ size c' = (size c + length docs)%nat.
Proof.
  intros Hd He Hm c'.
  destruct (fresh_batch c (issued_ids (Z.of_nat (size c)) (length docs))
              docs embs metas) as (Hsize & Hdom).
  - by rewrite length_issued_ids.
  - by rewrite length_issued_ids.
  - by rewrite length_issued_ids.
  - apply NoDup_issued_ids. lia.
  - intros i Hi. by eapply dense_fresh.
  - rewrite length_issued_ids in Hsize. split; [|exact Hsize].
    subst c'. unfold dense. rewrite Hdom, Hsize, issued_ids_app.
    rewrite list_to_set_app_L. by rewrite <- Hd.
Qed.

(** X8 (ingest): dense ids are an invariant of [ingest]. If the records
    of the collection are [chunk_000000 .. chunk_(n-1)] (or there is no
    collection), then after an ingest that succeeds, fresh or appending,
    they are again [chunk_000000 .. chunk_(n'-1)], where [n'] is the old
    count (zero for a fresh ingest) plus the number of new chunks: no new
    chunk is dropped by an id that is taken. *)
Theorem ingest_keeps_ids_dense fuel cfg (paths : list (list N))
    (append : bool) (emb : list N -> vec) w all_chunks all_metadata :
  key_available cfg w ->
  (forall batch, embeddings_create (embed_model cfg) batch = inr (emb <$> batch)) ->
  paths <> [] -> load_sources paths <> [] ->
  chunk_documents fuel cfg (load_sources paths) = Some (all_chunks, all_metadata) ->
  (forall c, collections w !! collection_name cfg = Some c -> dense c) ->
  let old : nat :=
    if append then size (default ∅ (collections w !! collection_name cfg))
    else 0%nat in
  exists stats w' c',
    ingest fuel cfg (Some paths) None append w = (Ok stats, w')
    /\ collections w' !! collection_name cfg = Some c'
    /\ dense c'
    /\ size c' = (old + length all_chunks)%nat
    /\ chunks stats = len all_chunks.
Proof.
  intros Hkey Hemb Hp Hdocs Hchunks Hdense old.
  pose proof (chunk_documents_lengths _ _ _ _ _ Hchunks) as Hlen.
  destruct (ingest_docs_ok fuel cfg (load_sources paths) append emb w
              all_chunks all_metadata Hkey Hemb Hchunks Hlen)
    as (w' & Hrun & Hcoll & _).
  cbv zeta in Hcoll.
  set (c0 := if append then default ∅ (collections w !! collection_name cfg)
             else ∅) in *.
  assert (Hc0 : dense c0).
  { subst c0. destruct append; [|apply dense_empty].
    destruct (collections w !! collection_name cfg) as [c|] eqn:E;
      [by apply Hdense|apply dense_empty]. }
  assert (Hold : old = size c0).
  { subst old c0. destruct append; [done|by rewrite map_size_empty]. }
  destruct (dense_add c0 all_chunks (emb <$> all_chunks) all_metadata Hc0)
    as (Hd' & Hsize'); [by rewrite length_fmap|done|].
  eexists _, w', _. rewrite ingest_paths by done.
  split; [exact Hrun|]. split; [exact Hcoll|].
  split; [exact Hd'|]. split; [by rewrite Hold|done].
Qed.

(** X9 (clear): once the store is open, [clear] does not raise: the error
    of deleting a collection that does not exist is swallowed. It removes
    the collection of the engine and nothing else: the other collections,
    the client and the call logs are as before. Clearing again changes
    nothing, and a query after it, with a key at hand, fails because the
    collection does not exist, before any remote call. *)
Theorem clear_removes_collection cfg w :
  let w' := set_collections (delete (collection_name cfg) (collections w)) w in
  clear cfg w = (Ok tt, w')
  /\ collections w' !! collection_name cfg = None
  /\ (forall other, other <> collection_name cfg ->
        collections w' !! other = collections w !! other)
  /\ clear cfg w' = (Ok tt, w')
  /\ (key_available cfg w ->
      forall question top_k_arg,
        query cfg question top_k_arg w'
        = (Raise (CollectionNotFound (collection_name cfg)), with_client w')).
Proof.
  intros w'. unfold clear.
  assert (Hclear : forall w0,
    try_pass (delete_collection (collection_name cfg)) w0
    = (Ok tt, set_collections (delete (collection_name cfg) (collections w0)) w0)).
  { intros w0. unfold try_pass, delete_collection, bind, get_world.
    destruct (collections w0 !! collection_name cfg) eqn:E; [done|].
    unfold raise. rewrite delete_id by done. by destruct w0. }
  assert (Hnone : collections w' !! collection_name cfg = None)
    by apply lookup_delete_eq.
  split; [apply Hclear|]. split; [exact Hnone|]. split.
  { intros other Hne. subst w'. cbn [collections set_collections].
    by rewrite lookup_delete_ne. }
  split.
  - rewrite Hclear. f_equal. subst w'. unfold set_collections. cbn. f_equal.
    apply delete_id, lookup_delete_eq.
  - intros Hkey question top_k_arg.
    assert (Hkey' : key_available cfg w') by exact Hkey.
    unfold query, bind at 1. rewrite get_client_ok by done.
    unfold bind at 1, _get_collection, bind at 1, get_world.
    destruct (with_client_fields w') as (Hc & _). rewrite Hc, Hnone. done.
Qed.

(** X10 (clear, ingest): clearing and then appending is a fresh ingest.
    When the ingest succeeds, [clear()] followed by [ingest(append=True)]
    returns the same statistics as [ingest(append=False)] and leaves the
    same collections. *)
Theorem clear_then_append_is_fresh fuel cfg (paths : list (list N))
    (emb : list N -> vec) w all_chunks all_metadata :
  key_available cfg w ->
  (forall batch, embeddings_create (embed_model cfg) batch = inr (emb <$> batch)) ->
  paths <> [] -> load_sources paths <> [] ->
  chunk_documents fuel cfg (load_sources paths) = Some (all_chunks, all_metadata) ->
  exists stats w1 w2,
    ingest fuel cfg (Some paths) None false w = (Ok stats, w1)
    /\ bind (clear cfg) (fun _ => ingest fuel cfg (Some paths) None true) w
       = (Ok stats, w2)
    /\ collections w1 = collections w2.
Proof.
  intros Hkey Hemb Hp Hdocs Hchunks.
  pose proof (chunk_documents_lengths _ _ _ _ _ Hchunks) as Hlen.
  destruct (ingest_docs_ok fuel cfg (load_sources paths) false emb w
              all_chunks all_metadata Hkey Hemb Hchunks Hlen)
    as (w1 & Hrun1 & Hcoll1 & Hother1 & _).
  destruct (try_delete_collection (collection_name cfg) w)
    as (wc & Hclear & Hcollc & Hlogs).
  assert (Hkeyc : key_available cfg wc).
  { destruct Hlogs as (Hr & _). unfold key_available in *. by rewrite Hr. }
  destruct (ingest_docs_ok fuel cfg (load_sources paths) true emb wc
              all_chunks all_metadata Hkeyc Hemb Hchunks Hlen)
    as (w2 & Hrun2 & Hcoll2 & Hother2 & _).
  eexists _, w1, w2. rewrite ingest_paths by done.
  split; [exact Hrun1|]. split.
  - unfold bind, clear. rewrite Hclear. rewrite ingest_paths by done.
    exact Hrun2.
  - apply map_eq. intros name.
    destruct (decide (name = collection_name cfg)) as [->|Hne].
    + rewrite Hcoll1, Hcoll2. cbv zeta.
      rewrite Hcollc, lookup_delete_eq. done.
    + rewrite Hother1, Hother2 by done.
      by rewrite Hcollc, lookup_delete_ne.
Qed.

End StoreInvariants.

Section StoreInvariantExamples.
Import Stub StubVariants.

Lemma ingest_keeps_ids_dense_witness :
  exists stats1 w1 stats2 w2 c2,
    ingest 200 default_config (Some [str "a.txt"]) None false world0
      = (Ok stats1, w1)
    /\ ingest 200 default_config (Some [str "a.txt"; str "b.txt"]) None true w1
      = (Ok stats2, w2)
    /\ collections w2 !! collection_name default_config = Some c2
    /\ dense c2
    /\ size c2 = 3%nat.
Proof.
  assert (Hkey : forall w, key_available (P:=stub_platform) default_config w).
  { intros w. right. right. vm_compute. discriminate. }
  destruct (ingest_keeps_ids_dense (P:=stub_platform) 200 default_config
              [str "a.txt"] false stub_emb world0
              [replicate 120 97%N]
              (snd (default ([], [])
                 (chunk_documents 200 default_config
                    (load_sources [str "a.txt"])))))
    as (stats1 & w1 & c1 & Hrun1 & Hc1 & Hd1 & Hsize1 & _).
  - apply Hkey.
  - reflexivity.
  - discriminate.
  - vm_compute. discriminate.
  - vm_compute. reflexivity.
  - intros c Hc. unfold world0 in Hc. cbn [collections] in Hc.
    by rewrite lookup_empty in Hc.
  - destruct (ingest_keeps_ids_dense (P:=stub_platform) 200 default_config
                [str "a.txt"; str "b.txt"] true stub_emb w1
                [replicate 120 97%N;
                 replicate 60 98%N ++ replicate 30 32%N ++ replicate 60 99%N]
                (snd (default ([], [])
                   (chunk_documents 200 default_config
                      (load_sources [str "a.txt"; str "b.txt"])))))
      as (stats2 & w2 & c2 & Hrun2 & Hc2 & Hd2 & Hsize2 & _).
    + apply Hkey.
    + reflexivity.
    + discriminate.
    + vm_compute. discriminate.
    + vm_compute. reflexivity.
    + intros c Hc. rewrite Hc1 in Hc. by injection Hc as <-.
    + exists stats1, w1, stats2, w2, c2.
      split; [exact Hrun1|]. split; [exact Hrun2|]. split; [exact Hc2|].
      split; [exact Hd2|]. rewrite Hsize2, Hc1. simpl. by rewrite Hsize1.
Defined.

Lemma clear_removes_collection_witness :
  stored_count default_config world_with_a = Some 1%nat
  /\ stored_count default_config (clear default_config world_with_a).2 = None
  /\ seen_exception
       (query default_config (str "Quali sono le procedure?") None
          (clear default_config world_with_a).2).1
     = Some (CollectionNotFound (collection_name default_config)).
Proof.
  destruct (clear_removes_collection (P:=stub_platform) default_config
              world_with_a) as (Hclear & Hnone & _ & _ & Hquery).
  split; [vm_compute; reflexivity|].
  rewrite Hclear. cbn [snd]. split.
  - unfold stored_count. by rewrite Hnone.
  - rewrite Hquery; [done|]. right. right. vm_compute. discriminate.
Defined.

Lemma clear_then_append_is_fresh_witness :
  exists stats w1 w2,
    ingest 200 default_config (Some [str "b.txt"]) None false world_with_a
      = (Ok stats, w1)
    /\ bind (clear default_config)
         (fun _ => ingest 200 default_config (Some [str "b.txt"]) None true)
         world_with_a = (Ok stats, w2)
    /\ collections w1 = collections w2.
Proof.
  apply (clear_then_append_is_fresh (P:=stub_platform) 200 default_config
           [str "b.txt"] stub_emb world_with_a
           [replicate 60 98%N ++ replicate 30 32%N ++ replicate 60 99%N]
           (snd (default ([], [])
              (chunk_documents 200 default_config
                 (load_sources [str "b.txt"]))))).
  - right. right. vm_compute. discriminate.
  - reflexivity.
  - discriminate.
  - vm_compute. discriminate.
  - vm_compute. reflexivity.
Defined.

End StoreInvariantExamples.

(** ** Inspecting the index: file list and statistics *)

Section SortedFacts.

Lemma str_leb_total (a b : list N) : str_leb a b = true \/ str_leb b a = true.
Proof.
  revert b. induction a as [|x a IH]; intros [|y b]; simpl; auto.
  destruct (N.ltb_spec x y); [by left|].
  destruct (N.ltb_spec y x); [by right|].
  destruct (N.eqb_spec x y); [|lia].
  destruct (N.eqb_spec y x); [|lia].
  apply IH.
Qed.

Lemma str_leb_trans (a b c : list N) :
  str_leb a b = true -> str_leb b c = true -> str_leb a c = true.
Proof.
  revert b c. induction a as [|x a IH]; intros [|y b] [|z c]; simpl; try done.
  destruct (N.ltb_spec x y), (N.ltb_spec y z), (N.ltb_spec x z);
    destruct (N.eqb_spec x y), (N.eqb_spec y z), (N.eqb_spec x z);
    try done; try lia.
  apply IH.
Qed.

Lemma str_leb_antisym (a b : list N) :
  str_leb a b = true -> str_leb b a = true -> a = b.
Proof.
  revert b. induction a as [|x a IH]; intros [|y b]; simpl; try done.
  destruct (N.ltb_spec x y), (N.ltb_spec y x);
    destruct (N.eqb_spec x y), (N.eqb_spec y x); try done; try lia.
  intros H1 H2. subst. f_equal. by apply IH.
Qed.

#[local] Instance str_le_total : Total str_le.
Proof.
  intros a b. unfold str_le.
  destruct (str_leb_total a b) as [-> | ->]; [by left|by right].
Qed.

#[local] Instance str_le_trans : Transitive str_le.
Proof.
  intros a b c. unfold str_le. rewrite !Is_true_true. apply str_leb_trans.
Qed.

#[local] Instance str_le_antisym : AntiSymm (=) str_le.
Proof.
  intros a b. unfold str_le. rewrite !Is_true_true. apply str_leb_antisym.
Qed.

Lemma sorted_perm (s : gset (list N)) : sorted s ≡ₚ elements s.
Proof. apply merge_sort_Permutation. Qed.

Lemma elem_of_sorted (s : gset (list N)) f : f ∈ sorted s <-> f ∈ s.
Proof. by rewrite sorted_perm, elem_of_elements. Qed.

Lemma NoDup_sorted (s : gset (list N)) : NoDup (sorted s).
Proof. rewrite sorted_perm. apply NoDup_elements. Qed.

Lemma StronglySorted_sorted (s : gset (list N)) :
  StronglySorted str_le (sorted s).
Proof. apply (StronglySorted_merge_sort str_le). Qed.

Lemma sorted_empty : sorted ∅ = [].
Proof. unfold sorted. by rewrite elements_empty. Qed.

End SortedFacts.

Section InspectFacts.
Context `{V : StoreView}.
Implicit Types (w : World) (cfg : RAGConfig) (c : gmap (list N) VectorRecord).

Lemma fold_each_ok {A S} (body : S -> A -> M S) (g : S -> A -> S)
    (l : list A) (s : S) w :
  (forall s x, body s x w = (Ok (g s x), w)) ->
  fold_each l body s w = (Ok (foldl g s l), w).
Proof.
  intros Hbody. revert s. induction l as [|x l IH]; intros s; [done|].
  simpl. unfold bind. by rewrite Hbody, IH.
Qed.

Lemma add_filenames_union (s : gset (list N)) (metas : list ChunkMeta) :
  add_filenames s metas = s ∪ list_to_set (meta_filename <$> metas).
Proof.
  unfold add_filenames. revert s.
  induction metas as [|m metas IH]; intros s; simpl.
  - by rewrite (right_id_L ∅ (∪)).
  - rewrite IH. by rewrite (assoc_L (∪)).
Qed.

Lemma foldl_pages {A} (page : A -> list ChunkMeta) (l : list A)
    (s : gset (list N)) :
  foldl (fun s x => add_filenames s (page x)) s l
  = s ∪ list_to_set (meta_filename <$> concat (page <$> l)).
Proof.
  revert s. induction l as [|x l IH]; intros s; simpl.
  - by rewrite (right_id_L ∅ (∪)).
  - rewrite IH, add_filenames_union, fmap_app, list_to_set_app_L.
    by rewrite (assoc_L (∪)).
Qed.

Lemma fmap_slice {A B} (f : A -> B) (l : list A) (a b : Z) :
  f <$> slice l a b = slice (f <$> l) a b.
Proof.
  unfold slice, len. by rewrite fmap_take, fmap_drop, length_fmap.
Qed.

Lemma length_scan c : length (scan c) = size c.
Proof. by rewrite (scan_perm c), length_map_to_list. Qed.

Lemma stored_filenames_scan c :
  stored_filenames c
  = list_to_set ((fun r => meta_filename (rec_metadata r.2)) <$> scan c).
Proof.
  unfold stored_filenames. apply set_eq. intros f.
  rewrite !elem_of_list_to_set. by rewrite (scan_perm c).
Qed.

Lemma elem_of_stored_filenames c f :
  f ∈ stored_filenames c
  <-> exists id r, c !! id = Some r /\ meta_filename (rec_metadata r) = f.
Proof.
  unfold stored_filenames. rewrite elem_of_list_to_set, list_elem_of_fmap.
  split.
  - intros ([id r] & -> & Hin). apply elem_of_map_to_list in Hin. eauto.
  - intros (id & r & Hin & <-). exists (id, r). split; [done|].
    by apply elem_of_map_to_list.
Qed.

Lemma collection_get_ok name (limit offset : Z) w c :
  collections w !! name = Some c ->
  collection_get name limit offset w
  = (Ok ((fun r => rec_metadata r.2) <$> slice (scan c) offset (offset + limit)),
     w).
Proof.
  intros Hc. unfold collection_get, with_collection, bind, get_world.
  by rewrite Hc.
Qed.

(** What [list_indexed_files] returns when the collection exists. *)
Lemma list_indexed_files_run cfg w c :
  collections w !! collection_name cfg = Some c ->
  list_indexed_files cfg w = (Ok (sorted (stored_filenames c)), w).
Proof.
  intros Hc. unfold list_indexed_files, try_return, bind at 1.
  unfold _get_collection, bind at 1, get_world. rewrite Hc. unfold ret at 1.
  unfold bind at 1. rewrite (collection_count_ok _ _ c Hc).
  destruct (Z.eqb_spec (Z.of_nat (size c)) 0) as [Hz|Hnz].
  - assert (c = ∅) as -> by (apply map_size_empty_inv; lia).
    unfold ret. unfold stored_filenames.
    rewrite map_to_list_empty. cbn [fmap list_fmap list_to_set].
    by rewrite sorted_empty.
  - unfold bind at 1, py_range.
    destruct (Z.eqb_spec 1000 0); [lia|]. destruct (Z.ltb_spec 1000 0); [lia|].
    unfold ret at 1. unfold bind at 1.
    rewrite (fold_each_ok _
      (fun s offset => add_filenames s
         ((fun r => rec_metadata r.2)
            <$> slice (scan c) offset (offset + 1000)))).
    2:{ intros s x. unfold bind.
        by rewrite (collection_get_ok _ _ _ _ c Hc). }
    unfold ret.
    rewrite (foldl_pages (fun offset => (fun r => rec_metadata r.2)
                            <$> slice (scan c) offset (offset + 1000))).
    rewrite (left_id_L ∅ (∪)).
    rewrite stored_filenames_scan.
    replace ((fun r => meta_filename (rec_metadata r.2)) <$> scan c)
      with (meta_filename <$> ((fun r => rec_metadata r.2) <$> scan c))
      by (by rewrite <- list_fmap_compose).
    apply (f_equal (fun l => (Ok (sorted (list_to_set (meta_filename <$> l))), w))).
    rewrite <- (concat_slices ((fun r => rec_metadata r.2) <$> scan c) 1000)
      by lia.
    unfold len. rewrite length_fmap, length_scan. f_equal.
    apply list_fmap_ext. intros i offset _. apply fmap_slice.
Qed.

End InspectFacts.

Section InspectClaims.
Context `{V : StoreView}.
Implicit Types (w : World) (cfg : RAGConfig) (c : gmap (list N) VectorRecord).

Lemma list_indexed_files_missing cfg w :
  collections w !! collection_name cfg = None ->
  list_indexed_files cfg w = (Ok [], w).
Proof.
  intros Hc. unfold list_indexed_files, try_return, bind at 1.
  unfold _get_collection, bind at 1, get_world. by rewrite Hc.
Qed.

(** X11 (list_indexed_files): [list_indexed_files] never raises and does
    not change the engine. Its result is in ascending order without
    repetition, and a name is in it exactly when some record of the
    collection carries it as [filename]: the pages of 1000 records cover
    the collection, whatever its size. When the collection is missing or
    empty the result is the empty list. *)
Theorem list_indexed_files_complete cfg w :
  exists files,
    list_indexed_files cfg w = (Ok files, w)
    /\ StronglySorted str_le files
    /\ NoDup files
    /\ (forall f,
          f ∈ files <->
          exists c id r,
            collections w !! collection_name cfg = Some c
            /\ c !! id = Some r
            /\ meta_filename (rec_metadata r) = f).
Proof.
  destruct (collections w !! collection_name cfg) as [c|] eqn:Hc.
  - exists (sorted (stored_filenames c)).
    split; [by apply list_indexed_files_run|].
    split; [apply StronglySorted_sorted|]. split; [apply NoDup_sorted|].
    intros f. rewrite elem_of_sorted, elem_of_stored_filenames. split.
    + intros (id & r & ? & ?). by exists c, id, r.
    + intros (c' & id & r & [= <-] & ? & ?). by exists id, r.
  - exists []. split; [by apply list_indexed_files_missing|].
    split; [constructor|]. split; [constructor|].
    intros f. split; [by intros ?%not_elem_of_nil|].
    by intros (c' & id & r & ? & _).
Qed.

(** What [get_stats] returns when the collection exists. *)
Lemma get_stats_run cfg w c :
  collections w !! collection_name cfg = Some c ->
  get_stats cfg w
  = (Ok (inr {| total_chunks := Z.of_nat (size c);
                db_size_mb :=
                  round1 (if path_exists (chroma_path cfg)
                          then dir_size_mb (chroma_path cfg) else float_zero);
                sample_files :=
                  sorted (list_to_set
                    ((fun r => meta_filename (rec_metadata r.2))
                       <$> take (Nat.min (size c) 100) (scan c)));
                stats_collection_name := collection_name cfg |}), w).
Proof.
  intros Hc. unfold get_stats, try_return, bind at 1.
  unfold _get_collection, bind at 1, get_world. rewrite Hc. unfold ret at 1.
  unfold bind at 1. rewrite (collection_count_ok _ _ c Hc).
  unfold bind at 1, collection_peek.
  rewrite (collection_get_ok _ _ _ _ c Hc). unfold ret.
  do 4 f_equal.
  rewrite add_filenames_union, (left_id_L ∅ (∪)).
  rewrite slice_take_drop by lia. rewrite drop_0.
  rewrite <- list_fmap_compose.
  replace (Z.to_nat (Z.min (Z.of_nat (size c)) 100))
    with (Nat.min (size c) 100) by lia.
  done.
Qed.

(** X12 (get_stats): [get_stats] never raises and does not change the
    engine, whatever the state of the store. With no collection it returns
    the error text of the store. For a collection, empty or not, it
    returns the number of records and the collection name; [sample_files]
    is sorted without repetition, is empty exactly when the collection is
    empty, and is part of what [list_indexed_files] returns: the two lists
    are equal when the collection has at most 100 records. *)
Theorem get_stats_sample cfg w :
  (exists result, get_stats cfg w = (Ok result, w))
  /\ (collections w !! collection_name cfg = None ->
      get_stats cfg w
      = (Ok (inl (exn_text (CollectionNotFound (collection_name cfg)))), w))
  /\ (forall c,
        collections w !! collection_name cfg = Some c ->
        exists stats files,
          get_stats cfg w = (Ok (inr stats), w)
          /\ list_indexed_files cfg w = (Ok files, w)
          /\ total_chunks stats = Z.of_nat (size c)
          /\ stats_collection_name stats = collection_name cfg
          /\ StronglySorted str_le (sample_files stats)
          /\ NoDup (sample_files stats)
          /\ (sample_files stats = [] <-> size c = 0%nat)
          /\ sample_files stats ⊆ files
          /\ ((size c <= 100)%nat -> sample_files stats = files)).
Proof.
  assert (Hmissing : collections w !! collection_name cfg = None ->
            get_stats cfg w
            = (Ok (inl (exn_text (CollectionNotFound (collection_name cfg)))),
               w)).
  { intros Hc. unfold get_stats, try_return, bind at 1.
    unfold _get_collection, bind at 1, get_world. by rewrite Hc. }
  split.
  { destruct (collections w !! collection_name cfg) as [c|] eqn:Hc.
    - eexists. by apply get_stats_run.
    - eexists. by apply Hmissing. }
  split; [exact Hmissing|].
  intros c Hc. eexists _, _.
  split; [by apply get_stats_run|].
  split; [by apply list_indexed_files_run|].
  cbn [total_chunks stats_collection_name sample_files].
  split; [done|]. split; [done|].
  split; [apply StronglySorted_sorted|]. split; [apply NoDup_sorted|].
  split; [|split].
  - pose proof (length_scan c) as Hlen. split.
    + intros Hempty.
      destruct (scan c) as [|[id r] rest] eqn:Hscan; [by simpl in Hlen|].
      exfalso.
      assert (Hin : meta_filename (rec_metadata r)
                    ∈ sorted (list_to_set
                        ((fun r => meta_filename (rec_metadata r.2))
                           <$> take (Nat.min (size c) 100) ((id, r) :: rest)))).
      { rewrite elem_of_sorted, elem_of_list_to_set.
        destruct (Nat.min (size c) 100) as [|k] eqn:Hk;
          [simpl in Hlen; lia|].
        simpl. by left. }
      rewrite Hempty in Hin. by apply not_elem_of_nil in Hin.
    + intros Hzero. rewrite Hzero. cbn [Nat.min take fmap list_fmap list_to_set].
      apply sorted_empty.
  - intros f. rewrite !elem_of_sorted, stored_filenames_scan.
    rewrite !elem_of_list_to_set, !list_elem_of_fmap.
    intros (x & -> & Hx). exists x. split; [done|].
    by eapply subseteq_take.
  - intros Hsmall. rewrite stored_filenames_scan.
    rewrite take_ge; [done|]. rewrite length_scan. lia.
Qed.

Lemma elem_of_doc_metadata doc (cs : list (list N)) f :
  f ∈ meta_filename <$> doc_metadata doc cs
  <-> cs <> [] /\ f = doc_filename doc.
Proof.
  unfold doc_metadata. rewrite list_elem_of_fmap. split.
  - intros (m & -> & Hm). apply elem_of_lookup_imap in Hm as (i & y & -> & Hy).
    split; [|done]. intros ->. by rewrite lookup_nil in Hy.
  - intros (Hne & ->). destruct cs as [|c0 cs]; [done|].
    exists (mk_meta doc (Z.of_nat 0) (len (c0 :: cs))). split; [done|].
    apply (elem_of_lookup_imap_2
             (fun i _ => mk_meta doc (Z.of_nat i) (len (c0 :: cs)))
             (c0 :: cs) c0 0%nat). done.
Qed.

Lemma elem_of_concat {A} (x : A) (ls : list (list A)) :
  x ∈ concat ls <-> exists l, x ∈ l /\ l ∈ ls.
Proof.
  induction ls as [|l0 ls IH]; simpl.
  - split; [by intros ?%not_elem_of_nil|].
    by intros (l & _ & ?%not_elem_of_nil).
  - rewrite elem_of_app, IH. split.
    + intros [H|(l & Hx & Hl)]; [exists l0|exists l];
        (split; [done|]); [by left|by right].
    + intros (l & Hx & [->|Hl]%elem_of_cons); [by left|right; by exists l].
Qed.

Lemma elem_of_all_metadata (docs : list Document)
    (per_doc : list (list (list N))) f :
  f ∈ meta_filename <$> concat (zip_with doc_metadata docs per_doc)
  <-> exists d doc cs,
        docs !! d = Some doc /\ per_doc !! d = Some cs
        /\ cs <> [] /\ doc_filename doc = f.
Proof.
  rewrite list_elem_of_fmap. split.
  - intros (m & -> & Hm). apply elem_of_concat in Hm as (ms & Hm & Hms).
    apply elem_of_lookup_zip_with in Hms as (d & doc & cs & -> & Hd & Hcs).
    assert (meta_filename m ∈ meta_filename <$> doc_metadata doc cs) as Hf
      by by apply list_elem_of_fmap_2.
    apply elem_of_doc_metadata in Hf as (Hne & Hf).
    by exists d, doc, cs.
  - intros (d & doc & cs & Hd & Hcs & Hne & <-).
    assert (doc_filename doc ∈ meta_filename <$> doc_metadata doc cs) as Hf
      by by apply elem_of_doc_metadata.
    apply list_elem_of_fmap in Hf as (m & Hfm & Hm).
    exists m. split; [done|]. apply elem_of_concat.
    exists (doc_metadata doc cs). split; [done|].
    apply (elem_of_lookup_zip_with_2 doc_metadata docs per_doc doc cs
             (doc_metadata doc cs) d Hd Hcs).
Qed.

(** The file names of a collection written in one batch under distinct
    ids are the file names of the metadata records. *)
Lemma stored_filenames_batch (ids docs : list (list N)) (embs : list vec)
    (metas : list ChunkMeta) :
  length docs = length ids -> length embs = length ids ->
  length metas = length ids -> NoDup ids ->
  stored_filenames (foldl add_record ∅ (zip_records ids docs embs metas))
  = list_to_set (meta_filename <$> metas).
Proof.
  intros Hd He Hm Hnd.
  destruct (foldl_add_record_fresh ∅ (zip_records ids docs embs metas))
    as (_ & Hdom & Hlook).
  { by rewrite zip_records_fst. }
  { intros. apply lookup_empty. }
  rewrite zip_records_fst in Hdom by done.
  assert (Hrec : forall j id, ids !! j = Some id ->
            exists d e m,
              metas !! j = Some m
              /\ zip_records ids docs embs metas !! j
                 = Some (id, {| rec_document := d; rec_embedding := e;
                                rec_metadata := m |})).
  { intros j id Hj.
    assert (j < length ids)%nat as Hlt by by eapply lookup_lt_Some.
    destruct (lookup_lt_is_Some_2 docs j ltac:(lia)) as [d Hdj].
    destruct (lookup_lt_is_Some_2 embs j ltac:(lia)) as [e Hej].
    destruct (lookup_lt_is_Some_2 metas j ltac:(lia)) as [m Hmj].
    exists d, e, m. split; [done|]. by apply zip_records_lookup. }
  apply set_eq. intros f.
  rewrite elem_of_stored_filenames, elem_of_list_to_set, list_elem_of_fmap.
  split.
  - intros (id & r & Hr & <-).
    assert (id ∈ dom (foldl add_record ∅ (zip_records ids docs embs metas)))
      as Hin by (apply elem_of_dom; eauto).
    rewrite Hdom, dom_empty_L, (left_id_L ∅ (∪)), elem_of_list_to_set in Hin.
    apply list_elem_of_lookup in Hin as (j & Hj).
    destruct (Hrec j id Hj) as (d & e & m & Hmj & Hzj).
    rewrite (Hlook j id _ Hzj) in Hr. injection Hr as <-.
    exists m. split; [done|]. by eapply list_elem_of_lookup_2.
  - intros (m & -> & Hin). apply list_elem_of_lookup in Hin as (j & Hmj).
    assert (j < length metas)%nat as Hlt by by eapply lookup_lt_Some.
    destruct (lookup_lt_is_Some_2 ids j ltac:(lia)) as [id Hj].
    destruct (Hrec j id Hj) as (d & e & m' & Hmj' & Hzj).
    rewrite Hmj in Hmj'. injection Hmj' as <-.
    exists id. eexists. split; [by eapply Hlook|done].
Qed.

(** X13 (ingest, list_indexed_files): after a fresh ingest that succeeds,
    [list_indexed_files] lists exactly the file names of the loaded
    documents that gave at least one chunk. A document whose text gives no
    chunk is counted in the statistics of the ingest and absent from the
    list; documents are told apart by file name only. *)
Theorem indexed_files_after_ingest fuel cfg (paths : list (list N))
    (emb : list N -> vec) w all_chunks all_metadata :
  key_available cfg w ->
  (forall batch, embeddings_create (embed_model cfg) batch = inr (emb <$> batch)) ->
  paths <> [] -> load_sources paths <> [] ->
  chunk_documents fuel cfg (load_sources paths) = Some (all_chunks, all_metadata) ->
  exists stats w1 files,
    ingest fuel cfg (Some paths) None false w = (Ok stats, w1)
    /\ documents stats = len (load_sources paths)
    /\ list_indexed_files cfg w1 = (Ok files, w1)
    /\ forall f,
         f ∈ files <->
         exists doc cs,
           doc ∈ load_sources paths
           /\ chunk_text fuel cfg (doc_text doc) = Some cs
           /\ cs <> []
           /\ doc_filename doc = f.
Proof.
  intros Hkey Hemb Hp Hdocs Hchunks.
  pose proof (chunk_documents_lengths _ _ _ _ _ Hchunks) as Hlen.
  destruct (ingest_docs_ok fuel cfg (load_sources paths) false emb w
              all_chunks all_metadata Hkey Hemb Hchunks Hlen)
    as (w1 & Hrun & Hcoll & _).
  cbv zeta in Hcoll. rewrite map_size_empty in Hcoll.
  apply chunk_documents_loop_inv in Hchunks
    as (per_doc & HF & [= -> ->]). simpl in *.
  eexists _, w1, _. rewrite ingest_paths by done.
  split; [exact Hrun|]. split; [done|].
  split; [by apply list_indexed_files_run|].
  intros f. rewrite elem_of_sorted.
  rewrite stored_filenames_batch, elem_of_list_to_set, elem_of_all_metadata.
  - split.
    + intros (d & doc & cs & Hd & Hcs & Hne & Hf). exists doc, cs.
      split; [by eapply list_elem_of_lookup_2|].
      split; [|done]. by apply (Forall2_lookup_lr _ _ _ d _ _ HF).
    + intros (doc & cs & Hin & Hcs & Hne & Hf).
      apply list_elem_of_lookup in Hin as (d & Hd).
      destruct (Forall2_lookup_l _ _ _ d _ HF Hd) as (cs' & Hcs' & Hrun').
      rewrite Hcs in Hrun'. injection Hrun' as <-.
      by exists d, doc, cs.
  - by rewrite length_issued_ids.
  - by rewrite length_issued_ids, length_fmap.
  - by rewrite length_issued_ids.
  - apply NoDup_issued_ids. lia.
Qed.

End InspectClaims.

Section InspectExamples.
Import Stub StubVariants.

Lemma list_indexed_files_complete_witness :
  exists files,
    list_indexed_files default_config world_with_a = (Ok files, world_with_a)
    /\ NoDup files.
Proof.
  destruct (list_indexed_files_complete (P:=stub_platform) default_config
              world_with_a) as (files & Hrun & _ & Hnd & _).
  exists files. split; [exact Hrun|exact Hnd].
Defined.

Lemma get_stats_sample_witness :
  exists stats files,
    get_stats default_config world_with_a = (Ok (inr stats), world_with_a)
    /\ list_indexed_files default_config world_with_a = (Ok files, world_with_a)
    /\ total_chunks stats = 1
    /\ sample_files stats = files.
Proof.
  destruct (collections world_with_a !! collection_name default_config)
    as [c|] eqn:Hc.
  2:{ apply (f_equal (fmap (M:=option) size)) in Hc.
      vm_compute in Hc. discriminate. }
  assert (Hsize : size c = 1%nat).
  { assert (Hone : size <$> (collections world_with_a
                               !! collection_name default_config)
                   = Some 1%nat) by (vm_compute; reflexivity).
    rewrite Hc in Hone. by injection Hone. }
  destruct (get_stats_sample (P:=stub_platform) default_config world_with_a)
    as (_ & _ & Hstats).
  destruct (Hstats c Hc)
    as (stats & files & Hrun & Hfiles & Htotal & _ & _ & _ & _ & _ & Heq).
  exists stats, files. split; [exact Hrun|]. split; [exact Hfiles|].
  split; [by rewrite Htotal, Hsize|]. apply Heq. lia.
Defined.

Lemma indexed_files_after_ingest_witness :
  exists stats w1 files,
    ingest 200 default_config (Some [str "a.txt"; str "short.txt"]) None false
      world0 = (Ok stats, w1)
    /\ documents stats = 2
    /\ list_indexed_files default_config w1 = (Ok files, w1)
    /\ (str "a.txt" ∈ files)
    /\ ~ (str "short.txt" ∈ files).
Proof.
  destruct (indexed_files_after_ingest (P:=stub_platform) 200 default_config
              [str "a.txt"; str "short.txt"] stub_emb world0
              [replicate 120 97%N]
              (snd (default ([], [])
                 (chunk_documents 200 default_config
                    (load_sources [str "a.txt"; str "short.txt"])))))
    as (stats & w1 & files & Hrun & Hdocs & Hfiles & Hin).
  - right. right. vm_compute. discriminate.
  - reflexivity.
  - discriminate.
  - vm_compute. discriminate.
  - vm_compute. reflexivity.
  - assert (Hload : exists docA docS,
              load_sources [str "a.txt"; str "short.txt"] = [docA; docS]
              /\ doc_filename docA = str "a.txt"
              /\ doc_text docA = replicate 120 97%N
              /\ doc_text docS = replicate 20 100%N).
    { eexists _, _. split; [vm_compute; reflexivity|].
      repeat split; vm_compute; reflexivity. }
    destruct Hload as (docA & docS & Hload & HnameA & HtextA & HtextS).
    exists stats, w1, files. split; [exact Hrun|].
    split; [by rewrite Hdocs, Hload|].
    split; [exact Hfiles|]. split.
    + apply Hin. exists docA, [replicate 120 97%N].
      split; [rewrite Hload; by left|].
      split; [rewrite HtextA; vm_compute; reflexivity|].
      split; [discriminate|exact HnameA].
    + intros (doc & cs & Hdoc & Hcs & Hne & Hname)%Hin.
      rewrite Hload in Hdoc.
      apply elem_of_cons in Hdoc as [->|Hdoc].
      * rewrite HnameA in Hname. vm_compute in Hname. discriminate Hname.
      * apply list_elem_of_singleton in Hdoc as ->.
        rewrite HtextS in Hcs. vm_compute in Hcs. injection Hcs as <-.
        exact (Hne eq_refl).
Defined.

End InspectExamples.

(** ** The loader: what a loaded document is, how a manifest is read *)

Section LoaderFacts.
Context `{P : Platform}.

(** X14 (load_sources): every document that [load_sources] returns comes
    from a listed path that exists, either the path itself (a file) or an
    entry of its recursive listing; the file is not a directory, has a
    supported suffix and a name that starts with neither ["."] nor ["~"].
    Its [text] is the stripped extracted text and is not empty, while
    [size] and [hash] are taken from the text before stripping, so
    [len(text) <= size]. *)
Theorem load_sources_documents (paths : list (list N)) :
  Forall (fun doc =>
    let file := doc_filepath doc in
    (exists p, p ∈ paths
       /\ path_exists (path_resolve p) = true
       /\ (if path_is_file (path_resolve p) then file = path_resolve p
           else file ∈ path_rglob_sorted (path_resolve p)))
    /\ path_is_dir file = false
    /\ path_suffix_lower file ∈ SUPPORTED_EXTENSIONS
    /\ startswith (path_name file) (str ".") = false
    /\ startswith (path_name file) (str "~") = false
    /\ doc_filename doc = path_name file
    /\ doc_source_dir doc = path_parent file
    /\ doc_text doc = strip (extract_text file)
    /\ doc_text doc <> []
    /\ strip (doc_text doc) = doc_text doc
    /\ doc_size doc = len (extract_text file)
    /\ len (doc_text doc) <= doc_size doc
    /\ doc_hash doc = md5_hex12 (extract_text file))
    (load_sources paths).
Proof.
  apply Forall_forall. intros doc Hdoc.
  unfold load_sources in Hdoc.
  apply list_elem_of_bind in Hdoc as (p & Hdoc & Hp).
  unfold load_path in Hdoc.
  destruct (path_exists (path_resolve p)) eqn:Hex;
    [|by apply not_elem_of_nil in Hdoc].
  cbn [negb] in Hdoc.
  apply list_elem_of_bind in Hdoc as (file & Hdoc & Hfile).
  unfold load_file in Hdoc.
  destruct (path_is_dir file) eqn:Hdir; [by apply not_elem_of_nil in Hdoc|].
  destruct (bool_decide (path_suffix_lower file ∈ SUPPORTED_EXTENSIONS))
    eqn:Hsuf; [|by apply not_elem_of_nil in Hdoc].
  apply bool_decide_eq_true in Hsuf. cbn [negb] in Hdoc.
  destruct (startswith (path_name file) (str ".")) eqn:Hdot;
    [by apply not_elem_of_nil in Hdoc|].
  destruct (startswith (path_name file) (str "~")) eqn:Htilde;
    [by apply not_elem_of_nil in Hdoc|].
  cbn [orb] in Hdoc.
  destruct (strip (extract_text file)) as [|c s] eqn:Hstrip;
    [by apply not_elem_of_nil in Hdoc|].
  apply list_elem_of_singleton in Hdoc as ->.
  cbn [doc_filepath doc_filename doc_source_dir doc_text doc_hash doc_size
       doc_modified].
  split.
  { exists p. split; [done|]. split; [done|].
    destruct (path_is_file (path_resolve p));
      [by apply list_elem_of_singleton in Hfile|done]. }
  repeat (split; [done|]).
  split; [by rewrite <- Hstrip, strip_idem|].
  split; [done|]. split; [|done].
  rewrite <- Hstrip.
  destruct (substring_strip (extract_text file)) as (before & after & Heq).
  rewrite Heq at 2. rewrite !len_app.
  pose proof (len_nonneg before). pose proof (len_nonneg after). lia.
Qed.

Lemma splitlines_go_line (cur l s : list N) :
  Forall (fun c => is_linebreak c = false) l ->
  splitlines_go cur (l ++ s) = splitlines_go (reverse l ++ cur) s.
Proof.
  revert cur. induction l as [|c l IH]; intros cur Hl; [done|].
  apply Forall_cons in Hl as [Hc Hl]. simpl.
  destruct (N.eqb_spec c 13) as [->|_]; [done|].
  rewrite Hc, IH by done. by rewrite reverse_cons, <- app_assoc.
Qed.

Lemma splitlines_line (l : list N) :
  Forall (fun c => is_linebreak c = false) l ->
  splitlines l = match l with [] => [] | _ => [l] end.
Proof.
  intros Hl. unfold splitlines.
  rewrite <- (app_nil_r l) at 1. rewrite splitlines_go_line by done.
  rewrite app_nil_r. destruct l as [|c l]; [done|]. simpl.
  destruct (reverse (c :: l)) eqn:E.
  - apply (f_equal length) in E. rewrite length_reverse in E. done.
  - by rewrite <- E, reverse_involutive.
Qed.

Lemma splitlines_line_break (l s : list N) :
  Forall (fun c => is_linebreak c = false) l ->
  splitlines (l ++ 10%N :: s) = l :: splitlines s.
Proof.
  intros Hl. unfold splitlines. rewrite splitlines_go_line by done.
  rewrite app_nil_r. simpl. by rewrite reverse_involutive.
Qed.

Lemma strip_nil : strip [] = [].
Proof. done. Qed.

(** X15 (load_sources_file): a manifest whose lines are joined by
    ["\n"] is read as those lines, stripped, without the lines that are
    blank and without those whose first character after stripping is
    ["#"]; the order is kept and nothing is deduplicated. *)
Theorem manifest_of_lines (lines : list (list N)) :
  Forall (Forall (fun c => is_linebreak c = false)) lines ->
  manifest_paths (join [10%N] lines)
  = filter (fun line => line <> [] /\ startswith line (str "#") = false)
      (strip <$> lines).
Proof.
  unfold manifest_paths.
  induction lines as [|l lines IH]; intros Hlines; [done|].
  apply Forall_cons in Hlines as [Hl Hlines].
  destruct lines as [|l' lines].
  - simpl join. rewrite splitlines_line by done.
    destruct l as [|c l]; [|done].
    simpl. rewrite filter_cons. rewrite decide_False; [done|].
    by intros [? _].
  - change (join [10%N] (l :: l' :: lines))
      with (l ++ 10%N :: join [10%N] (l' :: lines)).
    rewrite splitlines_line_break by done.
    rewrite !fmap_cons, !filter_cons. rewrite IH by done.
    by rewrite fmap_cons.
Qed.

Lemma startswith_hash_strip (l : list N) :
  startswith l (str "#") = true -> startswith (strip l) (str "#") = true.
Proof.
  intros Hl. unfold startswith in *.
  apply bool_decide_eq_true in Hl. apply bool_decide_eq_true.
  change (str "#") with [35%N] in *.
  destruct l as [|x l]; [done|]. simpl in Hl. rewrite take_0 in Hl.
  injection Hl as ->. unfold strip.
  change (lstrip (35%N :: l)) with (35%N :: l).
  rewrite rstrip_cons. by destruct (rstrip l).
Qed.

(** X16 (ingest_from_paths, load_sources_file): the text box of the web
    UI and the manifest file are read by two different rules. The
    manifest tests for ["#"] after stripping the line, the web UI before:
    the paths of the manifest are those of the web UI that do not start
    with ["#"], and an indented comment line is taken by the web UI as a
    path. *)
Theorem ui_paths_keep_indented_comments (text : list N) :
  manifest_paths (strip text)
  = filter (fun p => startswith p (str "#") = false) (ui_paths text).
Proof.
  unfold manifest_paths, ui_paths.
  induction (splitlines (strip text)) as [|l ls IH]; [done|].
  rewrite fmap_cons, !filter_cons.
  destruct (decide (strip l = [])) as [Hempty|Hne].
  - rewrite decide_False by (by intros [? _]).
    rewrite decide_False by (by intros [? _]). done.
  - destruct (startswith l (str "#")) eqn:Hl.
    + rewrite (startswith_hash_strip l Hl).
      rewrite decide_False by (by intros [_ ?]).
      rewrite decide_False by (by intros [_ ?]). done.
    + rewrite (decide_True (P := strip l <> [] /\ false = false)) by done.
      rewrite fmap_cons, filter_cons.
      destruct (startswith (strip l) (str "#")) eqn:Hs.
      * rewrite decide_False by (by intros [_ ?]).
        rewrite decide_False by done. done.
      * rewrite decide_True by done. rewrite decide_True by done.
        by rewrite IH.
Qed.

End LoaderFacts.

Section LoaderFactsExamples.
Import Stub.

Lemma manifest_of_lines_witness :
  manifest_paths
    (join [10%N] [str "# documenti"; str "  a.txt "; []; str " # nota";
                  str "b.txt"; str "a.txt"])
  = [str "a.txt"; str "b.txt"; str "a.txt"].
Proof.
  rewrite (manifest_of_lines
             [str "# documenti"; str "  a.txt "; []; str " # nota";
              str "b.txt"; str "a.txt"]).
  - vm_compute. reflexivity.
  - repeat constructor.
Defined.

(** An indented comment is a path for the web UI and a comment for the
    manifest. *)
Example ui_paths_indented_comment :
  ui_paths (str "a.txt" ++ [10%N] ++ str "  # nota")
    = [str "a.txt"; str "# nota"]
  /\ manifest_paths (str "a.txt" ++ [10%N] ++ str "  # nota") = [str "a.txt"].
Proof. split; vm_compute; reflexivity. Qed.

End LoaderFactsExamples.

(** ** The configuration manager *)

Section ConfigFacts.
Context `{P : Platform} `{E : Environ}.
Implicit Types (m : Manager) (d : dict) (fs : list dict).

Lemma label_is_not_path : str "label" <> str "path".
Proof. intros H. vm_compute in H. discriminate H. Qed.

Lemma to_dict_path fc : to_dict fc !! str "path" = Some (path fc).
Proof.
  unfold to_dict. rewrite lookup_insert_ne by apply label_is_not_path.
  apply lookup_insert_eq.
Qed.

Lemma to_dict_label fc :
  to_dict fc !! str "label"
  = Some (match label fc with [] => path_name (path fc) | l => l end).
Proof. unfold to_dict. apply lookup_insert_eq. Qed.

(** X17 (FolderConfig): [from_dict(to_dict(fc))] has the path of [fc] and
    its label, or the name of the path when the label is empty; it is
    [fc] itself when the label is not empty, and turning it into a dict
    again gives the same dict. A dict without ["path"] raises [KeyError],
    one without ["label"] gets the empty label. *)
Theorem folder_round_trip fc :
  let fc' := {| path := path fc;
                label := match label fc with
                         | [] => path_name (path fc)
                         | l => l
                         end |} in
  from_dict (to_dict fc) = inr fc'
  /\ to_dict fc' = to_dict fc
  /\ (label fc <> [] -> from_dict (to_dict fc) = inr fc)
  /\ (forall d, d !! str "path" = None ->
        from_dict d = inl (KeyError (str "path")))
  /\ (forall d p, d !! str "path" = Some p -> d !! str "label" = None ->
        from_dict d = inr {| path := p; label := [] |}).
Proof.
  intros fc'.
  assert (Hfrom : from_dict (to_dict fc) = inr fc').
  { unfold from_dict. by rewrite to_dict_path, to_dict_label. }
  split; [exact Hfrom|]. split.
  { unfold to_dict, fc'. cbn [path label].
    destruct (label fc) as [|c l] eqn:Hl; [|done].
    by destruct (path_name (path fc)). }
  split.
  { intros Hne. rewrite Hfrom. f_equal. destruct fc as [p l]. unfold fc'.
    cbn in *. by destruct l. }
  split.
  - intros d Hd. unfold from_dict. by rewrite Hd.
  - intros d p Hp Hl. unfold from_dict. by rewrite Hp, Hl.
Qed.

Lemma already_configured_wf fs p :
  Forall (fun d => is_Some (d !! str "path")) fs ->
  already_configured fs p
  = inr (bool_decide (p ∈ omap (fun d : dict => d !! str "path") fs)).
Proof.
  induction fs as [|f fs IH]; intros Hwf.
  - cbn [already_configured omap list_omap].
    rewrite bool_decide_eq_false_2; [done|]. apply not_elem_of_nil.
  - apply Forall_cons in Hwf as [[q Hq] Hwf]. cbn [already_configured omap
      list_omap]. rewrite Hq. destruct (decide (q = p)) as [->|Hne].
    + rewrite bool_decide_eq_true_2 by done.
      rewrite bool_decide_eq_true_2; [done|]. by left.
    + rewrite bool_decide_eq_false_2 by done. rewrite IH by done.
      f_equal. apply bool_decide_ext. rewrite elem_of_cons.
      split; [by right|]. intros [Heq|Hin]; [congruence|done].
Qed.

Lemma without_path_wf fs p :
  Forall (fun d => is_Some (d !! str "path")) fs ->
  exists kept,
    without_path fs p = inr kept
    /\ omap (fun d : dict => d !! str "path") kept
       = filter (fun q => q <> p) (omap (fun d : dict => d !! str "path") fs)
    /\ Forall (fun d => is_Some (d !! str "path")) kept
    /\ (p ∉ omap (fun d : dict => d !! str "path") fs -> kept = fs).
Proof.
  induction fs as [|f fs IH]; intros Hwf.
  - exists []. by repeat split.
  - apply Forall_cons in Hwf as [[q Hq] Hwf].
    destruct (IH Hwf) as (kept & Hrun & Hpaths & Hkept & Hsame).
    cbn [without_path omap list_omap]. rewrite Hq, Hrun.
    rewrite filter_cons.
    destruct (decide (q = p)) as [->|Hne].
    + rewrite bool_decide_eq_true_2 by done. exists kept.
      rewrite decide_False by (intros H; by apply H).
      split; [done|]. split; [done|]. split; [done|].
      intros Hnot. exfalso. apply Hnot. by left.
    + rewrite bool_decide_eq_false_2 by done. exists (f :: kept).
      rewrite decide_True by done.
      split; [done|]. split.
      { cbn [omap list_omap]. by rewrite Hq, Hpaths. }
      split; [by constructor|].
      intros Hnot. f_equal. apply Hsame. intros Hin. apply Hnot. by right.
Qed.

Lemma configured_paths_snoc m fc :
  omap (fun d : dict => d !! str "path") (folders (_config m) ++ [to_dict fc])
  = configured_paths m ++ [path fc].
Proof.
  unfold configured_paths. rewrite omap_app.
  cbn [omap list_omap]. by rewrite to_dict_path.
Qed.

(** What [add_folder] does with a new directory. *)
Lemma add_folder_new (path_arg label_arg : list N) m :
  well_formed m ->
  strip path_arg <> [] ->
  path_exists (strip path_arg) = true ->
  path_is_dir (strip path_arg) = true ->
  strip path_arg ∉ configured_paths m ->
  let added :=
    to_dict {| path := strip path_arg;
               label := match label_arg with
                        | [] => path_name (strip path_arg)
                        | l => l
                        end |} in
  let c1 := set_folders (folders (_config m) ++ [added]) (_config m) in
  add_folder path_arg label_arg m
  = match write_fault m with
    | Some detail => (inl (SaveError detail), set_config c1 m)
    | None =>
        (inr (str "Cartella aggiunta: " ++ strip path_arg),
         {| _config := c1; on_disk := Stored c1; write_fault := None |})
    end.
Proof.
  intros Hwf Hne Hex Hdir Hnot. cbv zeta. unfold add_folder.
  destruct (strip path_arg) as [|c p] eqn:Hp; [done|].
  rewrite <- Hp in *. rewrite Hex, Hdir. cbn [negb].
  unfold cm_bind at 1. rewrite (already_configured_wf _ _ Hwf).
  fold (configured_paths m). rewrite bool_decide_eq_false_2 by done.
  unfold cm_bind, _save, cm_ret.
  cbn [write_fault set_config _config on_disk].
  by destruct (write_fault m).
Qed.

(** X18 (add_folder): whatever [add_folder] returns or raises, the
    configured folders keep a ["path"] each and stay free of duplicates,
    and the list of paths is as before or has one more entry at its end:
    the stripped argument, which is then a non-empty path of an existing
    directory that was not configured. The success message is returned
    only when that entry was added and the file written. *)
Theorem add_folder_invariant (path_arg label_arg : list N) m result m' :
  well_formed m ->
  add_folder path_arg label_arg m = (result, m') ->
  well_formed m'
  /\ (NoDup (configured_paths m) -> NoDup (configured_paths m'))
  /\ (configured_paths m' = configured_paths m
      \/ configured_paths m' = configured_paths m ++ [strip path_arg]
         /\ strip path_arg <> []
         /\ path_exists (strip path_arg) = true
         /\ path_is_dir (strip path_arg) = true
         /\ strip path_arg ∉ configured_paths m)
  /\ (result = inr (str "Cartella aggiunta: " ++ strip path_arg) ->
      strip path_arg ∈ configured_paths m'
      /\ on_disk m' = Stored (_config m')).
Proof.
  intros Hwf Hrun. unfold add_folder in Hrun.
  assert (Hsame : forall (msg : list N),
            msg <> str "Cartella aggiunta: " ++ strip path_arg ->
            (inr msg, m) = (result, m') ->
            well_formed m'
            /\ (NoDup (configured_paths m) -> NoDup (configured_paths m'))
            /\ (configured_paths m' = configured_paths m
                \/ configured_paths m' = configured_paths m ++ [strip path_arg]
                   /\ strip path_arg <> []
                   /\ path_exists (strip path_arg) = true
                   /\ path_is_dir (strip path_arg) = true
                   /\ strip path_arg ∉ configured_paths m)
            /\ (result = inr (str "Cartella aggiunta: " ++ strip path_arg) ->
                strip path_arg ∈ configured_paths m'
                /\ on_disk m' = Stored (_config m'))).
  { intros msg Hmsg [= <- <-]. split; [done|]. split; [done|].
    split; [by left|]. intros [= ->]. by destruct Hmsg. }
  assert (Hother : forall (prefix : list N),
            head prefix <> Some 67%N -> prefix <> [] ->
            prefix ++ strip path_arg
            <> str "Cartella aggiunta: " ++ strip path_arg).
  { intros [|x prefix] Hhead Hne H; [done|].
    apply (f_equal head) in H. change (Some x = Some 67%N) in H.
    apply Hhead. exact H. }
  destruct (strip path_arg) as [|c p] eqn:Hp.
  { apply (Hsame (str "Percorso vuoto")); [|done].
    intros H. apply (f_equal head) in H. vm_compute in H. discriminate H. }
  rewrite <- Hp in *.
  destruct (path_exists (strip path_arg)) eqn:Hex; cbn [negb] in Hrun.
  2:{ eapply Hsame; [|exact Hrun]. by apply Hother. }
  destruct (path_is_dir (strip path_arg)) eqn:Hdir; cbn [negb] in Hrun.
  2:{ eapply Hsame; [|exact Hrun]. by apply Hother. }
  unfold cm_bind at 1 in Hrun.
  rewrite (already_configured_wf _ _ Hwf) in Hrun.
  fold (configured_paths m) in Hrun.
  destruct (decide (strip path_arg ∈ configured_paths m)) as [Hin|Hnot].
  { rewrite bool_decide_eq_true_2 in Hrun by done.
    eapply Hsame; [|exact Hrun]. intros H.
    apply (f_equal (fun l => l !! 9%nat)) in H. cbn in H. discriminate H. }
  rewrite bool_decide_eq_false_2 in Hrun by done.
  set (fc := {| path := strip path_arg;
                label := match label_arg with
                         | [] => path_name (strip path_arg)
                         | l => l
                         end |}) in *.
  assert (Hwf1 : Forall (fun d : dict => is_Some (d !! str "path"))
                   (folders (_config m) ++ [to_dict fc])).
  { apply Forall_app. split; [exact Hwf|]. constructor; [|constructor].
    rewrite to_dict_path. by eexists. }
  assert (Hnd1 : NoDup (configured_paths m) ->
                 NoDup (configured_paths m ++ [strip path_arg])).
  { intros Hnd. apply NoDup_app. split; [done|]. split.
    - intros q Hq ->%list_elem_of_singleton. done.
    - apply NoDup_singleton. }
  assert (Hne : strip path_arg <> []) by (by rewrite Hp).
  clear Hsame Hother.
  unfold cm_bind, _save, cm_ret in Hrun.
  cbn [write_fault set_config _config on_disk] in Hrun.
  destruct (write_fault m) as [detail|]; injection Hrun as <- <-;
    unfold well_formed, configured_paths;
    cbn [_config set_config set_folders folders on_disk];
    rewrite !(configured_paths_snoc m fc); cbn [path fc];
    fold (configured_paths m).
  - split; [exact Hwf1|]. split; [exact Hnd1|].
    split; [|intros [=]]. right. by repeat split.
  - split; [exact Hwf1|]. split; [exact Hnd1|].
    split; [right; by repeat split|].
    intros _. split; [|done]. apply elem_of_app. right. by left.
Qed.

Lemma without_path_filter fs (p : list N) :
  Forall (fun d => is_Some (d !! str "path")) fs ->
  without_path fs p
  = inr (filter (fun d : dict => d !! str "path" <> Some p) fs).
Proof.
  induction fs as [|f fs IH]; intros Hwf; [done|].
  apply Forall_cons in Hwf as [[q Hq] Hwf].
  cbn [without_path]. rewrite Hq, (IH Hwf), filter_cons.
  destruct (decide (q = p)) as [->|Hne].
  - rewrite bool_decide_eq_true_2 by done.
    by rewrite decide_False by (intros H; by apply H).
  - rewrite bool_decide_eq_false_2 by done.
    by rewrite decide_True by congruence.
Qed.

(** X19 (remove_folder): [remove_folder(path)] leaves, in order, the
    folder dicts whose path differs from its argument, so the argument is
    configured no more; it compares the argument as given, without
    stripping it. With a writable directory the new list is on disk. *)
Theorem remove_folder_removes (path_arg : list N) m :
  well_formed m ->
  exists result m',
    remove_folder path_arg m = (result, m')
    /\ folders (_config m')
       = filter (fun d : dict => d !! str "path" <> Some path_arg)
           (folders (_config m))
    /\ configured_paths m'
       = filter (fun q => q <> path_arg) (configured_paths m)
    /\ (path_arg ∉ configured_paths m')
    /\ well_formed m'
    /\ (NoDup (configured_paths m) -> NoDup (configured_paths m'))
    /\ (path_arg ∉ configured_paths m ->
        folders (_config m') = folders (_config m))
    /\ match write_fault m with
       | None => result = inr (str "Cartella rimossa: " ++ path_arg)
                 /\ on_disk m' = Stored (_config m')
       | Some detail => result = inl (SaveError detail)
                        /\ on_disk m' = on_disk m
       end.
Proof.
  intros Hwf.
  destruct (without_path_wf _ path_arg Hwf)
    as (kept & Hkept & Hpaths & Hwf' & Hsame).
  assert (Hdicts : kept = filter (fun d : dict => d !! str "path" <> Some path_arg)
                            (folders (_config m))).
  { rewrite (without_path_filter _ _ Hwf) in Hkept. by injection Hkept. }
  unfold remove_folder, cm_bind at 1. rewrite Hkept.
  unfold cm_bind, _save, cm_ret. cbn.
  assert (Hfilter : path_arg ∉ (filter (fun q => q <> path_arg)
                                  (configured_paths m))).
  { intros [Hne _]%list_elem_of_filter. done. }
  destruct (write_fault m) as [detail|] eqn:Hfault; eexists _, _;
    (split; [reflexivity|]); unfold configured_paths, well_formed;
    cbn [_config folders set_config set_folders];
    rewrite ?Hpaths; fold (configured_paths m);
    repeat split; auto using NoDup_filter.
Qed.

Lemma without_path_snoc fs fc (q : list N) :
  Forall (fun d => is_Some (d !! str "path")) fs ->
  q ∉ omap (fun d : dict => d !! str "path") fs ->
  without_path (fs ++ [to_dict fc]) q
  = inr (fs ++ (if bool_decide (path fc = q) then [] else [to_dict fc])).
Proof.
  induction fs as [|f fs IH]; intros Hwf Hq.
  - cbn [app without_path]. by rewrite to_dict_path.
  - apply Forall_cons in Hwf as [[q' Hq'] Hwf].
    cbn [omap list_omap] in Hq. rewrite Hq' in Hq.
    apply not_elem_of_cons in Hq as [Hne Hq].
    rewrite <- app_comm_cons. cbn [without_path].
    rewrite Hq', (IH Hwf Hq).
    by rewrite bool_decide_eq_false_2 by done.
Qed.

Lemma remove_folder_run (q : list N) m kept :
  without_path (folders (_config m)) q = inr kept ->
  let c' := set_folders kept (_config m) in
  remove_folder q m
  = match write_fault m with
    | Some detail => (inl (SaveError detail), set_config c' m)
    | None =>
        (inr (str "Cartella rimossa: " ++ q),
         {| _config := c'; on_disk := Stored c'; write_fault := None |})
    end.
Proof.
  intros Hkept. cbv zeta. unfold remove_folder, cm_bind at 1. rewrite Hkept.
  unfold cm_bind, _save, cm_ret.
  cbn [write_fault set_config _config on_disk].
  by destruct (write_fault m).
Qed.

(** X20 (add_folder, remove_folder): adding a folder and removing it by
    its stripped path gives back the configured folders; removing it by
    the text as typed, when stripping changes that text, leaves it
    configured. *)
Theorem add_then_remove (path_arg label_arg : list N) m :
  well_formed m ->
  write_fault m = None ->
  strip path_arg <> [] ->
  path_exists (strip path_arg) = true ->
  path_is_dir (strip path_arg) = true ->
  strip path_arg ∉ configured_paths m ->
  exists m1 m2,
    add_folder path_arg label_arg m
    = (inr (str "Cartella aggiunta: " ++ strip path_arg), m1)
    /\ remove_folder (strip path_arg) m1
       = (inr (str "Cartella rimossa: " ++ strip path_arg), m2)
    /\ folders (_config m2) = folders (_config m)
    /\ on_disk m2 = Stored (_config m2)
    /\ (path_arg <> strip path_arg ->
        path_arg ∉ configured_paths m ->
        exists m3,
          remove_folder path_arg m1
          = (inr (str "Cartella rimossa: " ++ path_arg), m3)
          /\ strip path_arg ∈ configured_paths m3).
Proof.
  intros Hwf Hfault Hne Hex Hdir Hnot.
  pose proof (add_folder_new path_arg label_arg m Hwf Hne Hex Hdir Hnot)
    as Hadd.
  cbv zeta in Hadd. rewrite Hfault in Hadd.
  eexists _, _. split; [exact Hadd|].
  split.
  { rewrite (remove_folder_run _ _ (folders (_config m))); [reflexivity|].
    cbn [_config folders set_folders].
    rewrite without_path_snoc by done. cbn [path].
    by rewrite bool_decide_eq_true_2, app_nil_r by done. }
  split; [done|]. split; [done|].
  intros Hdiff Hnot'.
  eexists. split.
  { rewrite (remove_folder_run _ _
               (folders (_config m)
                ++ [to_dict {| path := strip path_arg;
                               label := match label_arg with
                                        | [] => path_name (strip path_arg)
                                        | l => l
                                        end |}])); [reflexivity|].
    cbn [_config folders set_folders].
    rewrite without_path_snoc by done. cbn [path].
    by rewrite bool_decide_eq_false_2 by done. }
  unfold configured_paths. cbn [_config folders set_folders].
  rewrite configured_paths_snoc. apply elem_of_app. right. by left.
Qed.

(** X21 (_save, set_api_key, reload): when the configuration file cannot
    be written, [set_api_key] raises the error of [_save] after it has
    changed the dict in memory: [get_api_key] returns the new key (or the
    environment's, when the new key is blank) while the file is as
    before, and [reload] brings back what the file holds. *)
Theorem failed_save_keeps_memory (key : list N) m detail :
  write_fault m = Some detail ->
  exists m',
    set_api_key key m = (inl (SaveError detail), m')
    /\ saved_api_key (_config m') = strip key
    /\ get_api_key m' = (match strip key with [] => env_api_key | k => k end)
    /\ on_disk m' = on_disk m
    /\ exists m'',
         reload m' = (inr tt, m'')
         /\ _config m'' = _load m
         /\ on_disk m'' = on_disk m.
Proof.
  intros Hfault. unfold set_api_key, cm_bind, _save. cbn. rewrite Hfault.
  eexists. split; [reflexivity|]. cbn. split; [done|]. split; [done|].
  split; [done|]. eexists. split; [reflexivity|]. done.
Qed.

(** X22 (set_api_key, get_api_key, has_api_key): after [set_api_key(key)]
    on a writable directory the saved key is [key.strip()] and is on disk;
    [get_api_key] returns it when it is not empty and the key of the
    environment otherwise, so a blank key does not hide the environment's;
    [has_api_key] tells whether [get_api_key] is non-empty. *)
Theorem set_api_key_then_get (key : list N) m :
  write_fault m = None ->
  exists m',
    set_api_key key m = (inr tt, m')
    /\ on_disk m' = Stored (_config m')
    /\ folders (_config m') = folders (_config m)
    /\ saved_chat_model (_config m') = saved_chat_model (_config m)
    /\ get_api_key m' = (match strip key with [] => env_api_key | k => k end)
    /\ (has_api_key m' = true <-> strip key <> [] \/ env_api_key <> [])
    /\ (reload m').2 = m'.
Proof.
  intros Hfault. unfold set_api_key, cm_bind, _save. cbn. rewrite Hfault.
  eexists. split; [reflexivity|]. cbn. repeat split; try done.
  - unfold has_api_key, get_api_key. cbn. intros H.
    apply negb_true_iff, bool_decide_eq_false in H.
    destruct (strip key); [by right|by left].
  - unfold has_api_key, get_api_key. cbn. intros H.
    apply negb_true_iff, bool_decide_eq_false.
    destruct (strip key); [|done]. by destruct H.
Qed.

(** X23 (_build_engine, has_api_key, _get_client): the gate of the web UI
    and the engine agree. For an engine built from the manager that has
    made no client yet, [has_api_key()] holds exactly when [_get_client]
    succeeds; when it does not hold, [_get_client] raises its
    [ValueError]. *)
Theorem has_api_key_iff_client m (w : World) :
  client_ready w = false ->
  (has_api_key m = true <-> key_available (_build_engine m) w)
  /\ (has_api_key m = true ->
      _get_client (_build_engine m) w = (Ok tt, set_client_ready w))
  /\ (has_api_key m = false ->
      _get_client (_build_engine m) w
      = (Raise (ValueError (str "API key mancante. Imposta MISTRAL_API_KEY o passa api_key nella config.")), w)).
Proof.
  intros Hready.
  assert (Hiff : has_api_key m = true <-> key_available (_build_engine m) w).
  { unfold has_api_key, key_available, _build_engine, get_api_key.
    cbn [api_key]. rewrite negb_true_iff, bool_decide_eq_false, Hready.
    destruct (saved_api_key (_config m)) as [|c k]; split.
    - intros H. right. by left.
    - intros [H|[H|H]]; done.
    - intros _. right. by left.
    - done. }
  split; [exact Hiff|]. split.
  - intros H%Hiff. rewrite get_client_ok by done.
    unfold with_client. by rewrite Hready.
  - intros H. apply get_client_missing. intros Hk%Hiff. congruence.
Qed.

Lemma length_slice_tail {A} (l : list A) (k : Z) :
  0 < k <= len l -> slice l (- k) (len l) = drop (length l - Z.to_nat k) l.
Proof.
  intros Hk. unfold slice, clamp_index.
  destruct (Z.ltb_spec (- k) 0); [|lia].
  destruct (Z.ltb_spec (len l) 0); [lia|].
  rewrite Z.min_id, Z.max_r by lia.
  replace (Z.to_nat (- k + len l)) with (length l - Z.to_nat k)%nat
    by (unfold len; lia).
  apply take_ge. rewrite length_drop. unfold len. lia.
Qed.

(** X24 (get_api_key_status): the masked key is as long as the key. A key
    of at most 8 characters is shown as bullets only. Of a longer key the
    first four and the last four characters are shown and every character
    between them is a bullet. *)
Theorem masked_shape (key : list N) :
  length (masked key) = length key
  /\ (len key <= 8 -> masked key = replicate (length key) bullet)
  /\ (8 < len key ->
      masked key
      = take 4 key ++ replicate (length key - 8) bullet
          ++ drop (length key - 4) key)
  /\ (Forall (fun c => c <> bullet) key ->
      revealed (masked key) = if 8 <? len key then 8%nat else 0%nat).
Proof.
  assert (Hshort : len key <= 8 -> masked key = replicate (length key) bullet).
  { intros H. unfold masked. destruct (Z.ltb_spec 8 (len key)); [lia|].
    f_equal. unfold len. lia. }
  assert (Hlong : 8 < len key ->
            masked key
            = take 4 key ++ replicate (length key - 8) bullet
                ++ drop (length key - 4) key).
  { intros H. unfold masked. destruct (Z.ltb_spec 8 (len key)); [|lia].
    rewrite slice_prefix by lia.
    replace (slice key (-4) (len key)) with (drop (length key - 4) key)
      by (symmetry; apply (length_slice_tail key 4); lia).
    do 3 f_equal. unfold len. lia. }
  assert (Hrev : forall n, revealed (replicate n bullet) = 0%nat).
  { intros n. unfold revealed. induction n as [|n IH]; [done|].
    simpl. rewrite filter_cons. by rewrite decide_False by (intros H; by apply H). }
  assert (Hall : forall s, Forall (fun c => c <> bullet) s ->
            revealed s = length s).
  { intros s Hs. unfold revealed. induction Hs as [|c s Hc Hs IH]; [done|].
    rewrite filter_cons, decide_True by done. simpl. by rewrite IH. }
  split; [|split; [exact Hshort|split; [exact Hlong|]]].
  - destruct (Z.le_gt_cases (len key) 8) as [H|H].
    + rewrite Hshort by done. apply length_replicate.
    + rewrite Hlong by lia.
      rewrite !length_app, length_take, length_replicate, length_drop.
      unfold len in H. lia.
  - intros Hkey. destruct (Z.ltb_spec 8 (len key)) as [H|H].
    + rewrite Hlong by done. unfold revealed.
      rewrite !filter_app, !length_app.
      fold (revealed (take 4 key)) (revealed (replicate (length key - 8) bullet))
        (revealed (drop (length key - 4) key)).
      rewrite Hrev, (Hall (take 4 key)), (Hall (drop (length key - 4) key)).
      * rewrite length_take, length_drop. unfold len in H. lia.
      * by apply Forall_drop.
      * by apply Forall_take.
    + rewrite Hshort by done. apply Hrev.
Qed.

(** X25 (count_files_in_path, load_sources): the count that the folder
    list of the web UI shows is an upper bound of what [load_sources]
    loads from the folder: for a directory whose entries are files or
    directories, [load_sources] returns at most [count_files_in_path]
    documents. The count includes the files whose name starts with ["~"]
    and those without text, which the loader leaves out. *)
Theorem load_sources_at_most_count (p : list N) :
  path_resolve p = p ->
  path_is_file p = false ->
  Forall (fun f => path_is_file f = negb (path_is_dir f)) (path_rglob_sorted p) ->
  len (load_sources [p]) <= count_files_in_path p.
Proof.
  intros Hres Hfile Hentries.
  unfold load_sources, count_files_in_path. rewrite bind_singleton.
  unfold load_path. rewrite Hres.
  destruct (path_exists p); cbn [negb]; [|done].
  rewrite Hfile. unfold len. apply inj_le.
  induction Hentries as [|f fs Hf Hfs IH]; [done|].
  rewrite bind_cons, length_app, filter_cons.
  assert (Hone : (length (load_file f) <= 1)%nat).
  { unfold load_file. repeat case_match; simpl; lia. }
  destruct (decide (path_is_file f = true
                    /\ path_suffix_lower f ∈ SUPPORTED_EXTENSIONS
                    /\ startswith (path_name f) (str ".") = false))
    as [Hcount|Hskip].
  - simpl. lia.
  - assert (load_file f = []) as ->; [|simpl; lia].
    unfold load_file. rewrite Hf in Hskip.
    destruct (path_is_dir f); [done|].
    destruct (decide (path_suffix_lower f ∈ SUPPORTED_EXTENSIONS)) as [Hs|Hs].
    + rewrite bool_decide_eq_true_2 by done. cbn [negb].
      destruct (startswith (path_name f) (str ".")) eqn:Hdot; [done|].
      destruct Hskip. done.
    + by rewrite bool_decide_eq_false_2 by done.
Qed.

End ConfigFacts.

Section ConfigExamples.
Import Stub StubVariants.

Lemma add_folder_invariant_witness :
  let run := add_folder (P:=tree_platform) (str "  /data/docs ") [] manager0 in
  well_formed run.2 /\ NoDup (configured_paths run.2).
Proof.
  cbv zeta.
  destruct (add_folder (P:=tree_platform) (str "  /data/docs ") [] manager0)
    as [result m'] eqn:Hrun.
  destruct (add_folder_invariant (P:=tree_platform) (str "  /data/docs ") []
              manager0 result m') as (Hwf & Hnd & _).
  - constructor.
  - exact Hrun.
  - split; [exact Hwf|]. apply Hnd. constructor.
Defined.

Lemma remove_folder_removes_witness :
  configured_paths manager_two_folders = [str "/data/docs"; str "/data"]
  /\ exists result m',
       remove_folder (str "/data/docs") manager_two_folders = (result, m')
       /\ result = inr (str "Cartella rimossa: /data/docs")
       /\ configured_paths m' = [str "/data"]
       /\ folders (_config m')
          = [to_dict (P:=tree_platform) {| path := str "/data"; label := [] |}]
       /\ on_disk m' = Stored (_config m').
Proof.
  split; [vm_compute; reflexivity|].
  destruct (remove_folder_removes (str "/data/docs") manager_two_folders)
    as (result & m' & Hrun & Hdicts & Hpaths & _ & _ & _ & _ & Hsaved).
  - unfold well_formed. cbn [manager_two_folders two_folders _config folders].
    repeat constructor; rewrite to_dict_path; by eexists.
  - exists result, m'. split; [exact Hrun|].
    cbn [manager_two_folders write_fault] in Hsaved.
    destruct Hsaved as (Hresult & Hdisk).
    split; [exact Hresult|]. split; [rewrite Hpaths; vm_compute; reflexivity|].
    split; [|exact Hdisk].
    rewrite Hdicts. cbn [manager_two_folders two_folders _config folders].
    rewrite !filter_cons, filter_nil.
    rewrite decide_False by (intros H; apply H; apply to_dict_path).
    rewrite decide_True
      by (rewrite to_dict_path; intros [= H]; vm_compute in H; discriminate H).
    reflexivity.
Defined.

Lemma add_then_remove_witness :
  exists m1 m2,
    add_folder (P:=tree_platform) (str "  /data/docs ") (str "Documenti")
      manager0
    = (inr (str "Cartella aggiunta: " ++ strip (str "  /data/docs ")), m1)
    /\ remove_folder (strip (str "  /data/docs ")) m1
       = (inr (str "Cartella rimossa: " ++ strip (str "  /data/docs ")), m2)
    /\ folders (_config m2) = [].
Proof.
  destruct (add_then_remove (P:=tree_platform) (str "  /data/docs ")
              (str "Documenti") manager0)
    as (m1 & m2 & Hadd & Hremove & Hfolders & _).
  - constructor.
  - reflexivity.
  - vm_compute. discriminate.
  - vm_compute. reflexivity.
  - vm_compute. reflexivity.
  - apply not_elem_of_nil.
  - by exists m1, m2.
Defined.

Lemma failed_save_keeps_memory_witness :
  exists m',
    set_api_key (str " new-key ") read_only_manager
    = (inl (SaveError (str "Read-only file system")), m')
    /\ get_api_key (P:=stub_platform) m' = str "new-key"
    /\ on_disk m' = on_disk read_only_manager.
Proof.
  destruct (failed_save_keeps_memory (P:=stub_platform) (str " new-key ")
              read_only_manager (str "Read-only file system"))
    as (m' & Hrun & _ & Hget & Hdisk & _).
  - reflexivity.
  - exists m'. split; [exact Hrun|]. split; [|exact Hdisk].
    rewrite Hget. vm_compute. reflexivity.
Defined.

Lemma set_api_key_then_get_witness :
  exists m',
    set_api_key (str "   ") manager0 = (inr tt, m')
    /\ get_api_key (P:=stub_platform) m' = str "key".
Proof.
  destruct (set_api_key_then_get (P:=stub_platform) (str "   ") manager0)
    as (m' & Hrun & _ & _ & _ & Hget & _).
  - reflexivity.
  - exists m'. split; [exact Hrun|]. rewrite Hget. vm_compute. reflexivity.
Defined.

Lemma has_api_key_iff_client_witness :
  has_api_key (P:=tree_platform) manager0 = false
  /\ seen_exception
       (_get_client (P:=tree_platform)
          (_build_engine (P:=tree_platform) manager0)
          {| client_ready := false; collections := ∅;
             embed_calls := []; chat_calls := [] |}).1
     = Some (ValueError (str "API key mancante. Imposta MISTRAL_API_KEY o passa api_key nella config.")).
Proof.
  assert (Hno : has_api_key (P:=tree_platform) manager0 = false)
    by (vm_compute; reflexivity).
  split; [exact Hno|].
  destruct (has_api_key_iff_client (P:=tree_platform) manager0
              {| client_ready := false; collections := ∅;
                 embed_calls := []; chat_calls := [] |})
    as (_ & _ & Hraise).
  - reflexivity.
  - by rewrite (Hraise Hno).
Defined.

Lemma load_sources_at_most_count_witness :
  len (load_sources (P:=tree_platform) [str "/data/docs"])
  <= count_files_in_path (P:=tree_platform) (str "/data/docs").
Proof.
  apply (load_sources_at_most_count (P:=tree_platform) (str "/data/docs")).
  - reflexivity.
  - vm_compute. reflexivity.
  - vm_compute. repeat constructor.
Defined.

(** The folder [/data/docs]: the count shows three files, one document is
    loaded; a key of twelve characters shows eight of them. *)
Example count_and_mask :
  count_files_in_path (P:=tree_platform) (str "/data/docs") = 3
  /\ len (load_sources (P:=tree_platform) [str "/data/docs"]) = 1
  /\ masked (str "abcdefghijkl")
     = str "abcd" ++ replicate 4 bullet ++ str "ijkl"
  /\ masked (str "abcdefgh") = replicate 8 bullet.
Proof. repeat split; vm_compute; reflexivity. Qed.

End ConfigExamples.
